(** * stl_to_openscad: a shallow embedding of the converter and its properties

    The development follows [stl_to_openscad.go]: the geometry model
    ([point], [polygon], [polygons], [boundingBox]), the two decoders
    ([readAscii], [readBinary]), the centering transform ([postProcess]),
    the serializer ([ftos], [facesToOpenScad], [combineStrings],
    [writeOpenScad]) and the driver ([init], [main]).

    Go's [float32] is IEEE-754 binary32; it is modelled by [spec_float]
    with precision 24 and maximal exponent 128, whose operations round to
    nearest, ties to even, as the hardware does. *)

From Stdlib Require Import ZArith List String Ascii Bool Lia.
From Stdlib Require Import Floats.SpecFloat.
From Stdlib Require Import DecimalString.
Import ListNotations.

Local Open Scope Z_scope.

(** ** binary32 arithmetic *)

Module F32.

Definition prec : Z := 24.
Definition emax : Z := 128.

Definition t := spec_float.

Definition add (x y : t) : t := SFadd prec emax x y.
Definition sub (x y : t) : t := SFsub prec emax x y.
Definition div (x y : t) : t := SFdiv prec emax x y.
Definition neg (x : t) : t := SFopp x.
Definition ltb (x y : t) : bool := SFltb x y.
Definition eqb (x y : t) : bool := SFeqb x y.

(** The conversion of an integer constant, as in the untyped constant [2]
    of [(max.x-min.x)/2]. *)
Definition of_Z (n : Z) : t := binary_normalize prec emax n 0 false.

(** [math.MaxFloat32] = (2^24 - 1) * 2^104. *)
Definition MaxFloat32 : t := S754_finite false 16777215 104.

Definition pos_zero : t := S754_zero false.
Definition neg_zero : t := S754_zero true.
Definition pos_inf : t := S754_infinity false.
Definition neg_inf : t := S754_infinity true.

Definition is_nan (x : t) : bool :=
  match x with S754_nan => true | _ => false end.

Definition is_inf (x : t) (sign : bool) : bool :=
  match x with S754_infinity s => Bool.eqb s sign | _ => false end.

Definition signbit (x : t) : bool :=
  match x with
  | S754_zero s | S754_infinity s | S754_finite s _ _ => s
  | S754_nan => false
  end.

(** The conversion [float64(x)] of a [float32]: the same number in
    binary64 form (precision 53, maximal exponent 1024). *)
Definition toFloat64 (x : t) : spec_float :=
  match x with
  | S754_finite s m e => binary_normalize 53 1024 (cond_Zopp s (Zpos m)) e s
  | _ => x
  end.

(** The conversion [float32(y)] of a [float64]: the nearest binary32. *)
Definition ofFloat64 (y : spec_float) : t :=
  match y with
  | S754_finite s m e => binary_normalize prec emax (cond_Zopp s (Zpos m)) e s
  | _ => y
  end.

(** [math.Min] and [math.Max] of package [math], on [float64]. *)
Definition mathMin (x y : spec_float) : spec_float :=
  if is_inf x true || is_inf y true then neg_inf
  else if is_nan x || is_nan y then S754_nan
  else if SFeqb x pos_zero && SFeqb x y then (if signbit x then x else y)
  else if SFltb x y then x else y.

Definition mathMax (x y : spec_float) : spec_float :=
  if is_inf x false || is_inf y false then pos_inf
  else if is_nan x || is_nan y then S754_nan
  else if SFeqb x pos_zero && SFeqb x y then (if signbit x then y else x)
  else if SFltb y x then x else y.

(** [float32(math.Min(float64(x), float64(y)))] and
    [float32(math.Max(float64(x), float64(y)))]. *)
Definition Min (x y : t) : t := ofFloat64 (mathMin (toFloat64 x) (toFloat64 y)).

Definition Max (x y : t) : t := ofFloat64 (mathMax (toFloat64 x) (toFloat64 y)).

(** [math.Float32frombits]: sign bit 31, biased exponent in bits 23..30,
    fraction in bits 0..22. *)
Definition frombits (w : Z) : t :=
  let s := Z.testbit w 31 in
  let e := Z.land (Z.shiftr w 23) 255 in
  let f := Z.land w 8388607 in
  if e =? 0 then
    match f with
    | Zpos m => S754_finite s m (-149)
    | _ => S754_zero s
    end
  else if e =? 255 then
    (if f =? 0 then S754_infinity s else S754_nan)
  else
    match f + 8388608 with
    | Zpos m => S754_finite s m (e - 150)
    | _ => S754_nan
    end.

(** Finite values in canonical binary32 form: the mantissa has at most 24
    bits, and exactly 24 unless the exponent is the least one. *)
Definition canonical (m : positive) (e : Z) : bool :=
  (Zpos m <? 16777216) && (-149 <=? e) && (e <=? 104)
  && ((e =? -149) || (8388608 <=? Zpos m)).

Definition finite (x : t) : bool :=
  match x with
  | S754_zero _ => true
  | S754_finite _ m e => canonical m e
  | _ => false
  end.

End F32.

(** ** Geometry model *)

Record point := mkPoint { x : F32.t; y : F32.t; z : F32.t }.

Definition point_add (p q : point) : point :=
  mkPoint (F32.add (x p) (x q)) (F32.add (y p) (y q)) (F32.add (z p) (z q)).

Record polygon := mkPolygon { vertices : list point }.

Definition polygons := list polygon.

Definition bbStep (acc : point * point) (v : point) : point * point :=
  let '(mn, mx) := acc in
  (mkPoint (F32.Min (x mn) (x v)) (F32.Min (y mn) (y v)) (F32.Min (z mn) (z v)),
   mkPoint (F32.Max (x mx) (x v)) (F32.Max (y mx) (y v)) (F32.Max (z mx) (z v))).

Definition boundingBox (ps : polygons) : point * point :=
  let mn := mkPoint F32.MaxFloat32 F32.MaxFloat32 F32.MaxFloat32 in
  let mx := mkPoint (F32.neg F32.MaxFloat32) (F32.neg F32.MaxFloat32)
                    (F32.neg F32.MaxFloat32) in
  fold_left (fun acc p => fold_left bbStep (vertices p) acc) ps (mn, mx).

(** ** Centering transform *)

Definition centerDelta (mn mx : point) : point :=
  mkPoint
    (F32.sub (F32.neg (x mn)) (F32.div (F32.sub (x mx) (x mn)) (F32.of_Z 2)))
    (F32.sub (F32.neg (y mn)) (F32.div (F32.sub (y mx) (y mn)) (F32.of_Z 2)))
    (F32.neg (z mn)).

Definition postProcess (centerFlag : bool) (ps : polygons) : polygons :=
  if negb centerFlag then ps
  else
    let '(mn, mx) := boundingBox ps in
    let delta := centerDelta mn mx in
    map (fun p => mkPolygon (map (fun v => point_add v delta) (vertices p))) ps.

(** ** Fatal errors

    [log.Fatalf] ends the process; a run is either a value or the fatal
    message.  The message is kept as its format and its arguments. *)

Inductive fatal :=
| ExpectedButGot (expected actual : string)
    (* "Expected %q, but got %q." *)
| CantConvert (token : string).
    (* "Can't convert %q to float: %s" *)

Inductive result (A : Type) :=
| Ok (a : A)
| Fatal (f : fatal)
| OutOfFuel.

Arguments Ok {A} a.
Arguments Fatal {A} f.
Arguments OutOfFuel {A}.

(** ** The word scanner

    [bufio.Scanner] with [bufio.ScanWords]: the tokens are the maximal runs
    of bytes between white space.  Tokens are assumed to fit the scanner's
    buffer (64 KiB). *)

Definition byte_is (b : Byte.byte) (n : N) : bool := N.eqb (Byte.to_N b) n.

(** The number of bytes of the white-space rune at the head of [bs], 0 when
    the head is not white space ([isSpace] of package [bufio], on the UTF-8
    encodings of its runes). *)
Definition spaceWidth (bs : list Byte.byte) : nat :=
  match bs with
  | b0 :: r =>
    if byte_is b0 32 || byte_is b0 9 || byte_is b0 10 || byte_is b0 11
       || byte_is b0 12 || byte_is b0 13 then 1%nat
    else
      match r with
      | b1 :: r' =>
        if byte_is b0 194 && (byte_is b1 133 || byte_is b1 160) then 2%nat
        else
          match r' with
          | b2 :: _ =>
            if byte_is b0 225 && byte_is b1 154 && byte_is b2 128 then 3%nat
            else if byte_is b0 226 && byte_is b1 128
                    && ((N.leb 128 (Byte.to_N b2) && N.leb (Byte.to_N b2) 138)
                        || byte_is b2 168 || byte_is b2 169 || byte_is b2 175)
                 then 3%nat
            else if byte_is b0 226 && byte_is b1 129 && byte_is b2 159 then 3%nat
            else if byte_is b0 227 && byte_is b1 128 && byte_is b2 128 then 3%nat
            else 0%nat
          | [] => 0%nat
          end
      | [] => 0%nat
      end
  | [] => 0%nat
  end.

Definition flushWord (cur : list Byte.byte) : list string :=
  match cur with
  | [] => []
  | _ => [string_of_list_byte (rev cur)]
  end.

(** [skip] counts the bytes of a white-space rune still to pass, [cur] holds
    the bytes of the word being read, last byte first. *)
Fixpoint scanWordsFrom (bs : list Byte.byte) (skip : nat) (cur : list Byte.byte)
  : list string :=
  match bs with
  | [] => flushWord cur
  | b :: r =>
    match skip with
    | S k => scanWordsFrom r k cur
    | O =>
      match spaceWidth bs with
      | O => scanWordsFrom r 0 (b :: cur)
      | S k => flushWord cur ++ scanWordsFrom r k []
      end
    end
  end.

Definition scanWords (bs : list Byte.byte) : list string := scanWordsFrom bs 0 [].

(** The scanner: the tokens not yet delivered and the token [Text] answers.
    After the last token [Scan] fails and [Text] is empty. *)
Record scanner := mkScanner { pending : list string; text : string }.

Definition NewScanner (tokens : list string) : scanner := mkScanner tokens "".

Definition Scan (s : scanner) : scanner :=
  match pending s with
  | t :: r => mkScanner r t
  | [] => mkScanner [] ""
  end.

(** Parsing steps read the scanner and may end the run. *)
Definition parser (A : Type) := scanner -> result (A * scanner).

Definition ret {A} (a : A) : parser A := fun s => Ok (a, s).

Definition bind {A B} (m : parser A) (k : A -> parser B) : parser B :=
  fun s =>
    match m s with
    | Ok (a, s') => k a s'
    | Fatal f => Fatal f
    | OutOfFuel => OutOfFuel
    end.

Notation "x <- m ;; k" := (bind m (fun x => k))
  (at level 61, m at next level, right associativity).
Notation "m ;;; k" := (bind m (fun _ => k))
  (at level 61, right associativity).

Definition expect (expected : string) : parser unit :=
  fun s =>
    let s1 := Scan s in
    let str := text s1 in
    if negb (String.eqb str expected) then Fatal (ExpectedButGot expected str)
    else Ok (tt, s1).

Section Ascii.

(** [strconv.ParseFloat(s, 32)] followed by the conversion to [float32]:
    [None] when it answers an error (a syntax error, or a value out of
    range). *)
Variable ParseFloat32 : string -> option F32.t.

Definition readFloat : parser F32.t :=
  fun s =>
    let s1 := Scan s in
    let tok := text s1 in
    match ParseFloat32 tok with
    | None => Fatal (CantConvert tok)
    | Some val => Ok (val, s1)
    end.

Definition readPoint : parser point :=
  px <- readFloat ;;
  py <- readFloat ;;
  pz <- readFloat ;;
  ret (mkPoint px py pz).

Definition readFacet : parser polygon :=
  expect "normal" ;;;
  _ <- readPoint ;;
  expect "outer" ;;;
  expect "loop" ;;;
  expect "vertex" ;;;
  v1 <- readPoint ;;
  expect "vertex" ;;;
  v2 <- readPoint ;;
  expect "vertex" ;;;
  v3 <- readPoint ;;
  expect "endloop" ;;;
  expect "endfacet" ;;;
  ret (mkPolygon [v1; v2; v3]).

(** The loop [for scanner.Text() == "facet" { ... }]. *)
Fixpoint readFacets (fuel : nat) (acc : polygons) : parser polygons :=
  fun s =>
    if String.eqb (text s) "facet" then
      match fuel with
      | O => OutOfFuel
      | S fuel' =>
        (p <- readFacet ;;
         (fun s' => readFacets fuel' (acc ++ [p]) (Scan s'))) s
      end
    else Ok (acc, s).

(** [readAscii]: the tokens of the input, the module name on entry; the
    facets, the module name on exit and the scanner as it is left. *)
Definition readAscii (tokens : list string) (moduleName : string)
  : result (polygons * string * scanner) :=
  let sc := NewScanner tokens in
  match expect "solid" sc with
  | Ok (_, s1) =>
    let s2 := Scan s1 in
    let shapeName := text s2 in
    let moduleName' :=
      if String.eqb moduleName "" then shapeName else moduleName in
    let s3 := Scan s2 in
    match readFacets (S (List.length tokens)) [] s3 with
    | Ok (ps, s4) =>
      if negb (String.eqb (text s4) "endsolid")
      then Fatal (ExpectedButGot "endsolid" (text s4))
      else Ok (ps, moduleName', Scan s4)
    | Fatal f => Fatal f
    | OutOfFuel => OutOfFuel
    end
  | Fatal f => Fatal f
  | OutOfFuel => OutOfFuel
  end.

End Ascii.

(** ** The binary decoder *)

(** What a read answers once the bytes at hand are used up. *)
Inductive ioError := EOF | ReadError.

(** [bufio.Reader]: the bytes the stream still delivers, and the error that
    follows them. *)
Record reader := mkReader { avail : list Byte.byte; failure : ioError }.

(** [r.Peek(n)]: the next [n] bytes, fewer with the stream's error when it
    ends early; nothing is consumed. *)
Definition Peek (r : reader) (n : nat) : list Byte.byte * option ioError :=
  (firstn n (avail r),
   if (List.length (avail r) <? n)%nat then Some (failure r) else None).

(** [r.Discard(n)], its results dropped. *)
Definition Discard (r : reader) (n : nat) : reader :=
  mkReader (skipn n (avail r)) (failure r).

Definition le32 (b0 b1 b2 b3 : Byte.byte) : Z :=
  Z.lor (Z.of_N (Byte.to_N b0))
    (Z.lor (Z.shiftl (Z.of_N (Byte.to_N b1)) 8)
       (Z.lor (Z.shiftl (Z.of_N (Byte.to_N b2)) 16)
              (Z.shiftl (Z.of_N (Byte.to_N b3)) 24))).

(** [binary.Read(r, binary.LittleEndian, &v)] for a 4-byte [v], its error
    dropped: [io.ReadFull] takes four bytes; with fewer at hand it consumes
    them and [v] keeps its value, here [None]. *)
Definition readUint32 (r : reader) : option Z * reader :=
  match avail r with
  | b0 :: b1 :: b2 :: b3 :: rest =>
    (Some (le32 b0 b1 b2 b3), mkReader rest (failure r))
  | _ => (None, mkReader [] (failure r))
  end.

Definition readFloat32 (r : reader) (old : F32.t) : F32.t * reader :=
  match readUint32 r with
  | (Some w, r') => (F32.frombits w, r')
  | (None, r') => (old, r')
  end.

Definition readPointBinary (r : reader) : point * reader :=
  let p := mkPoint F32.pos_zero F32.pos_zero F32.pos_zero in
  let '(px, r1) := readFloat32 r (x p) in
  let '(py, r2) := readFloat32 r1 (y p) in
  let '(pz, r3) := readFloat32 r2 (z p) in
  (mkPoint px py pz, r3).

(** The loop [for i := uint32(0); i < numTriangles; i++], by the number of
    rounds left. *)
Fixpoint readTriangles (n : nat) (r : reader) (acc : polygons)
  : polygons * reader :=
  match n with
  | O => (acc, r)
  | S n' =>
    let r0 := Discard r (3 * 4) in
    let '(v1, r1) := readPointBinary r0 in
    let '(v2, r2) := readPointBinary r1 in
    let '(v3, r3) := readPointBinary r2 in
    let r4 := Discard r3 2 in
    readTriangles n' r4 (acc ++ [mkPolygon [v1; v2; v3]])
  end.

Definition readBinary (r : reader) : polygons * reader :=
  let r0 := Discard r 80 in
  let '(numTriangles, r1) :=
    match readUint32 r0 with
    | (Some n, r1) => (n, r1)
    | (None, r1) => (0, r1)
    end in
  readTriangles (Z.to_nat numTriangles) r1 [].

(** ** The serializer *)

Local Open Scope string_scope.

(** [strings.HasSuffix]. *)
Definition HasSuffix (s suffix : string) : bool :=
  let n := String.length s in
  let k := String.length suffix in
  (k <=? n)%nat && String.eqb (substring (n - k) k s) suffix.

(** [s[0 : len(s)-1]]. *)
Definition dropLast (s : string) : string :=
  substring 0 (String.length s - 1) s.

(** The verb [%d] on a signed integer. *)
Definition formatInt (n : Z) : string := NilZero.string_of_int (Z.to_int n).

Fixpoint padLeft (width : nat) (s : string) : string :=
  match width with
  | O => s
  | S w => if (String.length s <=? w)%nat then "0" ++ padLeft w s else s
  end.

(** The nearest integer to [num / den], ties to the even one ([den > 0]). *)
Definition roundHalfEven (num den : Z) : Z :=
  let q := (num / den)%Z in
  let r := (num mod den)%Z in
  match (2 * r ?= den)%Z with
  | Lt => q
  | Gt => (q + 1)%Z
  | Eq => if Z.even q then q else (q + 1)%Z
  end.

(** [fmt.Sprintf("%.10f", val)]: the exact decimal expansion of the value
    rounded to ten places after the point (package [strconv] rounds the
    exact expansion to nearest, ties to even); a set sign bit prints ["-"],
    also before a zero; infinities and NaN print by name. *)
Definition Sprintf_10f (val : F32.t) : string :=
  let fixed (neg : bool) (q : Z) :=
    (if neg then "-" else "")
    ++ formatInt (q / 10000000000)%Z ++ "."
    ++ padLeft 10 (formatInt (q mod 10000000000)%Z) in
  match val with
  | S754_nan => "NaN"
  | S754_infinity false => "+Inf"
  | S754_infinity true => "-Inf"
  | S754_zero s => fixed s 0%Z
  | S754_finite s m e =>
    fixed s
      (if (0 <=? e)%Z
       then (Zpos m * 2 ^ e * 10000000000)%Z
       else roundHalfEven (Zpos m * 10000000000)%Z (2 ^ (- e))%Z)
  end.

(** The loop [for strings.HasSuffix(s, "0") { s = s[0 : len(s)-1] }]. *)
Fixpoint stripZeros (fuel : nat) (s : string) : string :=
  match fuel with
  | O => s
  | S fuel' => if HasSuffix s "0" then stripZeros fuel' (dropLast s) else s
  end.

Definition ftos (val : F32.t) : string :=
  let s := Sprintf_10f val in
  let s := stripZeros (String.length s) s in
  if HasSuffix s "." then dropLast s else s.

Definition pointToOpenScad (pt : point) : string :=
  "[" ++ ftos (x pt) ++ "," ++ ftos (y pt) ++ "," ++ ftos (z pt) ++ "]".

(** Go's [int] on a 64-bit target: sums wrap around. *)
Definition wrapInt (n : Z) : Z :=
  ((n + 9223372036854775808) mod 18446744073709551616 - 9223372036854775808)%Z.

(** [strings.Join]. *)
Definition Join (parts : list string) (sep : string) : string :=
  String.concat sep parts.

Definition facesToOpenScad (start len : Z) : string :=
  let f := map (fun i => formatInt (wrapInt (start + Z.of_nat i)))
               (seq 0 (Z.to_nat len)) in
  "[" ++ Join f "," ++ "]".

Definition combineStep (n : nat) (count : Z) (separator : string)
  (st : list string * string * Z) (entry : nat * string)
  : list string * string * Z :=
  let '(lines, curLine, i) := st in
  let '(idx, str) := entry in
  let part := if (idx <? n - 1)%nat then str ++ separator else str in
  if (i <? count)%Z then (lines, curLine ++ part, (i + 1)%Z)
  else ((lines ++ [curLine])%list, part, 1%Z).

Definition combineStrings (strs : list string) (count : Z) (separator : string)
  : list string :=
  let n := List.length strs in
  let '(lines, curLine, _) :=
    fold_left (combineStep n count separator)
              (combine (seq 0 n) strs) ([], "", 0%Z) in
  (lines ++ [curLine])%list.

(** The first loop of [writeOpenScad]: the point texts, the face texts and
    the running offset. *)
Definition scadStep (st : list string * list string * Z) (p : polygon)
  : list string * list string * Z :=
  let '(points, faces, ofs) := st in
  let len := Z.of_nat (List.length (vertices p)) in
  ((points ++ map pointToOpenScad (vertices p))%list,
   (faces ++ [facesToOpenScad ofs len])%list,
   wrapInt (ofs + len)).

Definition scadLists (ps : polygons) : list string * list string * Z :=
  fold_left scadStep ps ([], [], 0%Z).

Definition scadPoints (ps : polygons) : list string := fst (fst (scadLists ps)).
Definition scadFaces (ps : polygons) : list string := snd (fst (scadLists ps)).

Definition nl : string := String (ascii_of_nat 10) "".

Definition writeLines (ls : list string) : string :=
  String.concat "" (map (fun l => "      " ++ l ++ nl) ls).

Definition writeOpenScad (moduleName : string) (ps : polygons) : string :=
  "module " ++ moduleName ++ "() {" ++ nl
  ++ "  polyhedron(" ++ nl
  ++ "    points=[" ++ nl
  ++ writeLines (combineStrings (scadPoints ps) 3 ", ")
  ++ "    ]," ++ nl
  ++ "    faces=[" ++ nl
  ++ writeLines (combineStrings (scadFaces ps) 6 ", ")
  ++ "    ]" ++ nl
  ++ "  );" ++ nl
  ++ "}" ++ nl
  ++ moduleName ++ "();" ++ nl.

Local Close Scope string_scope.

(** ** The driver *)

(** [init]: the module name starts as the [-module] flag. *)
Definition init (moduleNameFlag : string) : string := moduleNameFlag.

(** What a finished run leaves: the facets as decoded, the module name as
    resolved and the text written. *)
Record run := mkRun { decoded : polygons; moduleName : string; output : string }.

Section Main.

Variable ParseFloat32 : string -> option F32.t.

Definition main (moduleNameFlag : string) (centerFlag : bool) (input : reader)
  : result run :=
  let moduleName := init moduleNameFlag in
  let '(buf, _) := Peek input 6 in
  let read :=
    if String.eqb (string_of_list_byte buf) "solid " then
      match readAscii ParseFloat32 (scanWords (avail input)) moduleName with
      | Ok (ps, moduleName, _) => Ok (ps, moduleName)
      | Fatal f => Fatal f
      | OutOfFuel => OutOfFuel
      end
    else Ok (fst (readBinary input), moduleName) in
  match read with
  | Ok (ps, moduleName) =>
    let moduleName :=
      if String.eqb moduleName "" then "shape"%string else moduleName in
    let ps' := postProcess centerFlag ps in
    Ok (mkRun ps moduleName (writeOpenScad moduleName ps'))
  | Fatal f => Fatal f
  | OutOfFuel => OutOfFuel
  end.

End Main.

(** ** A decimal instance of the float parser

    The plain decimal literals [[+-]ddd[.ddd][(e|E)[+-]dd]] among the texts
    [strconv.ParseFloat] accepts, rounded to the nearest binary32, ties to
    even; a value beyond the binary32 range is an error.  It serves to run
    the ASCII decoder on concrete inputs. *)

Definition digitVal (c : ascii) : option Z :=
  let n := Z.of_N (N_of_ascii c) in
  if (48 <=? n) && (n <=? 57) then Some (n - 48) else None.

(** The digits at the head of [s]: their value after [acc], their number,
    and the text that follows. *)
Fixpoint readDigits (s : string) (acc : Z) (count : Z) : Z * Z * string :=
  match s with
  | String c r =>
    match digitVal c with
    | Some d => readDigits r (10 * acc + d) (count + 1)
    | None => (acc, count, s)
    end
  | EmptyString => (acc, count, s)
  end.

Definition readSign (s : string) : bool * string :=
  match s with
  | String "-"%char r => (true, r)
  | String "+"%char r => (false, r)
  | _ => (false, s)
  end.

(** The binary32 nearest to [(-1)^neg * mant * 10^dexp]. *)
Definition roundDecimal (neg : bool) (mant dexp : Z) : F32.t :=
  if mant =? 0 then S754_zero neg
  else if 0 <=? dexp then
    binary_normalize F32.prec F32.emax
      (cond_Zopp neg (mant * 10 ^ dexp)) 0 false
  else
    let den := 10 ^ (- dexp) in
    let num := mant * 2 ^ 200 in
    let sticky := if num mod den =? 0 then 0 else 1 in
    binary_normalize F32.prec F32.emax
      (cond_Zopp neg (2 * (num / den) + sticky)) (-201) false.

Definition parseDecimal32 (s : string) : option F32.t :=
  let '(neg, s1) := readSign s in
  let '(ip, ni, s2) := readDigits s1 0 0 in
  let '(mant, nf, s3) :=
    match s2 with
    | String "."%char r => readDigits r ip 0
    | _ => (ip, 0, s2)
    end in
  if ni + nf =? 0 then None
  else
    let exponent :=
      match s3 with
      | EmptyString => Some 0
      | String c r =>
        if Ascii.eqb c "e" || Ascii.eqb c "E" then
          let '(eneg, r1) := readSign r in
          match readDigits r1 0 0 with
          | (ev, ne, EmptyString) =>
            if ne =? 0 then None else Some (cond_Zopp eneg ev)
          | _ => None
          end
        else None
      end in
    match exponent with
    | None => None
    | Some ev =>
      match roundDecimal neg mant (ev - nf) with
      | S754_infinity _ => None
      | v => Some v
      end
    end.

(** * The vocabulary of the properties *)

(** The values the formatting claim names: 1.5 = 0x3FC00000,
    2.0 = 0x40000000, the binary32 nearest to 0.1 = 0x3DCCCCCD, and the
    negative zero 0x80000000. *)
Definition f32_1_5 : F32.t := F32.frombits 1069547520.
Definition f32_2 : F32.t := F32.frombits 1073741824.
Definition f32_0_1 : F32.t := F32.frombits 1036831949.
Definition f32_neg0 : F32.t := F32.frombits 2147483648.

Definition threeVertices (p : polygon) : Prop := List.length (vertices p) = 3%nat.

(** The text of the face whose first point has index [i]. *)
Definition faceText (i : Z) : string :=
  ("[" ++ formatInt i ++ "," ++ formatInt (i + 1) ++ ","
       ++ formatInt (i + 2) ++ "]")%string.

(** The layout in the words of the format: a record is 50 bytes, the normal
    in bytes 0..11, the nine coordinates as little-endian words from byte 12
    on, the attribute in bytes 48..49. *)
Definition recordWord (rec : list Byte.byte) (off : nat) : Z :=
  le32 (nth off rec Byte.x00) (nth (off + 1) rec Byte.x00)
       (nth (off + 2) rec Byte.x00) (nth (off + 3) rec Byte.x00).

Definition recordPoint (rec : list Byte.byte) (off : nat) : point :=
  mkPoint (F32.frombits (recordWord rec off))
          (F32.frombits (recordWord rec (off + 4)))
          (F32.frombits (recordWord rec (off + 8))).

Definition recordFacet (rec : list Byte.byte) : polygon :=
  mkPolygon [recordPoint rec 12; recordPoint rec 24; recordPoint rec 36].

Definition isRecord (rec : list Byte.byte) : Prop := List.length rec = 50%nat.

(** The grammar in the words of the format: a facet is written with twelve
    number tokens, three for the normal and three for each vertex. *)
Definition triple := (string * string * string)%type.

Record facetText := mkFacetText { nrm : triple; vA : triple; vB : triple; vC : triple }.

Definition tripleTokens (t : triple) : list string :=
  let '(a, b, c) := t in [a; b; c].

Definition facetTokens (f : facetText) : list string :=
  ["facet"; "normal"]%string ++ tripleTokens (nrm f)
  ++ ["outer"; "loop"; "vertex"]%string ++ tripleTokens (vA f)
  ++ ["vertex"%string] ++ tripleTokens (vB f)
  ++ ["vertex"%string] ++ tripleTokens (vC f)
  ++ ["endloop"; "endfacet"]%string.

(** A whole file: [solid <name> facet* endsolid], then whatever follows. *)
Definition solidTokens (name : string) (fs : list facetText) (rest : list string)
  : list string :=
  ["solid"%string; name] ++ flat_map facetTokens fs ++ ["endsolid"%string] ++ rest.

Section GrammarVocabulary.

Variable ParseFloat32 : string -> option F32.t.

Definition tripleValue (t : triple) : option point :=
  let '(a, b, c) := t in
  match ParseFloat32 a, ParseFloat32 b, ParseFloat32 c with
  | Some fa, Some fb, Some fc => Some (mkPoint fa fb fc)
  | _, _, _ => None
  end.

(** The facet a facet text denotes, when its twelve numbers parse. *)
Definition facetValue (f : facetText) : option polygon :=
  match tripleValue (nrm f), tripleValue (vA f), tripleValue (vB f),
        tripleValue (vC f) with
  | Some _, Some a, Some b, Some c => Some (mkPolygon [a; b; c])
  | _, _, _, _ => None
  end.

Definition denotes (f : facetText) (p : polygon) : Prop :=
  facetValue f = Some p.

(** The scanner standing on the first token of [l]. *)
Definition scannerAt (l : list string) : scanner :=
  mkScanner (tl l) (hd ""%string l).

Definition total {A} (m : parser A) : Prop := forall s, m s <> OutOfFuel.

(** A message names a token of the input, or the empty text the scanner
    answers at its end: the token that differs from the expected one, or
    the token that is no number. *)
Definition names (tokens : list string) (f : fatal) : Prop :=
  match f with
  | ExpectedButGot e a => a <> e /\ (In a tokens \/ a = ""%string)
  | CantConvert t => ParseFloat32 t = None /\ (In t tokens \/ t = ""%string)
  end.

Definition within (tokens : list string) (s : scanner) : Prop :=
  incl (pending s) tokens /\ (In (text s) tokens \/ text s = ""%string).

Definition sound {A} (tokens : list string) (m : parser A) : Prop :=
  forall s, within tokens s ->
    match m s with
    | Ok (_, s') => within tokens s'
    | Fatal f => names tokens f
    | OutOfFuel => True
    end.

End GrammarVocabulary.

(** The token sequences of the grammar: [solid name], facet blocks whose
    numbers parse, [endsolid].  What follows [endsolid] is free, and may be
    missing: [readAscii] calls [Scan] once more and looks neither at its
    answer nor at the token. *)
Definition conforms (ParseFloat32 : string -> option F32.t)
           (tokens : list string) : Prop :=
  exists name fs rest ps,
    tokens = solidTokens name fs rest /\ Forall2 (denotes ParseFloat32) fs ps.

Definition asciiPrefix (input : reader) : bool :=
  String.eqb (string_of_list_byte (fst (Peek input 6))) "solid ".

(** The one-byte white space: space, tab, line feed, vertical tab, form
    feed, carriage return. *)
Definition isAsciiSpace (b : Byte.byte) : bool :=
  byte_is b 32 || byte_is b 9 || byte_is b 10 || byte_is b 11
  || byte_is b 12 || byte_is b 13.

(** The name an ASCII input declares: its second token. *)
Definition declaredName (input : reader) : string :=
  nth 1 (scanWords (avail input)) ""%string.

Definition sampleHeader : list Byte.byte := repeat Byte.x00 80.

(** One record: a zero normal, nine times the word of 1.5, no attribute. *)
Definition sampleRecord : list Byte.byte :=
  repeat Byte.x00 12
  ++ List.concat (repeat [Byte.x00; Byte.x00; Byte.xc0; Byte.x3f] 9)
  ++ [Byte.x00; Byte.x00].

Definition sampleFacetText : facetText :=
  mkFacetText ("0", "0", "1")%string ("0", "0", "5")%string
              ("4", "0", "5.5")%string ("0", "6", "9")%string.

Definition sampleFacet : polygon :=
  mkPolygon [mkPoint F32.pos_zero F32.pos_zero (F32.of_Z 5);
             mkPoint (F32.of_Z 4) F32.pos_zero (F32.frombits 1085276160);
             mkPoint F32.pos_zero (F32.of_Z 6) (F32.of_Z 9)].

Definition sampleAscii : list Byte.byte :=
  list_byte_of_string
    "solid cube facet normal 0 0 1 outer loop vertex 0 0 5 vertex 4 0 5.5 vertex 0 6 9 endloop endfacet endsolid cube".

Definition sampleMalformed : list Byte.byte :=
  list_byte_of_string "solid x facet normal 0 0 0 outer wrong".

Definition key (v : F32.t) : Z :=
  match v with
  | S754_finite s m e => cond_Zopp s ((e + 150) * 16777216 + Zpos m)
  | _ => 0
  end.

(** What [F32.Min] amounts to on binary32 values, without the way through
    binary64. *)
Definition min32 (x y : F32.t) : F32.t :=
  if F32.is_inf x true || F32.is_inf y true then F32.neg_inf
  else if F32.is_nan x || F32.is_nan y then S754_nan
  else if F32.eqb x F32.pos_zero && F32.eqb x y
       then (if F32.signbit x then x else y)
  else if F32.ltb x y then x else y.

(** The shift that brings a binary32 mantissa to 53 bits. *)
Definition widening (m : positive) : positive :=
  Z.to_pos (53 - Zpos (digits2_pos m)).

(** Exponent first, then mantissa: the order of positive finite values. *)
Definition lexLt (e1 : Z) (m1 : positive) (e2 : Z) (m2 : positive) : Prop :=
  e1 < e2 \/ (e1 = e2 /\ Zpos m1 < Zpos m2).

(** A negative zero, or a negative value, once met stays the least. *)
Definition belowPosZero (a : F32.t) : Prop := a = F32.neg_zero \/ key a < 0.

Definition allFinite (zs : list F32.t) : Prop :=
  Forall (fun v => F32.finite v = true) zs.

(** Values that are not negative: +0, a positive number, +Inf. *)
Definition nonneg (r : F32.t) : bool :=
  match r with
  | S754_zero false | S754_finite false _ _ | S754_infinity false => true
  | _ => false
  end.

Definition allVertices (ps : polygons) : list point := flat_map vertices ps.

Definition translate (delta : point) (p : polygon) : polygon :=
  mkPolygon (map (fun v => point_add v delta) (vertices p)).

Definition zFinite (ps : polygons) : Prop :=
  Forall (fun v => F32.finite (z v) = true) (allVertices ps).

Definition roundingMesh : polygons :=
  [mkPolygon [mkPoint f32_0_1 F32.pos_zero F32.pos_zero;
              mkPoint (F32.frombits 1060320051) F32.pos_zero F32.pos_zero;
              mkPoint f32_0_1 (F32.of_Z 1) F32.pos_zero]].

Definition allCoordinatesFinite (ps : polygons) : Prop :=
  Forall (fun v => F32.finite (x v) = true /\ F32.finite (y v) = true
                   /\ F32.finite (z v) = true) (allVertices ps).

(** ** Centering without rounding

    Coordinates that are multiples of one power of two, of moderate size:
    on them every operation of the centering is exact. *)

(** The value [n * 2 ^ k] as a binary32 datum. *)
Definition represents (k n : Z) (v : F32.t) : Prop :=
  match v with
  | S754_zero _ => n = 0
  | S754_finite s m e =>
    F32.canonical m e = true /\ e <= k
    /\ cond_Zopp s (Zpos m) = n * 2 ^ (k - e)
  | _ => False
  end.

(** A multiple of [2 ^ k], at most [N] steps from zero. *)
Definition gridded (k N : Z) (v : F32.t) : Prop :=
  exists n, Z.abs n <= N /\ represents k n v.

(** A coordinate on the grid of step [2 ^ k]: a multiple of the step, fewer
    than 2^22 steps from zero. *)
Definition onGrid (k : Z) (v : F32.t) : Prop :=
  -147 <= k <= 104 /\ gridded k 4194303 v.

(** One coordinate of [delta], from the bounds of that coordinate. *)
Definition axisDelta (lo hi : F32.t) : F32.t :=
  F32.sub (F32.neg lo) (F32.div (F32.sub hi lo) (F32.of_Z 2)).

(** The least and the greatest of the coordinates [cs], as [boundingBox]
    folds them. *)
Definition least (cs : list F32.t) : F32.t :=
  fold_left F32.Min cs F32.MaxFloat32.
Definition greatest (cs : list F32.t) : F32.t :=
  fold_left F32.Max cs (F32.neg F32.MaxFloat32).

(** The coordinates [cs] after centering on their axis. *)
Definition centerAxis (cs : list F32.t) : list F32.t :=
  map (fun c => F32.add c (axisDelta (least cs) (greatest cs))) cs.

(** A mesh with the x coordinates 2^24 and 2^24+2, next to each other in
    binary32. *)
Definition wideMesh : polygons :=
  [mkPolygon [mkPoint (F32.of_Z 16777216) F32.pos_zero F32.pos_zero;
              mkPoint (F32.of_Z 16777218) F32.pos_zero F32.pos_zero;
              mkPoint (F32.of_Z 16777216) (F32.of_Z 1) F32.pos_zero]].

(** ** The vocabulary of the further properties *)

(** *** Line wrapping *)

(** The entries as [combineStrings] writes them: the separator after each
    one but the last. *)
Definition withSeparators (strs : list string) (sep : string) : list string :=
  (fix go (l : list string) : list string :=
     match l with
     | [] => []
     | s :: r =>
       match r with
       | [] => s
       | _ :: _ => (s ++ sep)%string
       end :: go r
     end) strs.

(** One round of the loop of [combineStrings] on an entry that carries its
    separator. *)
Definition lineStep (count : Z) (st : list string * string * Z) (part : string)
  : list string * string * Z :=
  let '(lines, curLine, i) := st in
  if i <? count then (lines, (curLine ++ part)%string, i + 1)
  else (lines ++ [curLine], part, 1).

(** The lines of a text given by groups: each group joined by the
    separator, and the separator once more after every group but the last. *)
Fixpoint groupLines (gs : list (list string)) (sep : string) : list string :=
  match gs with
  | [] => []
  | g :: gs' =>
    match gs' with
    | [] => [Join g sep]
    | _ :: _ => (Join g sep ++ sep)%string :: groupLines gs' sep
    end
  end.

(** The point texts of one facet. *)
Definition facetPoints (p : polygon) : list string :=
  map pointToOpenScad (vertices p).

(** The number of vertices of each facet. *)
Definition shape (ps : polygons) : list nat :=
  map (fun p => List.length (vertices p)) ps.

(** The text written for no facet at all: one blank line in each list. *)
Definition emptyPolyhedron (name : string) : string :=
  ("module " ++ name ++ "() {" ++ nl
   ++ "  polyhedron(" ++ nl
   ++ "    points=[" ++ nl
   ++ "      " ++ nl
   ++ "    ]," ++ nl
   ++ "    faces=[" ++ nl
   ++ "      " ++ nl
   ++ "    ]" ++ nl
   ++ "  );" ++ nl
   ++ "}" ++ nl
   ++ name ++ "();" ++ nl)%string.

(** *** Number texts *)

(** A text without its trailing zeros. *)
Fixpoint trimZeros (s : string) : string :=
  match s with
  | EmptyString => EmptyString
  | String c r =>
    let r' := trimZeros r in
    if Ascii.eqb c "0" && String.eqb r' "" then EmptyString else String c r'
  end.

(** The magnitude of a value times 10^10, rounded to an integer as [%.10f]
    rounds it. *)
Definition scaled (v : F32.t) : Z :=
  match v with
  | S754_finite _ m e =>
    if 0 <=? e then Zpos m * 2 ^ e * 10000000000
    else roundHalfEven (Zpos m * 10000000000) (2 ^ (- e))
  | _ => 0
  end.

Definition isDigit (c : ascii) : bool :=
  (48 <=? N_of_ascii c)%N && (N_of_ascii c <=? 57)%N.

Fixpoint allDigits (s : string) : bool :=
  match s with
  | EmptyString => true
  | String c r => isDigit c && allDigits r
  end.

(** Zeros and finite numbers: not an infinity, not NaN. *)
Definition isNumber (v : F32.t) : bool :=
  match v with
  | S754_zero _ | S754_finite _ _ _ => true
  | _ => false
  end.

(** *** Input that ends early *)

(** The token a fatal message shows as the one it got. *)
Definition actual (f : fatal) : string :=
  match f with
  | ExpectedButGot _ a => a
  | CantConvert t => t
  end.

(** A run that ended because the input did: the message shows the empty
    text the scanner answers after the last token. *)
Definition starved {A} (r : result A) : Prop :=
  exists f, r = Fatal f /\ actual f = ""%string.

(** [sp] stands where [s] stands, on an input that ends earlier. *)
Definition cut (sp s : scanner) : Prop :=
  text sp = text s /\ exists tail, pending s = pending sp ++ tail.

(** A parsing step that, on the shorter input, either does what it does on
    the longer one or ends starved. *)
Definition follows {A} (m : parser A) : Prop :=
  forall s sp a s',
    cut sp s -> m s = Ok (a, s') ->
    starved (m sp) \/ exists sp', m sp = Ok (a, sp') /\ cut sp' s'.

(** *** Binary data *)

(** The facet a record leaves when the stream has ended before it: the
    zero value of [point], three times. *)
Definition origin : point := mkPoint F32.pos_zero F32.pos_zero F32.pos_zero.
Definition originFacet : polygon := mkPolygon [origin; origin; origin].

(** A binary32 datum: a zero, an infinity, NaN, or a finite number in
    canonical form. *)
Definition binary32 (v : F32.t) : bool :=
  match v with
  | S754_finite _ m e => F32.canonical m e
  | _ => true
  end.

Definition binary32Point (p : point) : Prop :=
  binary32 (x p) = true /\ binary32 (y p) = true /\ binary32 (z p) = true.

(** The facet of [sampleRecord] as a text, and the two files of it. *)
Definition sampleFlatText : facetText :=
  mkFacetText ("0", "0", "0")%string ("1.5", "1.5", "1.5")%string
              ("1.5", "1.5", "1.5")%string ("1.5", "1.5", "1.5")%string.

Definition sampleFlatAscii : list Byte.byte :=
  list_byte_of_string
    "solid s facet normal 0 0 0 outer loop vertex 1.5 1.5 1.5 vertex 1.5 1.5 1.5 vertex 1.5 1.5 1.5 endloop endfacet endsolid s".

Definition sampleBinary : list Byte.byte :=
  sampleHeader ++ [Byte.x01; Byte.x00; Byte.x00; Byte.x00] ++ sampleRecord.

(** *** The bounding box *)

(** What [F32.Max] amounts to on binary32 values, without the way through
    binary64. *)
Definition max32 (x y : F32.t) : F32.t :=
  if F32.is_inf x false || F32.is_inf y false then F32.pos_inf
  else if F32.is_nan x || F32.is_nan y then S754_nan
  else if F32.eqb x F32.pos_zero && F32.eqb x y
       then (if F32.signbit x then y else x)
  else if F32.ltb y x then x else y.

(** [lo] and [hi] are values of the list [cs], none of which is less than
    [lo] or greater than [hi], by the comparison [<] of the language. *)
Definition bounds (lo hi : F32.t) (cs : list F32.t) : Prop :=
  In lo cs /\ In hi cs
  /\ forall c, In c cs -> F32.ltb c lo = false /\ F32.ltb hi c = false.

Definition nanOrNegInf (v : F32.t) : Prop := v = S754_nan \/ v = F32.neg_inf.
Definition nanOrPosInf (v : F32.t) : Prop := v = S754_nan \/ v = F32.pos_inf.

(** A facet with one coordinate that is no number. *)
Definition nanMesh : polygons :=
  [mkPolygon [mkPoint (F32.frombits 2143289344) F32.pos_zero F32.pos_zero;
              mkPoint (F32.of_Z 1) F32.pos_zero F32.pos_zero;
              mkPoint F32.pos_zero (F32.of_Z 1) F32.pos_zero]].

(** * Properties *)

(** ** Float formatting *)

Lemma append_assoc (a b c : string) :
  ((a ++ b) ++ c)%string = (a ++ b ++ c)%string.
Proof.
  induction a as [|ch a IH]; simpl; [reflexivity | rewrite IH; reflexivity].
Qed.

Lemma length_substring_0 (m : nat) (s : string) :
  String.length (substring 0 m s) = Nat.min m (String.length s).
Proof.
  revert m; induction s as [|c s IH]; intros [|m]; simpl; auto.
Qed.

Lemma HasSuffix_nonempty (s : string) (c : ascii) :
  HasSuffix s (String c "") = true -> (0 < String.length s)%nat.
Proof.
  unfold HasSuffix; intros H.
  apply andb_true_iff in H; destruct H as [H _].
  apply Nat.leb_le in H; simpl in H; lia.
Qed.

Lemma length_dropLast (s : string) :
  String.length (dropLast s) = (String.length s - 1)%nat.
Proof.
  unfold dropLast; rewrite length_substring_0; lia.
Qed.

(** The zero-stripping loop runs to its exit condition when it is given the
    length of the text as fuel. *)
Lemma stripZeros_done (fuel : nat) (s : string) :
  (String.length s <= fuel)%nat ->
  HasSuffix (stripZeros fuel s) "0" = false.
Proof.
  revert s; induction fuel as [|fuel IH]; intros s Hlen; simpl.
  - destruct (HasSuffix s "0") eqn:E; auto.
    apply HasSuffix_nonempty in E; lia.
  - destruct (HasSuffix s "0") eqn:E; auto.
    apply IH. rewrite length_dropLast.
    apply HasSuffix_nonempty in E; lia.
Qed.

Example f32_0_1_parsed : parseDecimal32 "0.1" = Some f32_0_1.
Proof. vm_compute. reflexivity. Qed.

Example f32_neg0_parsed : parseDecimal32 "-0.0" = Some f32_neg0.
Proof. vm_compute. reflexivity. Qed.

(** C2, as stated, fails: the binary32 nearest to 0.1 prints with the
    digits of its rounding error, and the negative zero keeps its sign. *)
Lemma ftos_claim_counterexample :
  ~ (ftos f32_1_5 = "1.5"%string /\ ftos f32_2 = "2"%string
     /\ ftos f32_0_1 = "0.1"%string /\ ftos f32_neg0 = "0"%string).
Proof.
  intros (_ & _ & H & _). vm_compute in H. discriminate H.
Qed.

(** C2 (amended): [ftos] prints the value with ten decimals, strips every
    trailing zero, then a trailing point; 1.5 gives "1.5", 2.0 gives "2",
    the binary32 nearest to 0.1 gives "0.1000000015", and the negative
    zero gives "-0": the sign of a zero is kept. *)
Theorem ftos_format :
  (forall val, exists s,
      s = stripZeros (String.length (Sprintf_10f val)) (Sprintf_10f val)
      /\ HasSuffix s "0" = false
      /\ ftos val = if HasSuffix s "." then dropLast s else s)
  /\ Sprintf_10f f32_1_5 = "1.5000000000"%string
  /\ Sprintf_10f f32_2 = "2.0000000000"%string
  /\ ftos f32_1_5 = "1.5"%string
  /\ ftos f32_2 = "2"%string
  /\ ftos f32_0_1 = "0.1000000015"%string
  /\ ftos f32_neg0 = "-0"%string
  /\ ftos F32.pos_zero = "0"%string.
Proof.
  split.
  - intros val. eexists. split; [reflexivity|]. split.
    + apply stripZeros_done. apply Nat.le_refl.
    + reflexivity.
  - repeat split; vm_compute; reflexivity.
Qed.

(** ** Face indices *)

Lemma wrapInt_small (n : Z) :
  0 <= n < 9223372036854775808 -> wrapInt n = n.
Proof.
  intros H. unfold wrapInt. rewrite Z.mod_small; lia.
Qed.

Lemma facesToOpenScad_three (ofs : Z) :
  0 <= ofs -> ofs + 2 < 9223372036854775808 ->
  facesToOpenScad ofs (Z.of_nat 3) = faceText ofs.
Proof.
  intros H0 H1. unfold facesToOpenScad, faceText, Join.
  rewrite Nat2Z.id. simpl seq. simpl map. simpl String.concat.
  rewrite !wrapInt_small by lia.
  change (Z.of_nat 0) with 0; change (Z.of_nat 1) with 1;
    change (Z.of_nat 2) with 2.
  rewrite Z.add_0_r.
  repeat (rewrite ?append_assoc; simpl). reflexivity.
Qed.

Lemma scadStep_three (points faces : list string) (k : nat) (p : polygon) :
  threeVertices p ->
  3 * Z.of_nat (S k) < 9223372036854775808 ->
  scadStep (points, faces, 3 * Z.of_nat k) p =
  (points ++ map pointToOpenScad (vertices p),
   faces ++ [faceText (3 * Z.of_nat k)],
   3 * Z.of_nat (S k)).
Proof.
  intros Hp Hsmall. unfold scadStep. rewrite Hp.
  rewrite facesToOpenScad_three by lia.
  rewrite wrapInt_small by lia.
  replace (3 * Z.of_nat k + Z.of_nat 3) with (3 * Z.of_nat (S k)) by lia.
  reflexivity.
Qed.

Lemma scadLists_from (ps : polygons) :
  forall (points faces : list string) (k : nat),
    Forall threeVertices ps ->
    3 * Z.of_nat (k + List.length ps) < 9223372036854775808 ->
    fold_left scadStep ps (points, faces, 3 * Z.of_nat k) =
    (points ++ flat_map (fun p => map pointToOpenScad (vertices p)) ps,
     faces ++ map (fun i => faceText (3 * Z.of_nat i)) (seq k (List.length ps)),
     3 * Z.of_nat (k + List.length ps)).
Proof.
  induction ps as [|p ps IH]; intros points faces k Hall Hsmall.
  - cbn [fold_left flat_map List.length seq map].
    rewrite !app_nil_r, Nat.add_0_r. reflexivity.
  - inversion Hall as [|? ? Hp Hps]; subst.
    cbn [List.length] in Hsmall.
    cbn [fold_left]. rewrite scadStep_three by (auto; lia).
    rewrite IH by (auto; rewrite Nat.add_succ_l, <- Nat.add_succ_r; exact Hsmall).
    cbn [flat_map List.length seq map].
    rewrite <- !app_assoc. cbn [app].
    rewrite Nat.add_succ_l, <- Nat.add_succ_r. reflexivity.
Qed.

(** C5: for a mesh of N three-vertex facets the serializer builds one face
    text per facet, the i-th being [[3i,3i+1,3i+2]]; the point texts are
    those of all vertices in facet order, none merged; these face texts are
    what the faces block of the output holds. *)
Theorem faces_contiguous (ps : polygons) (name : string) :
  Forall threeVertices ps ->
  3 * Z.of_nat (List.length ps) < 9223372036854775808 ->
  scadFaces ps = map (fun i => faceText (3 * Z.of_nat i)) (seq 0 (List.length ps))
  /\ List.length (scadFaces ps) = List.length ps
  /\ scadPoints ps = flat_map (fun p => map pointToOpenScad (vertices p)) ps
  /\ List.length (scadPoints ps) = (3 * List.length ps)%nat
  /\ exists before after,
       writeOpenScad name ps =
       (before
        ++ writeLines
             (combineStrings
                (map (fun i => faceText (3 * Z.of_nat i)) (seq 0 (List.length ps)))
                6 ", ")
        ++ after)%string.
Proof.
  intros Hall Hsmall.
  pose proof (scadLists_from ps [] [] 0 Hall Hsmall) as E.
  simpl in E.
  assert (Ef : scadFaces ps =
               map (fun i => faceText (3 * Z.of_nat i)) (seq 0 (List.length ps))).
  { unfold scadFaces, scadLists. rewrite E. reflexivity. }
  assert (Ep : scadPoints ps =
               flat_map (fun p => map pointToOpenScad (vertices p)) ps).
  { unfold scadPoints, scadLists. rewrite E. reflexivity. }
  split; [exact Ef|]. split.
  { rewrite Ef, length_map, length_seq. reflexivity. }
  split; [exact Ep|]. split.
  { rewrite Ep. clear - Hall. induction Hall as [|p ps Hp _ IH]; simpl; auto.
    rewrite length_app, length_map, Hp, IH. lia. }
  exists ("module " ++ name ++ "() {" ++ nl
          ++ "  polyhedron(" ++ nl
          ++ "    points=[" ++ nl
          ++ writeLines (combineStrings (scadPoints ps) 3 ", ")
          ++ "    ]," ++ nl
          ++ "    faces=[" ++ nl)%string.
  exists ("    ]" ++ nl ++ "  );" ++ nl ++ "}" ++ nl ++ name ++ "();" ++ nl)%string.
  unfold writeOpenScad. rewrite Ef.
  generalize (writeLines (combineStrings (scadPoints ps) 3 ", ")).
  generalize (writeLines
                (combineStrings
                   (map (fun i => faceText (3 * Z.of_nat i))
                        (seq 0 (List.length ps))) 6 ", ")).
  intros faces points. generalize nl. intros n.
  rewrite !append_assoc. reflexivity.
Qed.

Lemma faces_contiguous_witness :
  Forall threeVertices [sampleFacet; sampleFacet]
  /\ 3 * Z.of_nat (List.length [sampleFacet; sampleFacet]) < 9223372036854775808
  /\ scadFaces [sampleFacet; sampleFacet] = ["[0,1,2]"; "[3,4,5]"]%string.
Proof.
  assert (H1 : Forall threeVertices [sampleFacet; sampleFacet])
    by (repeat constructor).
  assert (H2 : 3 * Z.of_nat (List.length [sampleFacet; sampleFacet])
               < 9223372036854775808) by reflexivity.
  split; [exact H1|]. split; [exact H2|].
  exact (proj1 (faces_contiguous [sampleFacet; sampleFacet] "shape" H1 H2)).
Defined.

(** ** The binary layout *)

Ltac explode_record rec H :=
  do 50 (destruct rec as [|? rec];
         [discriminate H | simpl in H; apply eq_add_S in H]);
  destruct rec; [clear H | discriminate H].

Lemma readTriangles_record (rec tail : list Byte.byte) (err : ioError)
      (n : nat) (acc : polygons) :
  isRecord rec ->
  readTriangles (S n) (mkReader (rec ++ tail) err) acc =
  readTriangles n (mkReader tail err) (acc ++ [recordFacet rec]).
Proof.
  intros H. unfold isRecord in H. explode_record rec H.
  reflexivity.
Qed.

Lemma readTriangles_records (recs : list (list Byte.byte)) :
  forall (rest : list Byte.byte) (err : ioError) (acc : polygons),
    Forall isRecord recs ->
    readTriangles (List.length recs) (mkReader (List.concat recs ++ rest) err) acc =
    (acc ++ map recordFacet recs, mkReader rest err).
Proof.
  induction recs as [|rec recs IH]; intros rest err acc Hall.
  - cbn [List.length List.concat app map readTriangles].
    rewrite app_nil_r. reflexivity.
  - inversion Hall as [|? ? Hrec Hrecs]; subst.
    cbn [List.length List.concat map]. rewrite <- app_assoc.
    rewrite readTriangles_record by assumption.
    rewrite IH by assumption.
    rewrite <- app_assoc. reflexivity.
Qed.

Lemma readBinary_records (header : list Byte.byte) (c0 c1 c2 c3 : Byte.byte)
      (recs : list (list Byte.byte)) (rest : list Byte.byte) (err : ioError) :
  List.length header = 80%nat ->
  Forall isRecord recs ->
  le32 c0 c1 c2 c3 = Z.of_nat (List.length recs) ->
  readBinary (mkReader (header ++ [c0; c1; c2; c3] ++ List.concat recs ++ rest) err) =
  (map recordFacet recs, mkReader rest err).
Proof.
  intros Hh Hall Hn. unfold readBinary, Discard.
  cbn [avail failure].
  rewrite skipn_app, Hh, Nat.sub_diag.
  rewrite <- Hh at 1. rewrite skipn_all.
  cbn [skipn app]. unfold readUint32. cbn [avail failure].
  rewrite Hn, Nat2Z.id.
  apply (readTriangles_records recs rest err []). exact Hall.
Qed.

Lemma readTriangles_shape (n : nat) :
  forall (r : reader) (acc : polygons),
    Forall threeVertices acc ->
    Forall threeVertices (fst (readTriangles n r acc))
    /\ List.length (fst (readTriangles n r acc)) = (List.length acc + n)%nat.
Proof.
  induction n as [|n IH]; intros r acc Hacc.
  - cbn [readTriangles fst]. split; [assumption | lia].
  - cbn [readTriangles].
    destruct (readPointBinary (Discard r (3 * 4))) as [v1 r1].
    destruct (readPointBinary r1) as [v2 r2].
    destruct (readPointBinary r2) as [v3 r3].
    destruct (IH (Discard r3 2) (acc ++ [mkPolygon [v1; v2; v3]])) as [H1 H2].
    { apply Forall_app. split; [assumption|].
      constructor; [reflexivity | constructor]. }
    split; [exact H1|]. rewrite H2, length_app. cbn [List.length]. lia.
Qed.

(** C4: on a stream made of an 80-byte header, a little-endian count of N,
    N records of 50 bytes and anything after them, the binary decoder
    answers one facet per record, in order, whose points are the
    little-endian binary32 words at bytes 12..47 of the record; header,
    normal and attribute bytes do not matter, and what follows the records
    is left unread. *)
Theorem readBinary_layout (header : list Byte.byte) (c0 c1 c2 c3 : Byte.byte)
        (recs : list (list Byte.byte)) (rest : list Byte.byte) (err : ioError) :
  List.length header = 80%nat ->
  Forall isRecord recs ->
  le32 c0 c1 c2 c3 = Z.of_nat (List.length recs) ->
  readBinary (mkReader (header ++ [c0; c1; c2; c3] ++ List.concat recs ++ rest) err) =
  (map recordFacet recs, mkReader rest err).
Proof.
  intros Hh Hall Hn. unfold readBinary.
  assert (Hskip : Discard (mkReader (header ++ [c0; c1; c2; c3]
                                            ++ List.concat recs ++ rest) err) 80
                  = mkReader ([c0; c1; c2; c3] ++ List.concat recs ++ rest) err).
  { unfold Discard. cbn [avail failure].
    rewrite skipn_app, Hh, Nat.sub_diag.
    rewrite <- Hh at 1. rewrite skipn_all. reflexivity. }
  rewrite Hskip. unfold readUint32. cbn [avail failure app].
  rewrite Hn, Nat2Z.id. clear Hn Hskip.
  change (map recordFacet recs) with ([] ++ map recordFacet recs).
  generalize (@nil polygon) as acc.
  induction Hall as [|rec recs Hrec Hrecs IH]; intros acc.
  - cbn [List.length List.concat app map readTriangles].
    rewrite app_nil_r. reflexivity.
  - cbn [List.length List.concat map]. rewrite <- app_assoc.
    rewrite readTriangles_record by exact Hrec.
    rewrite IH, <- app_assoc. reflexivity.
Qed.

Lemma readBinary_layout_witness :
  List.length sampleHeader = 80%nat
  /\ Forall isRecord [sampleRecord]
  /\ le32 Byte.x01 Byte.x00 Byte.x00 Byte.x00 = Z.of_nat (List.length [sampleRecord])
  /\ readBinary (mkReader (sampleHeader
                             ++ [Byte.x01; Byte.x00; Byte.x00; Byte.x00]
                             ++ List.concat [sampleRecord] ++ [Byte.xff]) EOF)
     = ([mkPolygon [mkPoint f32_1_5 f32_1_5 f32_1_5;
                    mkPoint f32_1_5 f32_1_5 f32_1_5;
                    mkPoint f32_1_5 f32_1_5 f32_1_5]],
        mkReader [Byte.xff] EOF).
Proof.
  assert (H1 : List.length sampleHeader = 80%nat) by reflexivity.
  assert (H2 : Forall isRecord [sampleRecord])
    by (constructor; [reflexivity | constructor]).
  assert (H3 : le32 Byte.x01 Byte.x00 Byte.x00 Byte.x00
               = Z.of_nat (List.length [sampleRecord])) by reflexivity.
  split; [exact H1|]. split; [exact H2|]. split; [exact H3|].
  exact (readBinary_layout sampleHeader Byte.x01 Byte.x00 Byte.x00 Byte.x00
           [sampleRecord] [Byte.xff] EOF H1 H2 H3).
Defined.

(** ** The ASCII grammar *)

Section Grammar.

Variable ParseFloat32 : string -> option F32.t.

Lemma Scan_cons (t c : string) (l : list string) :
  Scan (mkScanner (t :: l) c) = scannerAt (t :: l).
Proof. reflexivity. Qed.

Lemma Scan_text_inv (s : scanner) :
  text (Scan s) <> ""%string -> pending s = text (Scan s) :: pending (Scan s).
Proof.
  unfold Scan. destruct (pending s) as [|t r]; cbn [text pending]; congruence.
Qed.

Lemma Scan_pending_length (s : scanner) :
  (List.length (pending (Scan s)) <= List.length (pending s))%nat.
Proof.
  unfold Scan. destruct (pending s); cbn [pending List.length]; lia.
Qed.

(** *** Inversion of the parsing steps *)

Lemma bind_inv {A B} (m : parser A) (k : A -> parser B) s r :
  bind m k s = Ok r -> exists a s1, m s = Ok (a, s1) /\ k a s1 = Ok r.
Proof.
  unfold bind. destruct (m s) as [[a s1]| |]; try discriminate.
  intros H. exists a, s1. split; [reflexivity | exact H].
Qed.

Lemma ret_inv {A} (a : A) s r : ret a s = Ok r -> r = (a, s).
Proof. unfold ret. congruence. Qed.

Lemma expect_inv (e : string) s u s' :
  e <> ""%string ->
  expect e s = Ok (u, s') ->
  pending s = e :: pending s' /\ text s' = e.
Proof.
  intros He. unfold expect.
  destruct (String.eqb (text (Scan s)) e) eqn:E; cbn [negb]; try discriminate.
  apply String.eqb_eq in E. intros H. inversion H; subst s'.
  split; [|exact E].
  rewrite <- E at 1. apply Scan_text_inv. congruence.
Qed.

Lemma readFloat_inv s v s' :
  readFloat ParseFloat32 s = Ok (v, s') ->
  (exists t, pending s = t :: pending s' /\ ParseFloat32 t = Some v)
  \/ pending s' = [].
Proof.
  unfold readFloat. destruct (ParseFloat32 (text (Scan s))) eqn:E;
    try discriminate.
  intros H. inversion H; subst.
  unfold Scan in *. destruct (pending s) as [|t r]; cbn [text pending] in *.
  - right. reflexivity.
  - left. exists t. split; [reflexivity | exact E].
Qed.

Lemma readFloat_eof s v s' :
  readFloat ParseFloat32 s = Ok (v, s') -> pending s = [] -> pending s' = [].
Proof.
  intros H E. apply readFloat_inv in H. destruct H as [(t & H & _)|H].
  - congruence.
  - exact H.
Qed.

Lemma readPoint_inv s p s' :
  readPoint ParseFloat32 s = Ok (p, s') ->
  (exists t, pending s = tripleTokens t ++ pending s' /\ tripleValue ParseFloat32 t = Some p)
  \/ pending s' = [].
Proof.
  unfold readPoint. intros H.
  apply bind_inv in H. destruct H as (fa & s1 & H1 & H).
  apply bind_inv in H. destruct H as (fb & s2 & H2 & H).
  apply bind_inv in H. destruct H as (fc & s3 & H3 & H).
  apply ret_inv in H. inversion H; subst p s'. clear H.
  pose proof (readFloat_eof _ _ _ H2) as E2.
  pose proof (readFloat_eof _ _ _ H3) as E3.
  apply readFloat_inv in H1, H2, H3.
  destruct H3 as [(c & P3 & V3)|H3]; [|right; exact H3].
  destruct H2 as [(b & P2 & V2)|H2]; [|right; auto].
  destruct H1 as [(a & P1 & V1)|H1]; [|right; auto].
  left. exists (a, b, c). split.
  - cbn [tripleTokens app]. congruence.
  - cbn [tripleValue]. rewrite V1, V2, V3. reflexivity.
Qed.

Ltac step_bind H a s1 H1 :=
  apply bind_inv in H; destruct H as (a & s1 & H1 & H).

Ltac step_expect H :=
  apply expect_inv in H; [destruct H as [? ?] | discriminate].

Lemma readFacet_inv s p s' :
  readFacet ParseFloat32 s = Ok (p, s') ->
  exists f, pending s = tl (facetTokens f) ++ pending s'
            /\ text s' = "endfacet"%string /\ denotes ParseFloat32 f p.
Proof.
  unfold readFacet. intros H.
  step_bind H u1 s1 E1. step_bind H n s2 Rn.
  step_bind H u2 s3 E2. step_bind H u3 s4 E3.
  step_bind H u4 s5 E4. step_bind H a s6 Ra.
  step_bind H u5 s7 E5. step_bind H b s8 Rb.
  step_bind H u6 s9 E6. step_bind H c s10 Rc.
  step_bind H u7 s11 E7. step_bind H u8 s12 E8.
  apply ret_inv in H. inversion H; subst p s'. clear H.
  step_expect E1. step_expect E2. step_expect E3. step_expect E4.
  step_expect E5. step_expect E6. step_expect E7. step_expect E8.
  apply readPoint_inv in Rn, Ra, Rb, Rc.
  destruct Rn as [(tn & Pn & Vn)|Rn]; [|congruence].
  destruct Ra as [(ta & Pa & Va)|Ra]; [|congruence].
  destruct Rb as [(tb & Pb & Vb)|Rb]; [|congruence].
  destruct Rc as [(tc & Pc & Vc)|Rc]; [|congruence].
  exists (mkFacetText tn ta tb tc). split; [|split].
  - destruct tn as [[? ?] ?], ta as [[? ?] ?], tb as [[? ?] ?],
             tc as [[? ?] ?].
    unfold facetTokens. cbn [nrm vA vB vC tl app tripleTokens] in *.
    repeat match goal with
           | E : pending _ = _ |- _ => rewrite E; clear E
           end.
    reflexivity.
  - assumption.
  - unfold denotes, facetValue. cbn [nrm vA vB vC].
    rewrite Vn, Va, Vb, Vc. reflexivity.
Qed.

Lemma facetTokens_length (f : facetText) :
  List.length (facetTokens f) = 21%nat.
Proof.
  destruct f as [[[? ?] ?] [[? ?] ?] [[? ?] ?] [[? ?] ?]]. reflexivity.
Qed.

Lemma facetTokens_head (f : facetText) :
  facetTokens f = "facet"%string :: tl (facetTokens f).
Proof. reflexivity. Qed.

Lemma readFacets_stop (fuel : nat) (acc : polygons) (s : scanner) :
  text s <> "facet"%string ->
  readFacets ParseFloat32 fuel acc s = Ok (acc, s).
Proof.
  intros H. apply String.eqb_neq in H.
  destruct fuel; cbn [readFacets]; rewrite H; reflexivity.
Qed.

(** The loop answers the facets of as many [facet ... endfacet] blocks as
    stand before the token it stops on. *)
Lemma readFacets_inv (fuel : nat) :
  forall acc s ps s',
    readFacets ParseFloat32 fuel acc s = Ok (ps, s') ->
    text s' <> ""%string ->
    exists fs new,
      ps = acc ++ new /\ Forall2 (denotes ParseFloat32) fs new
      /\ text s :: pending s = flat_map facetTokens fs ++ text s' :: pending s'
      /\ text s' <> "facet"%string.
Proof.
  induction fuel as [|fuel IH]; intros acc s ps s' H Hne;
    cbn [readFacets] in H;
    destruct (String.eqb (text s) "facet") eqn:E; try discriminate.
  - inversion H; subst. exists [], []. rewrite app_nil_r.
    apply String.eqb_neq in E.
    split; [reflexivity|]. split; [constructor|].
    split; [reflexivity | assumption].
  - apply String.eqb_eq in E.
    apply bind_inv in H. destruct H as (p & s1 & Hp & H).
    apply readFacet_inv in Hp. destruct Hp as (f & Pf & _ & Vf).
    destruct (String.eqb (text (Scan s1)) "") eqn:E1.
    + apply String.eqb_eq in E1.
      rewrite readFacets_stop in H by (rewrite E1; discriminate).
      inversion H; subst. congruence.
    + apply String.eqb_neq in E1.
      apply IH in H; [|assumption].
      destruct H as (fs & new & Hps & Hall & Htok & Hstop).
      exists (f :: fs), (p :: new). repeat split.
      * rewrite Hps, <- app_assoc. reflexivity.
      * constructor; assumption.
      * cbn [flat_map]. rewrite <- app_assoc, <- Htok.
        rewrite <- (Scan_text_inv s1 E1), facetTokens_head, E, Pf.
        reflexivity.
      * assumption.
  - inversion H; subst. exists [], []. rewrite app_nil_r.
    apply String.eqb_neq in E.
    split; [reflexivity|]. split; [constructor|].
    split; [reflexivity | assumption].
Qed.

(** Soundness of the decoder: it answers facets only for a token sequence
    of the grammar, and these are the facets the sequence denotes. *)
Lemma readAscii_inv (tokens : list string) (name0 : string) ps name1 sc :
  readAscii ParseFloat32 tokens name0 = Ok (ps, name1, sc) ->
  exists name fs rest,
    tokens = solidTokens name fs rest
    /\ Forall2 (denotes ParseFloat32) fs ps
    /\ name1 = (if String.eqb name0 "" then name else name0)
    /\ sc = Scan (mkScanner rest "endsolid").
Proof.
  unfold readAscii. intros H.
  destruct (expect "solid" (NewScanner tokens)) as [[u s1]| |] eqn:E1;
    try discriminate.
  apply expect_inv in E1; [|discriminate]. destruct E1 as [P1 _].
  cbn [NewScanner pending] in P1.
  destruct (readFacets ParseFloat32 (S (List.length tokens)) []
              (Scan (Scan s1))) as [[qs s4]| |] eqn:E2; try discriminate.
  destruct (String.eqb (text s4) "endsolid") eqn:E3; cbn [negb] in H;
    try discriminate.
  apply String.eqb_eq in E3. inversion H; subst ps name1 sc. clear H.
  apply readFacets_inv in E2; [|rewrite E3; discriminate].
  destruct E2 as (fs & new & Hps & Hall & Htok & _).
  cbn [app] in Hps. subst new.
  assert (Hs3 : text (Scan (Scan s1)) <> ""%string).
  { destruct fs; cbn [flat_map app] in Htok.
    - inversion Htok. congruence.
    - rewrite facetTokens_head in Htok. cbn [app] in Htok.
      inversion Htok. congruence. }
  pose proof (Scan_text_inv (Scan s1) Hs3) as P3.
  assert (P2 : pending s1 = text (Scan s1) :: pending (Scan s1)).
  { clear - P3. revert P3. generalize (text (Scan (Scan s1))).
    generalize (pending (Scan (Scan s1))). unfold Scan.
    destruct (pending s1) as [|t r]; cbn [pending text]; intros l0 t0 P3.
    - discriminate P3.
    - reflexivity. }
  exists (text (Scan s1)), fs, (pending s4).
  split; [|split; [exact Hall | split; [reflexivity|]]].
  - unfold solidTokens. cbn [app].
    rewrite P1, P2, P3, Htok, E3. reflexivity.
  - destruct s4 as [pd tx]. cbn [text pending] in *. subst tx. reflexivity.
Qed.

(** *** The decoder always ends *)

Lemma total_ret {A} (a : A) : total (ret a).
Proof. intros s. discriminate. Qed.

Lemma total_bind {A B} (m : parser A) (k : A -> parser B) :
  total m -> (forall a, total (k a)) -> total (bind m k).
Proof.
  intros Hm Hk s. unfold bind. specialize (Hm s).
  destruct (m s) as [[a s1]| |]; [apply Hk | discriminate | congruence].
Qed.

Lemma total_expect (e : string) : total (expect e).
Proof.
  intros s. unfold expect.
  destruct (negb (String.eqb (text (Scan s)) e)); discriminate.
Qed.

Lemma total_readFloat : total (readFloat ParseFloat32).
Proof.
  intros s. unfold readFloat.
  destruct (ParseFloat32 (text (Scan s))); discriminate.
Qed.

Lemma total_readPoint : total (readPoint ParseFloat32).
Proof.
  unfold readPoint.
  repeat (apply total_bind; [apply total_readFloat | intros ?]).
  apply total_ret.
Qed.

Lemma total_readFacet : total (readFacet ParseFloat32).
Proof.
  unfold readFacet.
  repeat (apply total_bind;
          [first [apply total_expect | apply total_readPoint] | intros ?]).
  apply total_ret.
Qed.

Lemma readFacets_total (fuel : nat) :
  forall acc s,
    (List.length (pending s) < fuel)%nat ->
    readFacets ParseFloat32 fuel acc s <> OutOfFuel.
Proof.
  induction fuel as [|fuel IH]; intros acc s Hlen; [lia|].
  cbn [readFacets].
  destruct (String.eqb (text s) "facet"); [|discriminate].
  unfold bind. pose proof (total_readFacet s) as Ht.
  destruct (readFacet ParseFloat32 s) as [[p s1]| |] eqn:E;
    [| discriminate | congruence].
  apply IH. apply readFacet_inv in E. destruct E as (f & Pf & _ & _).
  pose proof (Scan_pending_length s1) as Hs.
  pose proof (facetTokens_length f) as Hf.
  rewrite facetTokens_head in Hf. cbn [List.length] in Hf.
  rewrite Pf, length_app in Hlen. lia.
Qed.

Lemma readAscii_total (tokens : list string) (name0 : string) :
  readAscii ParseFloat32 tokens name0 <> OutOfFuel.
Proof.
  unfold readAscii.
  pose proof (total_expect "solid" (NewScanner tokens)) as Ht.
  destruct (expect "solid" (NewScanner tokens)) as [[u s1]| |] eqn:E1;
    [| discriminate | congruence].
  apply expect_inv in E1; [|discriminate]. destruct E1 as [P1 _].
  cbn [NewScanner pending] in P1.
  pose proof (readFacets_total (S (List.length tokens)) [] (Scan (Scan s1)))
    as Hf.
  destruct (readFacets ParseFloat32 (S (List.length tokens)) []
              (Scan (Scan s1))) as [[qs s4]| |];
    [| discriminate |].
  - destruct (negb (String.eqb (text s4) "endsolid")); discriminate.
  - exfalso. apply Hf; [|reflexivity].
    pose proof (Scan_pending_length (Scan s1)).
    pose proof (Scan_pending_length s1).
    rewrite P1. cbn [List.length]. lia.
Qed.

(** *** What a fatal message names *)

Lemma within_Scan tokens s : within tokens s -> within tokens (Scan s).
Proof.
  intros [Hp _]. unfold within, Scan.
  destruct (pending s) as [|t r]; cbn [pending text].
  - split; [intros ? [] | right; reflexivity].
  - split.
    + intros a Ha. apply Hp. right. exact Ha.
    + left. apply Hp. left. reflexivity.
Qed.

Lemma sound_ret {A} tokens (a : A) : sound ParseFloat32 tokens (ret a).
Proof. intros s H. exact H. Qed.

Lemma sound_bind {A B} tokens (m : parser A) (k : A -> parser B) :
  sound ParseFloat32 tokens m -> (forall a, sound ParseFloat32 tokens (k a)) -> sound ParseFloat32 tokens (bind m k).
Proof.
  intros Hm Hk s Hs. unfold bind. specialize (Hm s Hs).
  destruct (m s) as [[a s1]| |]; [apply Hk; exact Hm | exact Hm | exact I].
Qed.

Lemma sound_expect tokens (e : string) : sound ParseFloat32 tokens (expect e).
Proof.
  intros s Hs. unfold expect. apply within_Scan in Hs.
  destruct (String.eqb (text (Scan s)) e) eqn:E; cbn [negb].
  - exact Hs.
  - apply String.eqb_neq in E. split; [exact E | apply Hs].
Qed.

Lemma sound_readFloat tokens : sound ParseFloat32 tokens (readFloat ParseFloat32).
Proof.
  intros s Hs. unfold readFloat. apply within_Scan in Hs.
  destruct (ParseFloat32 (text (Scan s))) eqn:E.
  - exact Hs.
  - split; [exact E | apply Hs].
Qed.

Lemma sound_readPoint tokens : sound ParseFloat32 tokens (readPoint ParseFloat32).
Proof.
  unfold readPoint.
  repeat (apply sound_bind; [apply sound_readFloat | intros ?]).
  apply sound_ret.
Qed.

Lemma sound_readFacet tokens : sound ParseFloat32 tokens (readFacet ParseFloat32).
Proof.
  unfold readFacet.
  repeat (apply sound_bind;
          [first [apply sound_expect | apply sound_readPoint] | intros ?]).
  apply sound_ret.
Qed.

Lemma sound_readFacets tokens (fuel : nat) :
  forall acc, sound ParseFloat32 tokens (readFacets ParseFloat32 fuel acc).
Proof.
  induction fuel as [|fuel IH]; intros acc s Hs; cbn [readFacets];
    destruct (String.eqb (text s) "facet"); try exact I; try exact Hs.
  unfold bind. pose proof (sound_readFacet tokens s Hs) as Hf.
  destruct (readFacet ParseFloat32 s) as [[p s1]| |]; [| exact Hf | exact I].
  apply IH. apply within_Scan. exact Hf.
Qed.

Lemma readAscii_fatal (tokens : list string) (name0 : string) (f : fatal) :
  readAscii ParseFloat32 tokens name0 = Fatal f -> names ParseFloat32 tokens f.
Proof.
  unfold readAscii. intros H.
  assert (H0 : within tokens (NewScanner tokens)).
  { split; [apply incl_refl | right; reflexivity]. }
  pose proof (sound_expect tokens "solid" _ H0) as H1.
  destruct (expect "solid" (NewScanner tokens)) as [[u s1]| |];
    [| inversion H; subst; exact H1 | discriminate].
  apply within_Scan, within_Scan in H1.
  pose proof (sound_readFacets tokens (S (List.length tokens)) [] _ H1) as H2.
  destruct (readFacets ParseFloat32 (S (List.length tokens)) []
              (Scan (Scan s1))) as [[qs s4]| |];
    [| inversion H; subst; exact H2 | discriminate].
  destruct (String.eqb (text s4) "endsolid") eqn:E; cbn [negb] in H;
    [discriminate|].
  inversion H; subst. apply String.eqb_neq in E.
  split; [exact E | apply H2].
Qed.

(** *** Completeness *)

Lemma readFacet_ok (f : facetText) (p : polygon) (more : list string)
      (t0 : string) :
  denotes ParseFloat32 f p ->
  readFacet ParseFloat32 (mkScanner (tl (facetTokens f) ++ more) t0) =
  Ok (p, mkScanner more "endfacet").
Proof.
  unfold denotes, facetValue.
  destruct f as [[[n1 n2] n3] [[a1 a2] a3] [[b1 b2] b3] [[c1 c2] c3]].
  cbn [nrm vA vB vC tripleValue].
  destruct (ParseFloat32 n1) eqn:N1, (ParseFloat32 n2) eqn:N2,
           (ParseFloat32 n3) eqn:N3; try discriminate.
  destruct (ParseFloat32 a1) eqn:A1, (ParseFloat32 a2) eqn:A2,
           (ParseFloat32 a3) eqn:A3; try discriminate.
  destruct (ParseFloat32 b1) eqn:B1, (ParseFloat32 b2) eqn:B2,
           (ParseFloat32 b3) eqn:B3; try discriminate.
  destruct (ParseFloat32 c1) eqn:C1, (ParseFloat32 c2) eqn:C2,
           (ParseFloat32 c3) eqn:C3; try discriminate.
  intros H. inversion H; subst p. clear H.
  unfold readFacet, readPoint, readFloat, expect, bind, ret, Scan.
  cbn [facetTokens nrm vA vB vC tripleTokens tl app pending text
       String.eqb Ascii.eqb Bool.eqb negb].
  repeat (match goal with
          | E : ParseFloat32 ?t = Some _ |- context [ParseFloat32 ?t] =>
            rewrite E
          end;
          cbn [pending text String.eqb Ascii.eqb Bool.eqb negb]).
  reflexivity.
Qed.

Lemma readFacets_ok (fs : list facetText) (ps : polygons) :
  Forall2 (denotes ParseFloat32) fs ps ->
  forall fuel acc t more,
    (List.length fs <= fuel)%nat ->
    t <> "facet"%string ->
    readFacets ParseFloat32 fuel acc
      (scannerAt (flat_map facetTokens fs ++ t :: more)) =
    Ok (acc ++ ps, scannerAt (t :: more)).
Proof.
  induction 1 as [|f p fs ps Hf Hall IH]; intros fuel acc t more Hfuel Ht.
  - cbn [flat_map app]. rewrite app_nil_r.
    apply readFacets_stop. exact Ht.
  - cbn [List.length] in Hfuel. destruct fuel as [|fuel]; [lia|].
    cbn [flat_map]. rewrite <- app_assoc.
    cbn [readFacets]. rewrite facetTokens_head.
    cbn [app scannerAt hd tl text].
    cbn [String.eqb Ascii.eqb Bool.eqb].
    unfold bind. unfold scannerAt at 1. cbn [hd tl].
    rewrite (readFacet_ok f p _ _ Hf).
    specialize (IH fuel (acc ++ [p]) t more ltac:(lia) Ht).
    rewrite <- app_assoc in IH. cbn [app] in IH.
    destruct (flat_map facetTokens fs ++ t :: more) as [|x l] eqn:E.
    + destruct (flat_map facetTokens fs); discriminate E.
    + rewrite Scan_cons. exact IH.
Qed.

Lemma flat_map_facetTokens_length (fs : list facetText) :
  List.length (flat_map facetTokens fs) = (21 * List.length fs)%nat.
Proof.
  induction fs as [|f fs IH]; [reflexivity|].
  cbn [flat_map]. rewrite length_app, facetTokens_length, IH.
  cbn [List.length]. lia.
Qed.

(** Completeness of the decoder: on a token sequence of the grammar whose
    numbers parse it answers the facets the sequence denotes, in order. *)
Lemma readAscii_ok (name : string) (fs : list facetText) (rest : list string)
      (ps : polygons) (name0 : string) :
  Forall2 (denotes ParseFloat32) fs ps ->
  readAscii ParseFloat32 (solidTokens name fs rest) name0 =
  Ok (ps, (if String.eqb name0 "" then name else name0),
      Scan (mkScanner rest "endsolid")).
Proof.
  intros Hall. unfold readAscii.
  unfold solidTokens at 1. unfold expect, NewScanner.
  cbn [app Scan pending text String.eqb Ascii.eqb Bool.eqb negb].
  assert (Hscan : Scan (mkScanner (flat_map facetTokens fs
                                     ++ "endsolid"%string :: rest) name)
                  = scannerAt (flat_map facetTokens fs
                                 ++ "endsolid"%string :: rest)).
  { destruct (flat_map facetTokens fs ++ "endsolid"%string :: rest) eqn:E.
    - destruct (flat_map facetTokens fs); discriminate E.
    - reflexivity. }
  rewrite Hscan.
  rewrite (readFacets_ok fs ps Hall); [| | discriminate].
  - cbn [app scannerAt hd tl text String.eqb Ascii.eqb Bool.eqb negb].
    reflexivity.
  - unfold solidTokens. cbn [app List.length].
    rewrite length_app, flat_map_facetTokens_length. lia.
Qed.

End Grammar.

(** ** Facet count and order *)

Lemma denotes_threeVertices (ParseFloat32 : string -> option F32.t)
      (fs : list facetText) (ps : polygons) :
  Forall2 (denotes ParseFloat32) fs ps -> Forall threeVertices ps.
Proof.
  induction 1 as [|f p fs ps Hf _ IH]; constructor; [|exact IH].
  unfold denotes, facetValue in Hf.
  destruct (tripleValue ParseFloat32 (nrm f)), (tripleValue ParseFloat32 (vA f)),
    (tripleValue ParseFloat32 (vB f)), (tripleValue ParseFloat32 (vC f));
    try discriminate.
  inversion Hf; subst. reflexivity.
Qed.

Lemma readBinary_shape (r : reader) :
  Forall threeVertices (fst (readBinary r)).
Proof.
  unfold readBinary.
  destruct (readUint32 (Discard r 80)) as [[n|] r1];
    apply readTriangles_shape; constructor.
Qed.

(** C3: a token sequence of the grammar with N facet blocks whose numbers
    parse decodes to exactly the N facets it denotes, in order, and a binary
    stream with count N and N records decodes to exactly the facets of the
    N records, in order; every facet either decoder answers has exactly
    three vertices. *)
Theorem decoders_facet_count
        (ParseFloat32 : string -> option F32.t)
        (name : string) (fs : list facetText) (trailing : list string)
        (ps : polygons) (name0 : string)
        (header : list Byte.byte) (c0 c1 c2 c3 : Byte.byte)
        (recs : list (list Byte.byte)) (rest : list Byte.byte) (err : ioError) :
  Forall2 (denotes ParseFloat32) fs ps ->
  List.length header = 80%nat ->
  Forall isRecord recs ->
  le32 c0 c1 c2 c3 = Z.of_nat (List.length recs) ->
  (exists name1 sc,
      readAscii ParseFloat32 (solidTokens name fs trailing) name0
      = Ok (ps, name1, sc)
      /\ List.length ps = List.length fs
      /\ Forall threeVertices ps)
  /\ (let qs := fst (readBinary
                       (mkReader (header ++ [c0; c1; c2; c3]
                                         ++ List.concat recs ++ rest) err)) in
      qs = map recordFacet recs
      /\ List.length qs = List.length recs
      /\ Forall threeVertices qs)
  /\ (forall tokens n0 qs n1 sc,
         readAscii ParseFloat32 tokens n0 = Ok (qs, n1, sc) ->
         Forall threeVertices qs)
  /\ (forall r, Forall threeVertices (fst (readBinary r))).
Proof.
  intros Hall Hh Hrecs Hn. split; [|split; [|split]].
  - eexists _, _. split; [apply readAscii_ok; exact Hall|]. split.
    + symmetry. eapply Forall2_length. exact Hall.
    + eapply denotes_threeVertices. exact Hall.
  - cbv zeta.
    rewrite (readBinary_records header c0 c1 c2 c3 recs rest err Hh Hrecs Hn).
    cbn [fst]. split; [reflexivity|]. split.
    + apply length_map.
    + apply Forall_forall. intros q Hq. apply in_map_iff in Hq.
      destruct Hq as (rec & Hq & _). subst q. reflexivity.
  - intros tokens n0 qs n1 sc H.
    apply readAscii_inv in H. destruct H as (nm & gs & rs & _ & H & _).
    eapply denotes_threeVertices. exact H.
  - apply readBinary_shape.
Qed.

Lemma sampleFacet_denoted : denotes parseDecimal32 sampleFacetText sampleFacet.
Proof. vm_compute. reflexivity. Qed.

Lemma decoders_facet_count_witness :
  Forall2 (denotes parseDecimal32) [sampleFacetText] [sampleFacet]
  /\ List.length sampleHeader = 80%nat
  /\ Forall isRecord [sampleRecord]
  /\ le32 Byte.x01 Byte.x00 Byte.x00 Byte.x00 = Z.of_nat (List.length [sampleRecord])
  /\ (exists name1 sc,
         readAscii parseDecimal32
           (solidTokens "cube" [sampleFacetText] ["cube"%string]) ""
         = Ok ([sampleFacet], name1, sc)
         /\ List.length [sampleFacet] = List.length [sampleFacetText]
         /\ Forall threeVertices [sampleFacet]).
Proof.
  assert (H0 : Forall2 (denotes parseDecimal32) [sampleFacetText] [sampleFacet])
    by (constructor; [exact sampleFacet_denoted | constructor]).
  assert (H1 : List.length sampleHeader = 80%nat) by reflexivity.
  assert (H2 : Forall isRecord [sampleRecord])
    by (constructor; [reflexivity | constructor]).
  assert (H3 : le32 Byte.x01 Byte.x00 Byte.x00 Byte.x00
               = Z.of_nat (List.length [sampleRecord])) by reflexivity.
  split; [exact H0|]. split; [exact H1|]. split; [exact H2|].
  split; [exact H3|].
  exact (proj1 (decoders_facet_count parseDecimal32 "cube" [sampleFacetText]
                  ["cube"%string] [sampleFacet] "" sampleHeader
                  Byte.x01 Byte.x00 Byte.x00 Byte.x00 [sampleRecord]
                  [Byte.xff] EOF H0 H1 H2 H3)).
Defined.

(** ** Malformed ASCII input *)

Lemma main_ascii (ParseFloat32 : string -> option F32.t)
      (flag : string) (center : bool) (input : reader) :
  asciiPrefix input = true ->
  main ParseFloat32 flag center input =
  match readAscii ParseFloat32 (scanWords (avail input)) (init flag) with
  | Ok (ps, name, _) =>
    let name' := if String.eqb name "" then "shape"%string else name in
    Ok (mkRun ps name' (writeOpenScad name' (postProcess center ps)))
  | Fatal f => Fatal f
  | OutOfFuel => OutOfFuel
  end.
Proof.
  unfold asciiPrefix, main. intros H.
  destruct (Peek input 6) as [buf e]. cbn [fst] in H. rewrite H.
  destruct (readAscii ParseFloat32 (scanWords (avail input)) (init flag))
    as [[[ps name] sc]| |]; reflexivity.
Qed.

Lemma main_binary (ParseFloat32 : string -> option F32.t)
      (flag : string) (center : bool) (input : reader) :
  asciiPrefix input = false ->
  main ParseFloat32 flag center input =
  let ps := fst (readBinary input) in
  let name' := if String.eqb (init flag) "" then "shape"%string else init flag in
  Ok (mkRun ps name' (writeOpenScad name' (postProcess center ps))).
Proof.
  unfold asciiPrefix, main. intros H.
  destruct (Peek input 6) as [buf e]. cbn [fst] in H. rewrite H.
  reflexivity.
Qed.

(** C9: when the tokens of an ASCII input are not a sequence of the
    grammar, the decoder ends in a fatal error whose message names a token
    of the input that differs from the expected one, or that is no number
    (the empty text at the end of input counts as a token); the run of
    [main] ends in that error and writes nothing. *)
Theorem malformed_ascii_fatal
        (ParseFloat32 : string -> option F32.t) (tokens : list string)
        (name0 : string) :
  ~ conforms ParseFloat32 tokens ->
  exists f,
    readAscii ParseFloat32 tokens name0 = Fatal f
    /\ names ParseFloat32 tokens f
    /\ forall flag center input,
         asciiPrefix input = true ->
         scanWords (avail input) = tokens ->
         init flag = name0 ->
         main ParseFloat32 flag center input = Fatal f.
Proof.
  intros Hdev.
  destruct (readAscii ParseFloat32 tokens name0) as [[[ps n1] sc]|f|] eqn:E.
  - exfalso. apply Hdev. apply readAscii_inv in E.
    destruct E as (nm & fs & rs & Ht & Hall & _).
    exists nm, fs, rs, ps. split; assumption.
  - exists f. split; [reflexivity|]. split.
    + eapply readAscii_fatal. exact E.
    + intros flag center input Hp Ht Hn.
      rewrite main_ascii by assumption. rewrite Ht, Hn, E. reflexivity.
  - exfalso. eapply readAscii_total. exact E.
Qed.

Lemma sampleMalformed_deviates :
  ~ conforms parseDecimal32 (scanWords sampleMalformed).
Proof.
  intros (name & fs & rest & ps & Ht & Hall).
  pose proof (readAscii_ok parseDecimal32 name fs rest ps "" Hall) as H.
  rewrite <- Ht in H. vm_compute in H. discriminate H.
Defined.

Lemma malformed_ascii_fatal_witness :
  ~ conforms parseDecimal32 (scanWords sampleMalformed)
  /\ exists f,
       readAscii parseDecimal32 (scanWords sampleMalformed) "" = Fatal f
       /\ names parseDecimal32 (scanWords sampleMalformed) f
       /\ forall flag center input,
            asciiPrefix input = true ->
            scanWords (avail input) = scanWords sampleMalformed ->
            init flag = ""%string ->
            main parseDecimal32 flag center input = Fatal f.
Proof.
  split; [exact sampleMalformed_deviates|].
  exact (malformed_ascii_fatal parseDecimal32 (scanWords sampleMalformed) ""
           sampleMalformed_deviates).
Defined.

Example malformed_message :
  main parseDecimal32 "" true (mkReader sampleMalformed EOF)
  = Fatal (ExpectedButGot "loop" "wrong").
Proof. vm_compute. reflexivity. Qed.

(** ** Trailing input *)

Lemma isAsciiSpace_small (sp : Byte.byte) :
  isAsciiSpace sp = true -> (Byte.to_N sp <= 32)%N.
Proof.
  unfold isAsciiSpace, byte_is. intros H.
  repeat (apply orb_true_iff in H; destruct H as [H|H]);
    apply N.eqb_eq in H; rewrite H; discriminate.
Qed.

Lemma byte_is_not_space (sp : Byte.byte) (n : N) :
  isAsciiSpace sp = true -> (32 < n)%N -> byte_is sp n = false.
Proof.
  intros H Hn. apply isAsciiSpace_small in H.
  unfold byte_is. apply N.eqb_neq. lia.
Qed.

(** White space at the head of a text does not depend on a one-byte space
    and what follows it, and lies within the text. *)
Lemma spaceWidth_append (b : Byte.byte) (r : list Byte.byte)
      (sp : Byte.byte) (t : list Byte.byte) :
  isAsciiSpace sp = true ->
  spaceWidth ((b :: r) ++ sp :: t) = spaceWidth (b :: r)
  /\ (spaceWidth (b :: r) <= List.length (b :: r))%nat.
Proof.
  intros Hsp.
  pose proof (byte_is_not_space sp 133 Hsp eq_refl) as S133.
  pose proof (byte_is_not_space sp 160 Hsp eq_refl) as S160.
  pose proof (byte_is_not_space sp 154 Hsp eq_refl) as S154.
  pose proof (byte_is_not_space sp 128 Hsp eq_refl) as S128.
  pose proof (byte_is_not_space sp 129 Hsp eq_refl) as S129.
  pose proof (byte_is_not_space sp 159 Hsp eq_refl) as S159.
  pose proof (byte_is_not_space sp 168 Hsp eq_refl) as S168.
  pose proof (byte_is_not_space sp 169 Hsp eq_refl) as S169.
  pose proof (byte_is_not_space sp 175 Hsp eq_refl) as S175.
  assert (Sge : N.leb 128 (Byte.to_N sp) = false).
  { apply isAsciiSpace_small in Hsp. apply N.leb_gt. lia. }
  unfold spaceWidth.
  destruct (byte_is b 32 || byte_is b 9 || byte_is b 10 || byte_is b 11
            || byte_is b 12 || byte_is b 13) eqn:E1.
  { cbn [app List.length]. rewrite E1. split; [reflexivity | lia]. }
  destruct r as [|b1 r].
  - cbn [app List.length]. rewrite E1, S133, S160.
    cbn [orb]. rewrite andb_false_r.
    destruct t as [|b2 t]; [split; [reflexivity | lia]|].
    rewrite S154, S128, S129. cbn [andb]. rewrite !andb_false_r.
    split; [reflexivity | lia].
  - destruct r as [|b2 r].
    + cbn [app List.length]. rewrite E1.
      destruct (byte_is b 194 && (byte_is b1 133 || byte_is b1 160));
        [split; [reflexivity | lia]|].
      rewrite S128, Sge, S168, S169, S175, S159.
      cbn [andb orb]. rewrite !andb_false_r.
      split; [reflexivity | lia].
    + cbn [app List.length]. rewrite E1.
      destruct (byte_is b 194 && (byte_is b1 133 || byte_is b1 160));
        [split; [reflexivity | lia]|].
      repeat match goal with
             | |- context [if ?c then _ else _] => destruct c
             end; split; try reflexivity; lia.
Qed.

Lemma scanWordsFrom_append (bs : list Byte.byte) (sp : Byte.byte)
      (t : list Byte.byte) :
  isAsciiSpace sp = true ->
  forall skip cur,
    (skip <= List.length bs)%nat ->
    scanWordsFrom (bs ++ sp :: t) skip cur
    = scanWordsFrom bs skip cur ++ scanWords t.
Proof.
  intros Hsp. induction bs as [|b r IH]; intros skip cur Hskip.
  - cbn [List.length] in Hskip. assert (skip = 0%nat) by lia. subst skip.
    cbn [app scanWordsFrom].
    assert (E : spaceWidth (sp :: t) = 1%nat).
    { unfold spaceWidth. unfold isAsciiSpace in Hsp. rewrite Hsp. reflexivity. }
    rewrite E. reflexivity.
  - destruct skip as [|k].
    + destruct (spaceWidth_append b r sp t Hsp) as [E L].
      change ((b :: r) ++ sp :: t) with (b :: (r ++ sp :: t)) in *.
      cbn [scanWordsFrom]. rewrite E.
      destruct (spaceWidth (b :: r)) as [|k] eqn:W.
      * apply IH. lia.
      * rewrite IH by (cbn [List.length] in L; lia).
        rewrite app_assoc. reflexivity.
    + cbn [app scanWordsFrom]. apply IH. cbn [List.length] in Hskip. lia.
Qed.

Lemma asciiPrefix_append (input : reader) (extra : list Byte.byte) :
  asciiPrefix input = true ->
  asciiPrefix (mkReader (avail input ++ extra) (failure input)) = true.
Proof.
  unfold asciiPrefix. cbn [Peek fst avail]. intros H.
  enough (E : firstn 6 (avail input ++ extra) = firstn 6 (avail input))
    by (rewrite E; exact H).
  apply String.eqb_eq in H.
  assert (Hl : String.length (string_of_list_byte (firstn 6 (avail input)))
               = 6%nat) by (rewrite H; reflexivity).
  clear H.
  destruct (avail input) as [|b0 [|b1 [|b2 [|b3 [|b4 [|b5 l]]]]]];
    try discriminate Hl.
  reflexivity.
Qed.

(** C10: once the ASCII decoder has answered, what follows in the input
    changes nothing: with tokens added after the input the decoder answers
    the same facets and module name, and the run of [main] on an input
    continued by white space and any bytes is the run on the input. *)
Theorem trailing_tokens_ignored
        (ParseFloat32 : string -> option F32.t) (tokens extra : list string)
        (name0 : string) (ps : polygons) (name1 : string) (sc : scanner) :
  readAscii ParseFloat32 tokens name0 = Ok (ps, name1, sc) ->
  (exists sc', readAscii ParseFloat32 (tokens ++ extra) name0
               = Ok (ps, name1, sc'))
  /\ (forall flag center input input',
         asciiPrefix input = true -> asciiPrefix input' = true ->
         init flag = name0 ->
         scanWords (avail input) = tokens ->
         scanWords (avail input') = tokens ++ extra ->
         main ParseFloat32 flag center input'
         = main ParseFloat32 flag center input)
  /\ (forall flag center input sp trailing,
         asciiPrefix input = true ->
         init flag = name0 ->
         scanWords (avail input) = tokens ->
         isAsciiSpace sp = true ->
         main ParseFloat32 flag center
              (mkReader (avail input ++ sp :: trailing) (failure input))
         = main ParseFloat32 flag center input).
Proof.
  intros H.
  assert (H' : forall more, exists sc',
               readAscii ParseFloat32 (tokens ++ more) name0
               = Ok (ps, name1, sc')).
  { intros more. apply readAscii_inv in H.
    destruct H as (nm & fs & rs & Ht & Hall & Hn & _). subst tokens name1.
    exists (Scan (mkScanner (rs ++ more) "endsolid")).
    replace (solidTokens nm fs rs ++ more) with (solidTokens nm fs (rs ++ more)).
    - apply readAscii_ok. exact Hall.
    - unfold solidTokens. rewrite <- !app_assoc. reflexivity. }
  split; [apply H'|]. split.
  - intros flag center input input' Hp Hp' Hn Ht Ht'.
    destruct (H' extra) as [sc' E'].
    rewrite !main_ascii by assumption.
    rewrite Ht, Ht', Hn, H, E'. reflexivity.
  - intros flag center input sp trailing Hp Hn Ht Hsp.
    destruct (H' (scanWords trailing)) as [sc' E'].
    rewrite main_ascii by (apply asciiPrefix_append; exact Hp).
    rewrite main_ascii by exact Hp.
    cbn [avail]. unfold scanWords at 1.
    rewrite scanWordsFrom_append by (try exact Hsp; lia).
    fold (scanWords (avail input)).
    rewrite Ht, Hn, H, E'. reflexivity.
Qed.

Lemma trailing_tokens_ignored_witness :
  readAscii parseDecimal32 (scanWords sampleAscii) ""
  = Ok ([sampleFacet], "cube"%string, mkScanner [] "cube")
  /\ exists sc',
       readAscii parseDecimal32
         (scanWords sampleAscii ++ ["facet"; "junk"]%string) ""
       = Ok ([sampleFacet], "cube"%string, sc').
Proof.
  assert (H : readAscii parseDecimal32 (scanWords sampleAscii) ""
              = Ok ([sampleFacet], "cube"%string, mkScanner [] "cube"))
    by (vm_compute; reflexivity).
  split; [exact H|].
  exact (proj1 (trailing_tokens_ignored parseDecimal32 (scanWords sampleAscii)
                  ["facet"; "junk"]%string "" [sampleFacet] "cube"
                  (mkScanner [] "cube") H)).
Defined.

(** ** Module name *)

Lemma string_of_list_byte_nonempty (l : list Byte.byte) :
  l <> [] -> string_of_list_byte l <> ""%string.
Proof.
  destruct l as [|b l]; [congruence | discriminate].
Qed.

Lemma flushWord_nonempty (cur : list Byte.byte) :
  Forall (fun t => t <> ""%string) (flushWord cur).
Proof.
  destruct cur as [|b cur]; cbn [flushWord]; constructor; [|constructor].
  apply string_of_list_byte_nonempty.
  cbn [rev]. intros E. apply app_eq_nil in E. destruct E as [_ E].
  discriminate E.
Qed.

Lemma scanWordsFrom_nonempty (bs : list Byte.byte) :
  forall skip cur, Forall (fun t => t <> ""%string) (scanWordsFrom bs skip cur).
Proof.
  induction bs as [|b bs IH]; intros skip cur; cbn [scanWordsFrom].
  - apply flushWord_nonempty.
  - destruct skip as [|k]; [|apply IH].
    destruct (spaceWidth (b :: bs)) as [|k]; [apply IH|].
    apply Forall_app. split; [apply flushWord_nonempty | apply IH].
Qed.

(** C6: in a finished run the module name is the [-module] flag when that
    is not empty; otherwise, for an ASCII input, the name the file declares
    after [solid]; otherwise, for a binary input, "shape". *)
Theorem module_name_precedence
        (ParseFloat32 : string -> option F32.t)
        (flag : string) (center : bool) (input : reader) (r : run) :
  main ParseFloat32 flag center input = Ok r ->
  (flag <> ""%string -> moduleName r = flag)
  /\ (flag = ""%string -> asciiPrefix input = true ->
      moduleName r = declaredName input /\ declaredName input <> ""%string)
  /\ (flag = ""%string -> asciiPrefix input = false ->
      moduleName r = "shape"%string).
Proof.
  intros H. destruct (asciiPrefix input) eqn:Ea.
  - rewrite main_ascii in H by assumption.
    destruct (readAscii ParseFloat32 (scanWords (avail input)) (init flag))
      as [[[ps n1] sc]| |] eqn:E; try discriminate.
    cbv zeta in H. inversion H; subst r. clear H. cbn [moduleName].
    apply readAscii_inv in E. destruct E as (nm & fs & rs & Ht & _ & Hn & _).
    assert (Hnm : nm <> ""%string).
    { pose proof (scanWordsFrom_nonempty (avail input) 0 []) as Hall.
      fold (scanWords (avail input)) in Hall. rewrite Ht in Hall.
      unfold solidTokens in Hall. cbn [app] in Hall.
      inversion Hall as [|? ? _ Hall']; subst.
      inversion Hall'; subst. assumption. }
    assert (Hd : declaredName input = nm).
    { unfold declaredName. rewrite Ht. reflexivity. }
    unfold init in Hn. subst n1.
    split; [|split].
    + intros Hf. apply String.eqb_neq in Hf. rewrite Hf.
      rewrite Hf. reflexivity.
    + intros Hf _. subst flag. cbn [String.eqb].
      apply String.eqb_neq in Hnm. rewrite Hnm. apply String.eqb_neq in Hnm.
      rewrite Hd. split; [reflexivity | assumption].
    + intros _ Hc. discriminate Hc.
  - rewrite main_binary in H by assumption. cbv zeta in H.
    inversion H; subst r. clear H. cbn [moduleName]. unfold init.
    split; [|split].
    + intros Hf. apply String.eqb_neq in Hf. rewrite Hf. reflexivity.
    + intros _ Hc. discriminate Hc.
    + intros Hf _. subst flag. reflexivity.
Qed.

Lemma module_name_precedence_witness :
  let r := mkRun [sampleFacet] "cube"
                 (writeOpenScad "cube" (postProcess true [sampleFacet])) in
  main parseDecimal32 "" true (mkReader sampleAscii EOF) = Ok r
  /\ moduleName r = declaredName (mkReader sampleAscii EOF).
Proof.
  cbv zeta.
  assert (H : main parseDecimal32 "" true (mkReader sampleAscii EOF)
              = Ok (mkRun [sampleFacet] "cube"
                      (writeOpenScad "cube" (postProcess true [sampleFacet]))))
    by (vm_compute; reflexivity).
  split; [exact H|].
  exact (proj1 (proj1 (proj2 (module_name_precedence parseDecimal32 "" true
                                (mkReader sampleAscii EOF) _ H))
                      eq_refl eq_refl)).
Defined.

(** ** Format detection *)

(** C7, as stated, fails where it says that an input which cannot be
    peeked ends the run: the error of [Peek] is dropped, and a stream that
    answers a read error at once is decoded as an empty binary file. *)
Lemma unreadable_input_not_fatal :
  let input := mkReader [] ReadError in
  snd (Peek input 6) = Some ReadError
  /\ exists r, main parseDecimal32 "" true input = Ok r
               /\ decoded r = [] /\ moduleName r = "shape"%string.
Proof.
  cbv zeta. split; [reflexivity|].
  eexists. split; [vm_compute; reflexivity|]. split; reflexivity.
Qed.

(** C7 (amended): the detector looks at the first six bytes and consumes
    none: when they are the bytes of "solid " the run is that of the ASCII
    decoder on the tokens of the whole input, otherwise it is that of the
    binary decoder on the whole input; the detection itself never ends the
    run, whatever [Peek] reports: an input that is short or cannot be read
    goes to the binary decoder, and that run always finishes. *)
Theorem format_detection
        (ParseFloat32 : string -> option F32.t)
        (flag : string) (center : bool) (input : reader) :
  (Peek input 6 = (firstn 6 (avail input), snd (Peek input 6)))
  /\ (string_of_list_byte (firstn 6 (avail input)) = "solid "%string ->
      main ParseFloat32 flag center input =
      match readAscii ParseFloat32 (scanWords (avail input)) (init flag) with
      | Ok (ps, name, _) =>
        let name' := if String.eqb name "" then "shape"%string else name in
        Ok (mkRun ps name' (writeOpenScad name' (postProcess center ps)))
      | Fatal f => Fatal f
      | OutOfFuel => OutOfFuel
      end)
  /\ (string_of_list_byte (firstn 6 (avail input)) <> "solid "%string ->
      exists r, main ParseFloat32 flag center input = Ok r
                /\ decoded r = fst (readBinary input))
  /\ (snd (Peek input 6) <> None ->
      exists r, main ParseFloat32 flag center input = Ok r
                /\ decoded r = fst (readBinary input)).
Proof.
  split; [reflexivity|]. split; [|split].
  - intros H. apply main_ascii. unfold asciiPrefix. cbn [Peek fst].
    rewrite H. reflexivity.
  - intros H. rewrite main_binary.
    + eexists. split; reflexivity.
    + unfold asciiPrefix. cbn [Peek fst]. apply String.eqb_neq. exact H.
  - intros H. rewrite main_binary.
    + eexists. split; reflexivity.
    + unfold asciiPrefix. cbn [Peek fst snd] in *.
      apply String.eqb_neq. intros E.
      destruct (List.length (avail input) <? 6)%nat eqn:L; [|congruence].
      apply Nat.ltb_lt in L.
      assert (Hl : String.length (string_of_list_byte (firstn 6 (avail input)))
                   = 6%nat) by (rewrite E; reflexivity).
      clear E H.
      destruct (avail input) as [|b0 [|b1 [|b2 [|b3 [|b4 [|b5 l]]]]]];
        cbn in Hl, L; try discriminate Hl. lia.
Qed.

Lemma format_detection_witness :
  string_of_list_byte (firstn 6 (avail (mkReader sampleAscii EOF)))
  = "solid "%string
  /\ string_of_list_byte (firstn 6 (avail (mkReader sampleHeader EOF)))
     <> "solid "%string
  /\ (exists r, main parseDecimal32 "" true (mkReader sampleHeader EOF) = Ok r
                /\ decoded r = fst (readBinary (mkReader sampleHeader EOF))).
Proof.
  assert (H1 : string_of_list_byte (firstn 6 (avail (mkReader sampleAscii EOF)))
               = "solid "%string) by reflexivity.
  assert (H2 : string_of_list_byte (firstn 6 (avail (mkReader sampleHeader EOF)))
               <> "solid "%string) by discriminate.
  split; [exact H1|]. split; [exact H2|].
  exact (proj1 (proj2 (proj2 (format_detection parseDecimal32 "" true
                                (mkReader sampleHeader EOF))))
               H2).
Defined.

(** * Centering *)

(** ** The order of finite binary32 values

    On canonical finite values the comparison is that of an integer key:
    the exponent, then the mantissa, signed. *)

Lemma canonical_bounds (m : positive) (e : Z) :
  F32.canonical m e = true ->
  Zpos m < 16777216 /\ -149 <= e <= 104 /\ (e = -149 \/ 8388608 <= Zpos m).
Proof.
  unfold F32.canonical. intros H.
  apply andb_true_iff in H. destruct H as [H H4].
  apply andb_true_iff in H. destruct H as [H H3].
  apply andb_true_iff in H. destruct H as [H1 H2].
  apply Z.ltb_lt in H1. apply Z.leb_le in H2, H3.
  apply orb_true_iff in H4.
  repeat split; try assumption.
  destruct H4 as [H4|H4]; [left; apply Z.eqb_eq | right; apply Z.leb_le];
    assumption.
Qed.

Lemma finite_S754_finite (s : bool) (m : positive) (e : Z) :
  F32.finite (S754_finite s m e) = F32.canonical m e.
Proof. reflexivity. Qed.

Lemma compare_cont_Eq (p q : positive) :
  Pos.compare_cont Eq p q = (Zpos p ?= Zpos q).
Proof. reflexivity. Qed.

Lemma ltb_key (a b : F32.t) :
  F32.finite a = true -> F32.finite b = true ->
  F32.ltb a b = (key a <? key b).
Proof.
  unfold F32.ltb, SFltb.
  destruct a as [sa|sa| |sa ma ea], b as [sb|sb| |sb mb eb];
    cbn [F32.finite]; try discriminate; intros Ha Hb.
  - reflexivity.
  - apply canonical_bounds in Hb.
    cbn [SFcompare key]. destruct sb; cbn [cond_Zopp];
      symmetry; [apply Z.ltb_ge | apply Z.ltb_lt]; lia.
  - apply canonical_bounds in Ha.
    cbn [SFcompare key]. destruct sa; cbn [cond_Zopp];
      symmetry; [apply Z.ltb_lt | apply Z.ltb_ge]; lia.
  - apply canonical_bounds in Ha, Hb.
    cbn [SFcompare key]. rewrite compare_cont_Eq.
    destruct sa, sb; cbn [cond_Zopp];
      destruct (Z.compare_spec ea eb) as [E|E|E];
      try destruct (Z.compare_spec (Zpos ma) (Zpos mb)) as [F|F|F];
      cbn [CompOpp]; symmetry;
      first [apply Z.ltb_lt; lia | apply Z.ltb_ge; lia].
Qed.

Lemma eqb_key (a b : F32.t) :
  F32.finite a = true -> F32.finite b = true ->
  F32.eqb a b = (key a =? key b).
Proof.
  unfold F32.eqb, SFeqb.
  destruct a as [sa|sa| |sa ma ea], b as [sb|sb| |sb mb eb];
    cbn [F32.finite]; try discriminate; intros Ha Hb.
  - reflexivity.
  - apply canonical_bounds in Hb.
    cbn [SFcompare key]. destruct sb; cbn [cond_Zopp];
      symmetry; apply Z.eqb_neq; lia.
  - apply canonical_bounds in Ha.
    cbn [SFcompare key]. destruct sa; cbn [cond_Zopp];
      symmetry; apply Z.eqb_neq; lia.
  - apply canonical_bounds in Ha, Hb.
    cbn [SFcompare key]. rewrite compare_cont_Eq.
    destruct sa, sb; cbn [cond_Zopp];
      destruct (Z.compare_spec ea eb) as [E|E|E];
      try destruct (Z.compare_spec (Zpos ma) (Zpos mb)) as [F|F|F];
      cbn [CompOpp]; symmetry;
      first [apply Z.eqb_eq; lia | apply Z.eqb_neq; lia].
Qed.

Lemma key_zero (a : F32.t) :
  F32.finite a = true -> key a = 0 -> exists s, a = S754_zero s.
Proof.
  destruct a as [s|s| |s m e]; cbn [F32.finite]; try discriminate.
  - intros _ _. exists s. reflexivity.
  - intros H K. apply canonical_bounds in H. cbn [key] in K.
    destruct s; cbn [cond_Zopp] in K; lia.
Qed.

Lemma key_inj (a b : F32.t) :
  F32.finite a = true -> F32.finite b = true ->
  key a = key b -> key a <> 0 -> a = b.
Proof.
  destruct a as [sa|sa| |sa ma ea], b as [sb|sb| |sb mb eb];
    cbn [F32.finite]; try discriminate; intros Ha Hb K K0.
  - cbn [key] in K0. congruence.
  - cbn [key] in K0. congruence.
  - cbn [key] in K, K0. congruence.
  - apply canonical_bounds in Ha, Hb. cbn [key] in K.
    destruct sa, sb; cbn [cond_Zopp] in K;
      try (exfalso; lia);
      assert (ea = eb) by lia; assert (Zpos ma = Zpos mb) by lia; congruence.
Qed.

(** ** The way through binary64

    Widening a canonical binary32 value to binary64 moves its mantissa to
    53 bits; narrowing it back restores it; and the comparison of the
    widened values is that of the values. *)

Lemma digits2_pos_bounds (m : positive) :
  2 ^ (Zpos (digits2_pos m) - 1) <= Zpos m < 2 ^ Zpos (digits2_pos m).
Proof.
  induction m as [m IH|m IH|]; cbn [digits2_pos].
  - rewrite Pos2Z.inj_succ.
    replace (Z.succ (Zpos (digits2_pos m)) - 1) with (Zpos (digits2_pos m)) by lia.
    rewrite Z.pow_succ_r by lia.
    replace (Zpos (digits2_pos m)) with (Z.succ (Zpos (digits2_pos m) - 1)) at 1
      by lia.
    rewrite Z.pow_succ_r by lia. lia.
  - rewrite Pos2Z.inj_succ.
    replace (Z.succ (Zpos (digits2_pos m)) - 1) with (Zpos (digits2_pos m)) by lia.
    rewrite Z.pow_succ_r by lia.
    replace (Zpos (digits2_pos m)) with (Z.succ (Zpos (digits2_pos m) - 1)) at 1
      by lia.
    rewrite Z.pow_succ_r by lia. lia.
  - cbn. lia.
Qed.

Lemma digits2_pos_le (m : positive) (n : Z) :
  0 <= n -> Zpos m < 2 ^ n -> Zpos (digits2_pos m) <= n.
Proof.
  intros Hn H. destruct (digits2_pos_bounds m) as [L _].
  destruct (Z_le_gt_dec (Zpos (digits2_pos m)) n) as [G|G]; [exact G|].
  exfalso.
  assert (2 ^ n <= 2 ^ (Zpos (digits2_pos m) - 1))
    by (apply Z.pow_le_mono_r; lia).
  lia.
Qed.

Lemma digits2_pos_gt (m : positive) (n : Z) :
  0 <= n -> 2 ^ n <= Zpos m -> n < Zpos (digits2_pos m).
Proof.
  intros Hn H. destruct (digits2_pos_bounds m) as [_ U].
  destruct (Z_lt_le_dec n (Zpos (digits2_pos m))) as [G|G]; [exact G|].
  exfalso.
  assert (2 ^ Zpos (digits2_pos m) <= 2 ^ n)
    by (apply Z.pow_le_mono_r; lia).
  lia.
Qed.

Lemma digits2_pos_shift (m k : positive) :
  digits2_pos (Pos.iter xO m k) = (digits2_pos m + k)%positive.
Proof.
  induction k as [|k IH] using Pos.peano_ind.
  - cbn [Pos.iter digits2_pos]. lia.
  - rewrite Pos.iter_succ. cbn [digits2_pos]. rewrite IH. lia.
Qed.

(** The digits of a canonical binary32 mantissa. *)
Lemma canonical_digits (m : positive) (e : Z) :
  F32.canonical m e = true ->
  Zpos (digits2_pos m) <= 24
  /\ -149 <= e <= 104
  /\ ((e = -149 /\ Zpos (digits2_pos m) <= 24)
      \/ Zpos (digits2_pos m) = 24).
Proof.
  intros H. apply canonical_bounds in H. destruct H as (U & E & N).
  assert (D : Zpos (digits2_pos m) <= 24)
    by (apply digits2_pos_le; [lia | exact U]).
  split; [exact D|]. split; [exact E|].
  destruct N as [N|N]; [left; split; assumption|].
  right. assert (23 < Zpos (digits2_pos m))
    by (apply digits2_pos_gt; [lia | exact N]).
  lia.
Qed.

Lemma iter_pos_Pos_iter {A} (f : A -> A) (p : positive) :
  forall a, iter_pos f p a = Pos.iter f a p.
Proof.
  induction p as [p IH|p IH|]; intros a; cbn [iter_pos Pos.iter].
  - rewrite !IH. rewrite <- !Pos.iter_swap. reflexivity.
  - rewrite !IH. reflexivity.
  - reflexivity.
Qed.

(** Shifting right what was shifted left loses nothing. *)
Lemma shr_shifted (m k : positive) :
  iter_pos shr_1 k (Build_shr_record (Zpos (Pos.iter xO m k)) false false)
  = Build_shr_record (Zpos m) false false.
Proof.
  rewrite iter_pos_Pos_iter.
  induction k as [|k IH] using Pos.peano_ind.
  - reflexivity.
  - rewrite Pos.iter_succ. rewrite Pos.iter_succ.
    rewrite <- Pos.iter_swap. cbn [shr_1 orb]. exact IH.
Qed.

Lemma binary_normalize_round (prec emax : Z) (s : bool) (m : positive) (e : Z) :
  binary_normalize prec emax (cond_Zopp s (Zpos m)) e s
  = binary_round prec emax s m e.
Proof. destruct s; reflexivity. Qed.

(** A mantissa already in place is not rounded. *)
Lemma binary_round_aux_exact (prec emax : Z) (s : bool) (m : positive) (e : Z) :
  fexp prec emax (Zpos (digits2_pos m) + e) = e ->
  e <= emax - prec ->
  binary_round_aux prec emax s (Zpos m) e loc_Exact = S754_finite s m e.
Proof.
  intros Hf He. unfold binary_round_aux, shr_fexp.
  cbn [Zdigits2 shr_record_of_loc]. rewrite Hf, Z.sub_diag.
  cbn [shr shr_m loc_of_shr_record round_nearest_even Zdigits2
       shr_record_of_loc].
  rewrite Hf, Z.sub_diag. cbn [shr shr_m].
  apply Z.leb_le in He. rewrite He. reflexivity.
Qed.

Lemma fexp32_canonical (m : positive) (e : Z) :
  F32.canonical m e = true ->
  fexp F32.prec F32.emax (Zpos (digits2_pos m) + e) = e.
Proof.
  intros H. apply canonical_digits in H. destruct H as (D & E & N).
  unfold fexp, emin, F32.prec, F32.emax. lia.
Qed.

Lemma toFloat64_finite (s : bool) (m : positive) (e : Z) :
  F32.canonical m e = true ->
  F32.toFloat64 (S754_finite s m e)
  = S754_finite s (Pos.iter xO m (widening m)) (e - Zpos (widening m)).
Proof.
  intros H. apply canonical_digits in H. destruct H as (D & E & _).
  unfold F32.toFloat64. rewrite binary_normalize_round.
  unfold binary_round, widening.
  assert (Hk : Zpos (Z.to_pos (53 - Zpos (digits2_pos m)))
               = 53 - Zpos (digits2_pos m)) by (apply Z2Pos.id; lia).
  assert (Hf : fexp 53 1024 (Zpos (digits2_pos m) + e)
               = e - Zpos (Z.to_pos (53 - Zpos (digits2_pos m)))).
  { rewrite Hk. unfold fexp, emin. lia. }
  rewrite Hf. unfold shl_align.
  replace (e - Zpos (Z.to_pos (53 - Zpos (digits2_pos m))) - e)
    with (Zneg (Z.to_pos (53 - Zpos (digits2_pos m)))) by lia.
  apply binary_round_aux_exact.
  - rewrite digits2_pos_shift, Pos2Z.inj_add, Hk. unfold fexp, emin. lia.
  - rewrite Hk. lia.
Qed.

Lemma ofFloat64_shifted (s : bool) (m k : positive) (e : Z) :
  F32.canonical m e = true ->
  F32.ofFloat64 (S754_finite s (Pos.iter xO m k) (e - Zpos k))
  = S754_finite s m e.
Proof.
  intros H. pose proof (fexp32_canonical m e H) as Hf.
  apply canonical_digits in H. destruct H as (D & E & _).
  unfold F32.ofFloat64. rewrite binary_normalize_round.
  unfold binary_round.
  assert (Hd : Zpos (digits2_pos (Pos.iter xO m k)) + (e - Zpos k)
               = Zpos (digits2_pos m) + e)
    by (rewrite digits2_pos_shift, Pos2Z.inj_add; lia).
  rewrite Hd, Hf. unfold shl_align.
  replace (e - (e - Zpos k)) with (Zpos k) by lia.
  unfold binary_round_aux, shr_fexp.
  cbn [Zdigits2 shr_record_of_loc]. rewrite Hd, Hf.
  replace (e - (e - Zpos k)) with (Zpos k) by lia.
  cbn [shr]. rewrite shr_shifted.
  cbn [shr_m loc_of_shr_record round_nearest_even Zdigits2 shr_record_of_loc].
  replace (e - Zpos k + Zpos k) with e by lia.
  rewrite Hf, Z.sub_diag. cbn [shr shr_m].
  assert (He : (e <=? F32.emax - F32.prec) = true)
    by (apply Z.leb_le; unfold F32.emax, F32.prec; lia).
  rewrite He. reflexivity.
Qed.

Lemma Zpos_iter_xO (m k : positive) :
  Zpos (Pos.iter xO m k) = Zpos m * 2 ^ Zpos k.
Proof.
  change (Pos.iter xO m k) with (shift_pos k m).
  rewrite shift_pos_correct. change (Z.pow_pos 2 k) with (2 ^ Zpos k). lia.
Qed.

Lemma compare_lex (e1 : Z) (m1 : positive) (e2 : Z) (m2 : positive) :
  match
    match e1 ?= e2 with
    | Lt => Lt
    | Gt => Gt
    | Eq => Pos.compare_cont Eq m1 m2
    end
  with
  | Lt => lexLt e1 m1 e2 m2
  | Gt => lexLt e2 m2 e1 m1
  | Eq => e1 = e2 /\ m1 = m2
  end.
Proof.
  rewrite compare_cont_Eq. unfold lexLt.
  destruct (Z.compare_spec e1 e2) as [E|E|E];
    [destruct (Z.compare_spec (Zpos m1) (Zpos m2)) as [F|F|F] | |];
    try (injection F as F); auto; lia.
Qed.

Lemma lex_compare (e1 : Z) (m1 : positive) (e2 : Z) (m2 : positive) :
  (lexLt e1 m1 e2 m2 ->
   match e1 ?= e2 with
   | Lt => Lt
   | Gt => Gt
   | Eq => Pos.compare_cont Eq m1 m2
   end = Lt)
  /\ (lexLt e2 m2 e1 m1 ->
      match e1 ?= e2 with
      | Lt => Lt
      | Gt => Gt
      | Eq => Pos.compare_cont Eq m1 m2
      end = Gt)
  /\ (e1 = e2 /\ m1 = m2 ->
      match e1 ?= e2 with
      | Lt => Lt
      | Gt => Gt
      | Eq => Pos.compare_cont Eq m1 m2
      end = Eq).
Proof.
  rewrite compare_cont_Eq. unfold lexLt.
  destruct (Z.compare_spec e1 e2) as [E|E|E];
    [destruct (Z.compare_spec (Zpos m1) (Zpos m2)) as [F|F|F] | |];
    repeat split; intros H; try reflexivity; exfalso;
    try (destruct H as [H1 H2]; subst; lia); lia.
Qed.

(** Widening keeps the order of canonical mantissas and exponents. *)
Lemma widen_lexLt (m1 : positive) (e1 : Z) (m2 : positive) (e2 : Z) :
  F32.canonical m1 e1 = true -> F32.canonical m2 e2 = true ->
  lexLt e1 m1 e2 m2 ->
  lexLt (e1 - Zpos (widening m1)) (Pos.iter xO m1 (widening m1))
        (e2 - Zpos (widening m2)) (Pos.iter xO m2 (widening m2)).
Proof.
  intros H1 H2 L.
  apply canonical_digits in H1, H2.
  destruct H1 as (D1 & E1 & N1). destruct H2 as (D2 & E2 & N2).
  unfold widening.
  assert (K1 : Zpos (Z.to_pos (53 - Zpos (digits2_pos m1)))
               = 53 - Zpos (digits2_pos m1)) by (apply Z2Pos.id; lia).
  assert (K2 : Zpos (Z.to_pos (53 - Zpos (digits2_pos m2)))
               = 53 - Zpos (digits2_pos m2)) by (apply Z2Pos.id; lia).
  unfold lexLt in *. rewrite !Zpos_iter_xO, K1, K2.
  destruct L as [L|[Le Lm]].
  - left. lia.
  - assert (Dle : Zpos (digits2_pos m1) <= Zpos (digits2_pos m2)).
    { apply digits2_pos_le; [lia|].
      pose proof (digits2_pos_bounds m2). lia. }
    destruct (Z.eq_dec (Zpos (digits2_pos m1)) (Zpos (digits2_pos m2))) as [De|Dn].
    + right. split; [lia|]. rewrite De.
      apply Z.mul_lt_mono_pos_r; [apply Z.pow_pos_nonneg; lia | exact Lm].
    + left. lia.
Qed.

Lemma SFcompare_widen_finite (s1 : bool) (m1 : positive) (e1 : Z)
      (s2 : bool) (m2 : positive) (e2 : Z) :
  F32.canonical m1 e1 = true -> F32.canonical m2 e2 = true ->
  SFcompare (S754_finite s1 (Pos.iter xO m1 (widening m1)) (e1 - Zpos (widening m1)))
            (S754_finite s2 (Pos.iter xO m2 (widening m2)) (e2 - Zpos (widening m2)))
  = SFcompare (S754_finite s1 m1 e1) (S754_finite s2 m2 e2).
Proof.
  intros H1 H2.
  assert (C : match e1 - Zpos (widening m1) ?= e2 - Zpos (widening m2) with
              | Lt => Lt
              | Gt => Gt
              | Eq => Pos.compare_cont Eq (Pos.iter xO m1 (widening m1))
                                       (Pos.iter xO m2 (widening m2))
              end
              = match e1 ?= e2 with
                | Lt => Lt
                | Gt => Gt
                | Eq => Pos.compare_cont Eq m1 m2
                end).
  { pose proof (compare_lex e1 m1 e2 m2) as O.
    destruct (lex_compare (e1 - Zpos (widening m1)) (Pos.iter xO m1 (widening m1))
                          (e2 - Zpos (widening m2)) (Pos.iter xO m2 (widening m2)))
      as (WL & WG & WE).
    destruct (match e1 ?= e2 with
              | Lt => Lt
              | Gt => Gt
              | Eq => Pos.compare_cont Eq m1 m2
              end).
    - destruct O as [Oe Om]. subst e2 m2. apply WE. split; reflexivity.
    - apply WL. apply widen_lexLt; assumption.
    - apply WG. apply widen_lexLt; assumption. }
  cbn [SFcompare]. revert C.
  destruct (e1 - Zpos (widening m1) ?= e2 - Zpos (widening m2)),
           (e1 ?= e2); intros C; try discriminate C;
    destruct s1, s2; try reflexivity;
    first [rewrite C; reflexivity | rewrite <- C; reflexivity].
Qed.

Lemma toFloat64_zero (s : bool) : F32.toFloat64 (S754_zero s) = S754_zero s.
Proof. reflexivity. Qed.

(** The comparison of widened values is that of the values. *)
Lemma SFcompare_widen (a b : F32.t) :
  F32.finite a = true -> F32.finite b = true ->
  SFcompare (F32.toFloat64 a) (F32.toFloat64 b) = SFcompare a b.
Proof.
  intros Ha Hb.
  destruct a as [sa|sa| |sa ma ea];
    [ | discriminate Ha | discriminate Ha | rewrite finite_S754_finite in Ha];
    (destruct b as [sb|sb| |sb mb eb];
     [ | discriminate Hb | discriminate Hb | rewrite finite_S754_finite in Hb]).
  - reflexivity.
  - rewrite (toFloat64_finite sb mb eb Hb). reflexivity.
  - rewrite (toFloat64_finite sa ma ea Ha). reflexivity.
  - rewrite (toFloat64_finite sa ma ea Ha), (toFloat64_finite sb mb eb Hb).
    apply SFcompare_widen_finite; assumption.
Qed.

Lemma ofFloat64_toFloat64 (a : F32.t) :
  F32.finite a = true -> F32.ofFloat64 (F32.toFloat64 a) = a.
Proof.
  intros Ha.
  destruct a as [sa|sa| |sa ma ea];
    [ | discriminate Ha | discriminate Ha | rewrite finite_S754_finite in Ha].
  - reflexivity.
  - rewrite (toFloat64_finite sa ma ea Ha). apply ofFloat64_shifted. exact Ha.
Qed.

Lemma toFloat64_class (a : F32.t) :
  F32.finite a = true ->
  F32.is_inf (F32.toFloat64 a) true = false
  /\ F32.is_nan (F32.toFloat64 a) = false
  /\ F32.signbit (F32.toFloat64 a) = F32.signbit a.
Proof.
  intros Ha.
  destruct a as [sa|sa| |sa ma ea];
    [ | discriminate Ha | discriminate Ha | rewrite finite_S754_finite in Ha].
  - repeat split.
  - rewrite (toFloat64_finite sa ma ea Ha). repeat split.
Qed.

(** On finite values [F32.Min] is the minimum taken in binary32. *)
Lemma Min_min32 (a b : F32.t) :
  F32.finite a = true -> F32.finite b = true -> F32.Min a b = min32 a b.
Proof.
  intros Ha Hb. unfold F32.Min, F32.mathMin, min32.
  destruct (toFloat64_class a Ha) as (Ia & Na & Sa).
  destruct (toFloat64_class b Hb) as (Ib & Nb & _).
  rewrite Ia, Ib, Na, Nb, Sa. cbn [orb].
  destruct a as [sa|sa| |sa ma ea] eqn:Ea; try discriminate Ha;
    destruct b as [sb|sb| |sb mb eb] eqn:Eb; try discriminate Hb;
    cbn [F32.is_inf F32.is_nan orb];
    rewrite <- Ea in *; rewrite <- Eb in *;
    unfold F32.eqb, F32.ltb, SFeqb, SFltb;
    change F32.pos_zero with (F32.toFloat64 F32.pos_zero) at 1;
    rewrite (SFcompare_widen a F32.pos_zero Ha eq_refl),
      (SFcompare_widen a b Ha Hb);
    repeat match goal with
           | |- context [if ?c then _ else _] => destruct c
           end;
    apply ofFloat64_toFloat64; assumption.
Qed.

Lemma finite_not_special (a : F32.t) :
  F32.finite a = true ->
  F32.is_inf a true = false /\ F32.is_inf a false = false
  /\ F32.is_nan a = false.
Proof.
  destruct a; cbn [F32.finite]; try discriminate; intros _;
    repeat split; reflexivity.
Qed.

Lemma Min_finite (a b : F32.t) :
  F32.finite a = true -> F32.finite b = true ->
  (F32.Min a b = a \/ F32.Min a b = b)
  /\ key (F32.Min a b) = Z.min (key a) (key b).
Proof.
  intros Ha Hb. rewrite (Min_min32 a b Ha Hb). unfold min32.
  destruct (finite_not_special a Ha) as (Ia & _ & Na).
  destruct (finite_not_special b Hb) as (Ib & _ & Nb).
  rewrite Ia, Ib, Na, Nb. cbn [orb].
  rewrite (eqb_key a F32.pos_zero Ha eq_refl), (eqb_key a b Ha Hb),
    (ltb_key a b Ha Hb).
  change (key F32.pos_zero) with 0.
  destruct (Z.eqb_spec (key a) 0) as [E0|E0];
    destruct (Z.eqb_spec (key a) (key b)) as [E1|E1]; cbn [andb].
  - destruct (F32.signbit a); split; auto; lia.
  - destruct (Z.ltb_spec (key a) (key b)); split; auto; lia.
  - destruct (Z.ltb_spec (key a) (key b)); split; auto; lia.
  - destruct (Z.ltb_spec (key a) (key b)); split; auto; lia.
Qed.

Lemma Min_finite_finite (a b : F32.t) :
  F32.finite a = true -> F32.finite b = true ->
  F32.finite (F32.Min a b) = true.
Proof.
  intros Ha Hb. destruct (Min_finite a b Ha Hb) as [[E|E] _]; rewrite E; auto.
Qed.

Lemma Min_below_l (a b : F32.t) :
  F32.finite a = true -> F32.finite b = true ->
  belowPosZero a -> belowPosZero (F32.Min a b).
Proof.
  intros Ha Hb [E|E].
  - subst a. unfold F32.neg_zero in *.
    destruct (Z.ltb_spec (key b) 0) as [L|L].
    + right. rewrite (proj2 (Min_finite _ _ Ha Hb)). cbn [key F32.neg_zero]. lia.
    + left. rewrite (Min_min32 _ b Ha Hb). unfold min32.
      destruct (finite_not_special b Hb) as (Ib & _ & Nb). rewrite Ib, Nb.
      cbn [F32.is_inf F32.is_nan F32.neg_zero orb].
      change (F32.eqb (S754_zero true) F32.pos_zero) with true.
      rewrite (eqb_key (S754_zero true) b eq_refl Hb),
        (ltb_key (S754_zero true) b eq_refl Hb).
      cbn [key andb F32.signbit].
      destruct (Z.eqb_spec 0 (key b)); [reflexivity|].
      destruct (Z.ltb_spec 0 (key b)); [reflexivity | lia].
  - right. rewrite (proj2 (Min_finite _ _ Ha Hb)). lia.
Qed.

Lemma Min_below_r (a b : F32.t) :
  F32.finite a = true -> F32.finite b = true ->
  belowPosZero b -> belowPosZero (F32.Min a b).
Proof.
  intros Ha Hb [E|E].
  - subst b. unfold F32.neg_zero in *.
    destruct (Z.ltb_spec (key a) 0) as [L|L].
    + right. rewrite (proj2 (Min_finite _ _ Ha Hb)). cbn [key F32.neg_zero]. lia.
    + left. rewrite (Min_min32 a _ Ha Hb). unfold min32.
      destruct (finite_not_special a Ha) as (Ia & _ & Na). rewrite Ia, Na.
      cbn [F32.is_inf F32.is_nan F32.neg_zero orb].
      rewrite (eqb_key a F32.pos_zero Ha eq_refl),
        (eqb_key a (S754_zero true) Ha eq_refl),
        (ltb_key a (S754_zero true) Ha eq_refl).
      cbn [key F32.pos_zero].
      destruct (Z.eqb_spec (key a) 0) as [E0|E0]; cbn [andb].
      * destruct (key_zero a Ha E0) as [s Es]. subst a. destruct s; reflexivity.
      * destruct (Z.ltb_spec (key a) 0); [lia | reflexivity].
  - right. rewrite (proj2 (Min_finite _ _ Ha Hb)). lia.
Qed.

(** The least of a list by [math.Min], from a first value. *)
Lemma fold_Min_spec (zs : list F32.t) :
  forall init,
    F32.finite init = true -> allFinite zs ->
    let m := fold_left F32.Min zs init in
    F32.finite m = true
    /\ (m = init \/ In m zs)
    /\ key m <= key init
    /\ (forall v, In v zs -> key m <= key v)
    /\ (belowPosZero init \/ In F32.neg_zero zs -> belowPosZero m).
Proof.
  induction zs as [|v zs IH]; intros init Hi Hall; cbn [fold_left].
  - cbv zeta. repeat split; auto; try lia.
    + intros ? [].
    + intros [H|[]]. exact H.
  - inversion Hall as [|? ? Hv Hzs]; subst.
    pose proof (Min_finite init v Hi Hv) as [Hsel Hkey].
    specialize (IH (F32.Min init v) (Min_finite_finite _ _ Hi Hv) Hzs).
    cbv zeta in IH |- *. destruct IH as (F & Sel & K0 & K & B).
    split; [exact F|]. split; [|split; [|split]].
    + destruct Sel as [Sel|Sel]; [|right; right; exact Sel].
      rewrite Sel. destruct Hsel as [E|E]; rewrite E; [left | right; left];
        reflexivity.
    + lia.
    + intros w [E|Hw]; [subst w; lia | apply K; exact Hw].
    + intros [Hb|[E|Hin]]; apply B.
      * left. apply Min_below_l; assumption.
      * left. apply Min_below_r; try assumption. left. exact E.
      * right. exact Hin.
Qed.

Lemma key_le_max (v : F32.t) :
  F32.finite v = true -> key v <= key F32.MaxFloat32.
Proof.
  assert (KM : key F32.MaxFloat32 = 4278190079) by reflexivity.
  rewrite KM.
  destruct v as [s|s| |s m e]; cbn [F32.finite key];
    [intros _; lia | discriminate | discriminate |].
  intros H. apply canonical_bounds in H.
  destruct s; cbn [cond_Zopp]; lia.
Qed.

(** ** The sign of a rounded sum *)

Lemma shr_1_nonneg (mrs : shr_record) :
  0 <= shr_m mrs -> 0 <= shr_m (shr_1 mrs).
Proof.
  destruct mrs as [m r s]. cbn [shr_m shr_1].
  destruct m as [|p|p]; [| |lia]; intros _.
  - cbn. lia.
  - destruct p; cbn; lia.
Qed.

Lemma iter_shr_1_nonneg (p : positive) :
  forall mrs, 0 <= shr_m mrs -> 0 <= shr_m (iter_pos shr_1 p mrs).
Proof.
  induction p as [p IH|p IH|]; intros mrs H; cbn [iter_pos].
  - apply IH, IH, shr_1_nonneg, H.
  - apply IH, IH, H.
  - apply shr_1_nonneg, H.
Qed.

Lemma shr_fexp_nonneg (prec emax m e : Z) (l : location) :
  0 <= m -> 0 <= shr_m (fst (shr_fexp prec emax m e l)).
Proof.
  intros H. unfold shr_fexp, shr.
  assert (H0 : 0 <= shr_m (shr_record_of_loc m l)).
  { destruct l as [|[| |]]; exact H. }
  destruct (fexp prec emax (Zdigits2 m + e) - e); cbn [fst];
    try exact H0.
  apply iter_shr_1_nonneg, H0.
Qed.

Lemma round_nearest_even_nonneg (m : Z) (l : location) :
  0 <= m -> 0 <= round_nearest_even m l.
Proof.
  intros H. unfold round_nearest_even.
  destruct l as [|[| |]]; try destruct (Z.even m); lia.
Qed.

Lemma binary_round_aux_nonneg (prec emax m e : Z) (l : location) :
  0 <= m -> nonneg (binary_round_aux prec emax false m e l) = true.
Proof.
  intros H. unfold binary_round_aux.
  pose proof (shr_fexp_nonneg prec emax m e l H) as H1.
  destruct (shr_fexp prec emax m e l) as [mrs1 e1]. cbn [fst] in H1.
  pose proof (shr_fexp_nonneg prec emax
                (round_nearest_even (shr_m mrs1) (loc_of_shr_record mrs1))
                e1 loc_Exact (round_nearest_even_nonneg _ _ H1)) as H2.
  destruct (shr_fexp prec emax
              (round_nearest_even (shr_m mrs1) (loc_of_shr_record mrs1))
              e1 loc_Exact) as [mrs2 e2].
  cbn [fst] in H2.
  destruct (shr_m mrs2) as [|p|p]; [reflexivity | | lia].
  destruct (e2 <=? emax - prec); reflexivity.
Qed.

Lemma binary_normalize_nonneg (prec emax n e : Z) :
  0 <= n -> nonneg (binary_normalize prec emax n e false) = true.
Proof.
  intros H. destruct n as [|p|p]; [reflexivity | | lia].
  cbn [binary_normalize]. unfold binary_round.
  destruct (shl_align p e
              (fexp prec emax (Z.pos (digits2_pos p) + e))) as [mz ez].
  apply binary_round_aux_nonneg. lia.
Qed.

Lemma shl_align_fst (m : positive) (e ez : Z) :
  ez <= e -> Zpos (fst (shl_align m e ez)) = Zpos m * 2 ^ (e - ez).
Proof.
  intros H. unfold shl_align.
  destruct (ez - e) as [|d|d] eqn:E; cbn [fst].
  - replace (e - ez) with 0 by lia. lia.
  - lia.
  - change (Pos.iter xO m d) with (shift_pos d m).
    rewrite shift_pos_correct.
    replace (e - ez) with (Zpos d) by lia.
    change (Z.pow_pos 2 d) with (2 ^ Zpos d). lia.
Qed.

(** The mantissa of a canonical value, moved to the lesser exponent of two,
    keeps the order of the keys. *)
Lemma aligned_le (ma mb : positive) (ea eb : Z) :
  F32.canonical ma ea = true -> F32.canonical mb eb = true ->
  (ea + 150) * 16777216 + Zpos ma <= (eb + 150) * 16777216 + Zpos mb ->
  Zpos (fst (shl_align ma ea (Z.min ea eb)))
  <= Zpos (fst (shl_align mb eb (Z.min ea eb))).
Proof.
  intros Ha Hb K. apply canonical_bounds in Ha, Hb.
  rewrite !shl_align_fst by lia.
  assert (ea <= eb) by lia.
  rewrite Z.min_l by lia. rewrite Z.sub_diag. 
  destruct (Z.eq_dec ea eb) as [E|E].
  - subst eb. rewrite Z.sub_diag. lia.
  - assert (P : 2 <= 2 ^ (eb - ea)).
    { change 2 with (2 ^ 1) at 1. apply Z.pow_le_mono_r; lia. }
    nia.
Qed.

Lemma add_finite_finite (sv : bool) (mv : positive) (ev : Z)
      (sm : bool) (mm : positive) (em : Z) :
  F32.add (S754_finite sv mv ev) (F32.neg (S754_finite sm mm em)) =
  binary_normalize F32.prec F32.emax
    (cond_Zopp sv (Zpos (fst (shl_align mv ev (Z.min ev em))))
     + cond_Zopp (negb sm) (Zpos (fst (shl_align mm em (Z.min ev em)))))
    (Z.min ev em) false.
Proof. reflexivity. Qed.

Lemma add_neg_finite_finite (sv : bool) (mv : positive) (ev : Z)
      (sm : bool) (mm : positive) (em : Z) :
  F32.canonical mv ev = true -> F32.canonical mm em = true ->
  key (S754_finite sm mm em) <= key (S754_finite sv mv ev) ->
  nonneg (F32.add (S754_finite sv mv ev) (F32.neg (S754_finite sm mm em))) = true
  /\ (key (S754_finite sv mv ev) = key (S754_finite sm mm em) ->
      F32.add (S754_finite sv mv ev) (F32.neg (S754_finite sm mm em))
      = F32.pos_zero).
Proof.
  intros Hv Hm K.
  rewrite add_finite_finite.
  pose proof (aligned_le mm mv em ev Hm Hv) as Lmv.
  pose proof (aligned_le mv mm ev em Hv Hm) as Lvm.
  rewrite (Z.min_comm em ev) in Lmv.
  apply canonical_bounds in Hv, Hm.
  cbn [key] in K |- *.
  revert Lmv Lvm.
  generalize (fst (shl_align mv ev (Z.min ev em))) as pv.
  generalize (fst (shl_align mm em (Z.min ev em))) as pm.
  generalize (Z.min ev em) as ez.
  intros ez pm pv Lmv Lvm.
  destruct sv, sm; cbn [cond_Zopp negb] in K |- *.
  - split.
    + apply binary_normalize_nonneg. lia.
    + intros E. replace (- Zpos pv + Zpos pm) with 0 by lia. reflexivity.
  - exfalso. lia.
  - split.
    + apply binary_normalize_nonneg. lia.
    + intros E. exfalso. lia.
  - split.
    + apply binary_normalize_nonneg. lia.
    + intros E. replace (Zpos pv + - Zpos pm) with 0 by lia. reflexivity.
Qed.

Lemma add_neg_zero_finite (sv sm : bool) (mm : positive) (em : Z) :
  F32.canonical mm em = true ->
  key (S754_finite sm mm em) <= key (S754_zero sv) ->
  nonneg (F32.add (S754_zero sv) (F32.neg (S754_finite sm mm em))) = true
  /\ (key (S754_zero sv) = key (S754_finite sm mm em) ->
      F32.add (S754_zero sv) (F32.neg (S754_finite sm mm em)) = F32.pos_zero).
Proof.
  intros Hm K. apply canonical_bounds in Hm. cbn [key] in K.
  destruct sm; cbn [cond_Zopp] in K; [|lia].
  split; [reflexivity|]. cbn [key cond_Zopp]. lia.
Qed.

Lemma add_neg_finite_zero (sv : bool) (mv : positive) (ev : Z) (sm : bool) :
  F32.canonical mv ev = true ->
  key (S754_zero sm) <= key (S754_finite sv mv ev) ->
  nonneg (F32.add (S754_finite sv mv ev) (F32.neg (S754_zero sm))) = true
  /\ (key (S754_finite sv mv ev) = key (S754_zero sm) ->
      F32.add (S754_finite sv mv ev) (F32.neg (S754_zero sm)) = F32.pos_zero).
Proof.
  intros Hv K. apply canonical_bounds in Hv. cbn [key] in K.
  destruct sv; cbn [cond_Zopp] in K; [lia|].
  split; [reflexivity|]. cbn [key cond_Zopp]. lia.
Qed.

Lemma add_neg_zero_zero (sv sm : bool) :
  (S754_zero sm = F32.pos_zero -> S754_zero sv <> F32.neg_zero) ->
  nonneg (F32.add (S754_zero sv) (F32.neg (S754_zero sm))) = true
  /\ F32.add (S754_zero sv) (F32.neg (S754_zero sm)) = F32.pos_zero.
Proof.
  intros Hz. destruct sv, sm; try (split; reflexivity).
  exfalso. apply Hz; reflexivity.
Qed.

(** A value minus one that is not greater is not negative, and is +0 when
    the two are equal. *)
Lemma add_neg_nonneg (v m : F32.t) :
  F32.finite v = true -> F32.finite m = true ->
  key m <= key v ->
  (m = F32.pos_zero -> v <> F32.neg_zero) ->
  nonneg (F32.add v (F32.neg m)) = true
  /\ (key v = key m -> F32.add v (F32.neg m) = F32.pos_zero).
Proof.
  intros Hv Hm K Hz.
  destruct v as [sv|sv| |sv mv ev];
    [ | discriminate Hv | discriminate Hv | rewrite finite_S754_finite in Hv];
    (destruct m as [sm|sm| |sm mm em];
     [ | discriminate Hm | discriminate Hm | rewrite finite_S754_finite in Hm]).
  - destruct (add_neg_zero_zero sv sm Hz) as [H1 H2]. split; auto.
  - apply add_neg_zero_finite; [exact Hm | exact K].
  - apply add_neg_finite_zero; [exact Hv | exact K].
  - apply add_neg_finite_finite; [exact Hv | exact Hm | exact K].
Qed.

(** Adding the negative zero changes no value. *)
Lemma add_neg_zero (v : F32.t) : F32.add v F32.neg_zero = v.
Proof.
  destruct v as [[|]|[|]| |s m e]; reflexivity.
Qed.

(** ** The least z after centering *)

Lemma toFloat64_nonneg (a : F32.t) :
  nonneg a = true -> nonneg (F32.toFloat64 a) = true.
Proof.
  destruct a as [[|]|[|]| |[|] m e]; try discriminate; intros _;
    try reflexivity.
  unfold F32.toFloat64. cbn [cond_Zopp].
  apply binary_normalize_nonneg. lia.
Qed.

Lemma ofFloat64_nonneg (a : spec_float) :
  nonneg a = true -> nonneg (F32.ofFloat64 a) = true.
Proof.
  destruct a as [[|]|[|]| |[|] m e]; try discriminate; intros _;
    try reflexivity.
  unfold F32.ofFloat64. cbn [cond_Zopp].
  apply binary_normalize_nonneg. lia.
Qed.

(** [math.Min] of two values that are not negative is one of them, and is
    +0 when one of them is. *)
Lemma mathMin_nonneg (a b : spec_float) :
  nonneg a = true -> nonneg b = true ->
  nonneg (F32.mathMin a b) = true
  /\ (a = F32.pos_zero \/ b = F32.pos_zero -> F32.mathMin a b = F32.pos_zero).
Proof.
  destruct a as [[|]|[|]| |[|] ma ea]; try discriminate;
    destruct b as [[|]|[|]| |[|] mb eb]; try discriminate; intros _ _;
    try (split; [reflexivity | intros [E|E]; try discriminate E; reflexivity]).
  unfold F32.mathMin. cbn [F32.is_inf F32.is_nan orb].
  change (SFeqb (S754_finite false ma ea) F32.pos_zero) with false.
  cbn [andb].
  destruct (SFltb (S754_finite false ma ea) (S754_finite false mb eb));
    (split; [reflexivity | intros [E|E]; discriminate E]).
Qed.

Lemma Min_nonneg_step (acc v : F32.t) :
  nonneg acc = true -> nonneg v = true ->
  nonneg (F32.Min acc v) = true
  /\ (acc = F32.pos_zero \/ v = F32.pos_zero -> F32.Min acc v = F32.pos_zero).
Proof.
  intros Ha Hv. unfold F32.Min.
  destruct (mathMin_nonneg _ _ (toFloat64_nonneg acc Ha) (toFloat64_nonneg v Hv))
    as [N Z0].
  split; [apply ofFloat64_nonneg; exact N|].
  intros H. rewrite Z0; [reflexivity|].
  destruct H as [E|E]; subst; [left | right]; reflexivity.
Qed.

Lemma fold_Min_nonneg (zs : list F32.t) :
  forall acc,
    nonneg acc = true -> Forall (fun v => nonneg v = true) zs ->
    nonneg (fold_left F32.Min zs acc) = true
    /\ (acc = F32.pos_zero \/ In F32.pos_zero zs ->
        fold_left F32.Min zs acc = F32.pos_zero).
Proof.
  induction zs as [|v zs IH]; intros acc Ha Hall; cbn [fold_left].
  - split; [exact Ha | intros [E|[]]; exact E].
  - inversion Hall as [|? ? Hv Hzs]; subst.
    destruct (Min_nonneg_step acc v Ha Hv) as [P Z0].
    destruct (IH (F32.Min acc v) P Hzs) as [P' Z'].
    split; [exact P'|].
    intros [E|[E|Hin]]; apply Z'.
    + left. apply Z0. left. exact E.
    + left. apply Z0. right. exact E.
    + right. exact Hin.
Qed.

(** The list fact behind the centering of z: subtract the least of finite
    values from each; no result is negative, one is +0, and the least of
    the results is +0. *)
Lemma shifted_least_zero (zs : list F32.t) :
  zs <> [] -> allFinite zs ->
  let m := fold_left F32.Min zs F32.MaxFloat32 in
  let zs' := map (fun c => F32.add c (F32.neg m)) zs in
  Forall (fun v => nonneg v = true) zs'
  /\ In F32.pos_zero zs'
  /\ fold_left F32.Min zs' F32.MaxFloat32 = F32.pos_zero.
Proof.
  intros Hne Hall. cbv zeta.
  pose proof (fold_Min_spec zs F32.MaxFloat32 eq_refl Hall) as S.
  cbv zeta in S. destruct S as (Fm & Sel & K0 & K & B).
  set (m := fold_left F32.Min zs F32.MaxFloat32) in *.
  assert (Hz : forall v, In v zs -> m = F32.pos_zero -> v <> F32.neg_zero).
  { intros v Hv Em Ev. subst v.
    destruct (B (or_intror Hv)) as [E|E].
    - rewrite Em in E. discriminate E.
    - rewrite Em in E. cbn in E. lia. }
  assert (Hnn : Forall (fun v => nonneg v = true)
                       (map (fun c => F32.add c (F32.neg m)) zs)).
  { apply Forall_forall. intros r Hr. apply in_map_iff in Hr.
    destruct Hr as (v & Er & Hv). subst r.
    pose proof (proj1 (Forall_forall _ _) Hall v Hv) as Fv. cbv beta in Fv.
    apply (add_neg_nonneg v m Fv Fm (K v Hv) (Hz v Hv)). }
  assert (Hzero : In F32.pos_zero (map (fun c => F32.add c (F32.neg m)) zs)).
  { assert (Hex : exists v, In v zs /\ key v = key m).
    { destruct Sel as [E|Hin].
      - destruct zs as [|v0 zs0]; [congruence|].
        exists v0. split; [left; reflexivity|].
        pose proof (K v0 (or_introl eq_refl)) as K1.
        inversion Hall as [|? ? Fv0 _]; subst.
        pose proof (key_le_max v0 Fv0) as K2. rewrite <- E in K2. lia.
      - exists m. split; [exact Hin | reflexivity]. }
    destruct Hex as (v & Hv & Ek).
    pose proof (proj1 (Forall_forall _ _) Hall v Hv) as Fv. cbv beta in Fv.
    apply in_map_iff. exists v. split; [|exact Hv].
    apply (add_neg_nonneg v m Fv Fm (K v Hv) (Hz v Hv)). exact Ek. }
  split; [exact Hnn|]. split; [exact Hzero|].
  apply (fold_Min_nonneg _ F32.MaxFloat32 eq_refl Hnn). right. exact Hzero.
Qed.

(** ** The bounding box as a fold over all vertices *)

Lemma fold_left_flat_map {A B C} (f : A -> C -> A) (g : B -> list C)
      (l : list B) :
  forall a, fold_left (fun acc b => fold_left f (g b) acc) l a
            = fold_left f (flat_map g l) a.
Proof.
  induction l as [|b l IH]; intros a; cbn [fold_left flat_map].
  - reflexivity.
  - rewrite fold_left_app. apply IH.
Qed.

Lemma bbStep_fold_z (vs : list point) :
  forall mn mx,
    z (fst (fold_left bbStep vs (mn, mx)))
    = fold_left F32.Min (map z vs) (z mn).
Proof.
  induction vs as [|v vs IH]; intros mn mx; cbn [fold_left map].
  - reflexivity.
  - unfold bbStep at 2. rewrite IH. reflexivity.
Qed.

Lemma boundingBox_min_z (ps : polygons) :
  z (fst (boundingBox ps))
  = fold_left F32.Min (map z (allVertices ps)) F32.MaxFloat32.
Proof.
  unfold boundingBox. rewrite fold_left_flat_map.
  fold (allVertices ps). rewrite bbStep_fold_z. reflexivity.
Qed.

Lemma postProcess_translate (ps : polygons) :
  postProcess true ps
  = map (translate (centerDelta (fst (boundingBox ps)) (snd (boundingBox ps)))) ps.
Proof.
  unfold postProcess. cbn [negb].
  destruct (boundingBox ps) as [mn mx]. reflexivity.
Qed.

Lemma allVertices_translate (delta : point) (ps : polygons) :
  allVertices (map (translate delta) ps)
  = map (fun v => point_add v delta) (allVertices ps).
Proof.
  unfold allVertices. induction ps as [|p ps IH]; cbn [map flat_map].
  - reflexivity.
  - rewrite IH, map_app. reflexivity.
Qed.

Lemma z_after_postProcess (ps : polygons) :
  map z (allVertices (postProcess true ps))
  = map (fun c => F32.add c (F32.neg (z (fst (boundingBox ps)))))
        (map z (allVertices ps)).
Proof.
  rewrite postProcess_translate, allVertices_translate, !map_map.
  reflexivity.
Qed.

Lemma zFinite_allFinite (ps : polygons) :
  zFinite ps -> allFinite (map z (allVertices ps)).
Proof.
  unfold zFinite, allFinite. intros H.
  induction H; cbn [map]; constructor; assumption.
Qed.

Lemma allVertices_nonempty (ps : polygons) :
  ps <> [] -> Forall threeVertices ps -> map z (allVertices ps) <> [].
Proof.
  destruct ps as [|p ps]; [congruence|]. intros _ H.
  inversion H as [|? ? Hp _]; subst. unfold threeVertices in Hp.
  unfold allVertices. cbn [flat_map].
  destruct (vertices p) as [|v vs]; [discriminate Hp|]. discriminate.
Qed.

(** After centering the least z is +0. *)
Lemma min_z_after_postProcess (ps : polygons) :
  ps <> [] -> Forall threeVertices ps -> zFinite ps ->
  z (fst (boundingBox (postProcess true ps))) = F32.pos_zero.
Proof.
  intros Hne H3 Hfin.
  rewrite boundingBox_min_z, z_after_postProcess, boundingBox_min_z.
  apply (shifted_least_zero (map z (allVertices ps))).
  - apply allVertices_nonempty; assumption.
  - apply zFinite_allFinite. exact Hfin.
Qed.

(** * Further properties of the code *)

(** ** Line wrapping: [combineStrings] *)

Lemma withSeparators_cons (s : string) (r : list string) (sep : string) :
  withSeparators (s :: r) sep
  = (match r with [] => s | _ :: _ => (s ++ sep)%string end)
      :: withSeparators r sep.
Proof. reflexivity. Qed.

Lemma combineStep_fold (count : Z) (sep : string) (l : list string) :
  forall (k : nat) st,
    fold_left (combineStep (k + List.length l) count sep)
              (combine (seq k (List.length l)) l) st
    = fold_left (lineStep count) (withSeparators l sep) st.
Proof.
  induction l as [|s r IH]; intros k st; [reflexivity|].
  rewrite withSeparators_cons.
  cbn [List.length seq combine fold_left].
  replace (k + S (List.length r))%nat with (S k + List.length r)%nat by lia.
  rewrite IH. f_equal.
  destruct st as [[lines cur] i]. unfold combineStep, lineStep.
  destruct r as [|s' r'].
  - cbn [List.length]. replace (k <? S k + 0 - 1)%nat with false; [reflexivity|].
    symmetry. apply Nat.ltb_ge. lia.
  - cbn [List.length].
    replace (k <? S k + S (List.length r') - 1)%nat with true; [reflexivity|].
    symmetry. apply Nat.ltb_lt. lia.
Qed.

Lemma combineStrings_lineStep (strs : list string) (count : Z) (sep : string) :
  combineStrings strs count sep
  = (let '(lines, curLine, _) :=
       fold_left (lineStep count) (withSeparators strs sep) ([], ""%string, 0) in
     lines ++ [curLine]).
Proof.
  unfold combineStrings.
  rewrite (combineStep_fold count sep strs 0%nat). reflexivity.
Qed.

Lemma append_empty_r (s : string) : (s ++ "")%string = s.
Proof. induction s as [|c s IH]; cbn; [reflexivity | rewrite IH; reflexivity]. Qed.

Lemma concat_empty_cons (s : string) (l : list string) :
  String.concat "" (s :: l) = (s ++ String.concat "" l)%string.
Proof.
  destruct l as [|t l]; cbn [String.concat].
  - rewrite append_empty_r. reflexivity.
  - reflexivity.
Qed.

Lemma concat_empty_app (l1 l2 : list string) :
  String.concat "" (l1 ++ l2)
  = (String.concat "" l1 ++ String.concat "" l2)%string.
Proof.
  induction l1 as [|s l1 IH]; [reflexivity|].
  rewrite <- app_comm_cons, !concat_empty_cons, IH, append_assoc. reflexivity.
Qed.

Lemma concat_withSeparators (strs : list string) (sep : string) :
  String.concat "" (withSeparators strs sep) = Join strs sep.
Proof.
  unfold Join.
  induction strs as [|s r IH]; [reflexivity|].
  rewrite withSeparators_cons, concat_empty_cons, IH.
  destruct r as [|s' r']; cbn [String.concat].
  - apply append_empty_r.
  - rewrite append_assoc. reflexivity.
Qed.

Lemma concat_separated (g : list string) (sep : string) :
  g <> [] ->
  String.concat "" (map (fun s => (s ++ sep)%string) g)
  = (Join g sep ++ sep)%string.
Proof.
  unfold Join.
  induction g as [|s r IH]; intros H; [congruence|].
  cbn [map]. rewrite concat_empty_cons.
  destruct r as [|s' r'].
  - cbn. rewrite append_empty_r. reflexivity.
  - rewrite IH by discriminate. cbn [String.concat].
    rewrite !append_assoc. reflexivity.
Qed.

Lemma withSeparators_app (g rest : list string) (sep : string) :
  rest <> [] ->
  withSeparators (g ++ rest) sep
  = map (fun s => (s ++ sep)%string) g ++ withSeparators rest sep.
Proof.
  intros H. induction g as [|s r IH]; [reflexivity|].
  rewrite <- app_comm_cons, withSeparators_cons, IH. cbn [map].
  destruct (r ++ rest) as [|t l] eqn:E; [|reflexivity].
  apply app_eq_nil in E. destruct E; congruence.
Qed.

Lemma length_withSeparators (l : list string) (sep : string) :
  List.length (withSeparators l sep) = List.length l.
Proof.
  induction l as [|s r IH]; [reflexivity|].
  rewrite withSeparators_cons. cbn [List.length]. rewrite IH. reflexivity.
Qed.

(** Entries that still fit the line are appended to it. *)
Lemma lineStep_fill (count : Z) (parts : list string) :
  forall lines cur i,
    i + Z.of_nat (List.length parts) <= count ->
    fold_left (lineStep count) parts (lines, cur, i)
    = (lines, (cur ++ String.concat "" parts)%string,
       i + Z.of_nat (List.length parts)).
Proof.
  induction parts as [|p r IH]; intros lines cur i H.
  - cbn. rewrite append_empty_r. f_equal. lia.
  - cbn [fold_left lineStep]. cbn [List.length] in H |- *.
    replace (i <? count) with true by (symmetry; apply Z.ltb_lt; lia).
    rewrite IH by lia. rewrite concat_empty_cons, append_assoc.
    f_equal. lia.
Qed.

(** On a full line the next entry starts a new one. *)
Lemma lineStep_wrap (count : Z) (parts : list string) (lines : list string)
      (cur : string) :
  parts <> [] -> Z.of_nat (List.length parts) <= count ->
  fold_left (lineStep count) parts (lines, cur, count)
  = (lines ++ [cur], String.concat "" parts, Z.of_nat (List.length parts)).
Proof.
  intros Hne Hlen. destruct parts as [|p r]; [congruence|].
  cbn [fold_left lineStep]. rewrite Z.ltb_irrefl.
  cbn [List.length] in Hlen |- *.
  rewrite lineStep_fill by lia. rewrite concat_empty_cons. f_equal. lia.
Qed.

Lemma lineStep_groups (c : nat) (sep : string) (gs : list (list string))
      (last : list string) :
  Forall (fun g => List.length g = c) gs ->
  (1 <= List.length last <= c)%nat ->
  forall lines cur,
    (let '(ls, cl, _) :=
       fold_left (lineStep (Z.of_nat c))
                 (withSeparators (List.concat gs ++ last) sep)
                 (lines, cur, Z.of_nat c) in
     ls ++ [cl])
    = lines ++ cur :: groupLines (gs ++ [last]) sep.
Proof.
  intros Hgs Hlast. assert (Hne : last <> []).
  { intros E. subst. cbn in Hlast. lia. }
  induction Hgs as [|g gs Hg Hgs IH]; intros lines cur.
  - cbn [List.concat app groupLines].
    assert (Hw : withSeparators last sep <> []).
    { destruct last; [congruence | rewrite withSeparators_cons; discriminate]. }
    rewrite lineStep_wrap.
    + rewrite concat_withSeparators, <- app_assoc. reflexivity.
    + exact Hw.
    + rewrite length_withSeparators. lia.
  - cbn [List.concat]. rewrite <- app_assoc.
    rewrite withSeparators_app.
    2:{ intros E. apply app_eq_nil in E. destruct E; congruence. }
    rewrite fold_left_app.
    assert (Hg0 : g <> []). { intros E. subst. cbn in Hlast. lia. }
    rewrite lineStep_wrap.
    + rewrite length_map, Hg. rewrite IH.
      rewrite concat_separated by exact Hg0.
      rewrite <- app_assoc. cbn [app].
      destruct (gs ++ [last]) as [|g' l'] eqn:E.
      * apply app_eq_nil in E. destruct E; discriminate.
      * reflexivity.
    + destruct g; [congruence | discriminate].
    + rewrite length_map, Hg. lia.
Qed.

(** The lines by groups: all groups hold [c] entries, the last one at least
    one and at most [c]. *)
Lemma combineStrings_grouped (c : nat) (sep : string)
      (gs : list (list string)) (last : list string) :
  Forall (fun g => List.length g = c) gs ->
  (1 <= List.length last <= c)%nat ->
  combineStrings (List.concat gs ++ last) (Z.of_nat c) sep
  = groupLines (gs ++ [last]) sep.
Proof.
  intros Hgs Hlast.
  rewrite combineStrings_lineStep.
  destruct Hgs as [|g gs Hg Hgs].
  - cbn [List.concat app groupLines].
    rewrite lineStep_fill.
    + rewrite concat_withSeparators. reflexivity.
    + rewrite length_withSeparators. lia.
  - assert (Hne : last <> []). { intros E. subst. cbn in Hlast. lia. }
    assert (Hg0 : g <> []). { intros E. subst. cbn in Hlast. lia. }
    cbn [List.concat]. rewrite <- app_assoc.
    rewrite withSeparators_app.
    2:{ intros E. apply app_eq_nil in E. destruct E; congruence. }
    rewrite fold_left_app, lineStep_fill by (rewrite length_map, Hg; lia).
    rewrite length_map, Hg, Z.add_0_l.
    rewrite (lineStep_groups c sep gs last Hgs Hlast).
    rewrite concat_separated by exact Hg0.
    cbn [app groupLines].
    destruct (gs ++ [last]) as [|g' l'] eqn:E; [|reflexivity].
    apply app_eq_nil in E. destruct E; discriminate.
Qed.

Lemma length_groupLines (gs : list (list string)) (sep : string) :
  List.length (groupLines gs sep) = List.length gs.
Proof.
  induction gs as [|g gs IH]; [reflexivity|].
  cbn [groupLines]. destruct gs as [|g' gs']; [reflexivity|].
  cbn [List.length] in IH |- *. rewrite IH. reflexivity.
Qed.

(** X1: [combineStrings] writes [count] entries on each line: when the
    entries come in groups of [c], the last group holding between one and
    [c] of them, the lines are the groups, each joined by the separator,
    with the separator once more at the end of every line but the last;
    there are as many lines as groups. *)
Theorem combineStrings_groups (c : nat) (sep : string)
        (gs : list (list string)) (last : list string) :
  Forall (fun g => List.length g = c) gs ->
  (1 <= List.length last <= c)%nat ->
  combineStrings (List.concat gs ++ last) (Z.of_nat c) sep
  = groupLines (gs ++ [last]) sep
  /\ List.length (combineStrings (List.concat gs ++ last) (Z.of_nat c) sep)
     = S (List.length gs).
Proof.
  intros Hgs Hlast.
  rewrite (combineStrings_grouped c sep gs last Hgs Hlast).
  split; [reflexivity|].
  rewrite length_groupLines, length_app. cbn [List.length]. lia.
Qed.

Lemma combineStrings_groups_witness :
  Forall (fun g => List.length g = 2%nat) [["a"; "b"]; ["c"; "d"]]%string
  /\ (1 <= List.length ["e"%string] <= 2)%nat
  /\ combineStrings ["a"; "b"; "c"; "d"; "e"]%string 2 ", "
     = ["a, b, "; "c, d, "; "e"]%string.
Proof.
  assert (G : Forall (fun g => List.length g = 2%nat)
                     [["a"; "b"]; ["c"; "d"]]%string)
    by (repeat constructor).
  assert (L : (1 <= List.length ["e"%string] <= 2)%nat) by (cbn; lia).
  split; [exact G|]. split; [exact L|].
  exact (proj1 (combineStrings_groups 2 ", " [["a"; "b"]; ["c"; "d"]]%string
                  ["e"%string] G L)).
Defined.

Lemma lineStep_flat (count : Z) (parts : list string) :
  forall lines cur i,
    (let '(ls, cl, _) := fold_left (lineStep count) parts (lines, cur, i) in
     String.concat "" (ls ++ [cl]))
    = (String.concat "" (lines ++ [cur]) ++ String.concat "" parts)%string.
Proof.
  induction parts as [|p r IH]; intros lines cur i.
  - cbn [fold_left]. rewrite append_empty_r. reflexivity.
  - cbn [fold_left lineStep]. destruct (i <? count); rewrite IH.
    + rewrite !concat_empty_app, !concat_empty_cons. cbn [String.concat].
      rewrite !append_empty_r, !append_assoc. reflexivity.
    + rewrite !concat_empty_app, !concat_empty_cons. cbn [String.concat].
      rewrite !append_empty_r, !append_assoc. reflexivity.
Qed.

(** X2: wrapping loses, adds and reorders nothing: the lines of
    [combineStrings], put end to end, are the entries joined by the
    separator, for every [count] (also zero or negative); for no entry at
    all there is one empty line. *)
Theorem combineStrings_join (strs : list string) (count : Z) (sep : string) :
  String.concat "" (combineStrings strs count sep) = Join strs sep
  /\ combineStrings [] count sep = [""%string].
Proof.
  split; [|reflexivity].
  rewrite combineStrings_lineStep.
  pose proof (lineStep_flat count (withSeparators strs sep) [] "" 0) as H.
  destruct (fold_left (lineStep count) (withSeparators strs sep) ([], ""%string, 0))
    as [[ls cl] i].
  rewrite H, concat_withSeparators. reflexivity.
Qed.

Lemma scadLists_points (ps : polygons) :
  forall st,
    fst (fst (fold_left scadStep ps st))
    = fst (fst st) ++ flat_map (fun p => map pointToOpenScad (vertices p)) ps
    /\ List.length (snd (fst (fold_left scadStep ps st)))
       = (List.length (snd (fst st)) + List.length ps)%nat.
Proof.
  induction ps as [|p ps IH]; intros [[points faces] ofs].
  - cbn. rewrite app_nil_r. split; [reflexivity | lia].
  - cbn [fold_left scadStep flat_map].
    destruct (IH (points ++ map pointToOpenScad (vertices p),
                  faces ++ [facesToOpenScad ofs (Z.of_nat (List.length (vertices p)))],
                  wrapInt (ofs + Z.of_nat (List.length (vertices p))))) as [P F].
    rewrite P, F. cbn [fst snd List.length]. rewrite app_assoc, length_app.
    cbn [List.length]. split; [reflexivity | lia].
Qed.

(** The entries of a list of [q * c + r] entries, in [q] groups of [c] and
    the last [r]. *)
Lemma split_groups {A} (c r : nat) (q : nat) :
  forall l : list A,
    List.length l = (q * c + r)%nat ->
    exists gs last,
      l = List.concat gs ++ last
      /\ Forall (fun g => List.length g = c) gs
      /\ List.length gs = q /\ List.length last = r.
Proof.
  induction q as [|q IH]; intros l H.
  - exists [], l. cbn in *. repeat split; auto.
  - destruct (IH (skipn c l)) as (gs & last & E & F & Lg & Ll).
    { rewrite length_skipn. lia. }
    exists (firstn c l :: gs), last. cbn [List.concat List.length].
    rewrite <- app_assoc, <- E, firstn_skipn.
    repeat split; auto.
    constructor; [|exact F]. rewrite length_firstn. lia.
Qed.

(** X3: for a mesh of [6 q + r] facets of three vertices ([1 <= r <= 6]),
    the points list that [writeOpenScad] prints has one line for each
    facet, holding the three points of that facet in order, and the faces
    list has [q + 1] lines: [q] lines of six faces and a last line of
    [r]. *)
Theorem points_one_facet_per_line (ps : polygons) (q r : nat) :
  Forall threeVertices ps ->
  List.length ps = (q * 6 + r)%nat -> (1 <= r <= 6)%nat ->
  combineStrings (scadPoints ps) 3 ", " = groupLines (map facetPoints ps) ", "
  /\ List.length (combineStrings (scadPoints ps) 3 ", ") = List.length ps
  /\ List.length (combineStrings (scadFaces ps) 6 ", ") = S q
  /\ exists sixes last,
       scadFaces ps = List.concat sixes ++ last
       /\ Forall (fun g => List.length g = 6%nat) sixes
       /\ List.length last = r
       /\ combineStrings (scadFaces ps) 6 ", "
          = groupLines (sixes ++ [last]) ", ".
Proof.
  intros H3 Hlen Hr.
  assert (Hne : ps <> []).
  { intros E. subst ps. cbn [List.length] in Hlen. lia. }
  assert (P : scadPoints ps = flat_map facetPoints ps).
  { unfold scadPoints, scadLists.
    rewrite (proj1 (scadLists_points ps ([], [], 0))). reflexivity. }
  assert (G : combineStrings (scadPoints ps) 3 ", "
              = groupLines (map facetPoints ps) ", ").
  { rewrite P. destruct (exists_last Hne) as (front & lastp & E). subst ps.
    rewrite flat_map_app, map_app. cbn [flat_map map]. rewrite app_nil_r.
    rewrite flat_map_concat_map.
    apply Forall_app in H3. destruct H3 as [Hf Hl].
    apply (combineStrings_grouped 3 ", " (map facetPoints front)
             (facetPoints lastp)).
    - apply Forall_map. revert Hf. apply Forall_impl. intros p Hp.
      unfold facetPoints. rewrite length_map. exact Hp.
    - inversion Hl as [|? ? Hp _]; subst. unfold facetPoints.
      rewrite length_map, Hp. lia. }
  split; [exact G|]. split.
  - rewrite G, length_groupLines, length_map. reflexivity.
  - assert (L : List.length (scadFaces ps) = (q * 6 + r)%nat).
    { unfold scadFaces, scadLists.
      rewrite (proj2 (scadLists_points ps ([], [], 0))). exact Hlen. }
    destruct (split_groups 6 r q (scadFaces ps) L) as (gs & last & E & F & Lg & Ll).
    assert (Hl : (1 <= List.length last <= 6)%nat) by (rewrite Ll; exact Hr).
    pose proof (combineStrings_grouped 6 ", " gs last F Hl) as G6.
    rewrite <- E in G6. change (Z.of_nat 6) with 6 in G6.
    split.
    + rewrite G6, length_groupLines, length_app, Lg. cbn [List.length]. lia.
    + exists gs, last. repeat split; assumption.
Qed.

Lemma points_one_facet_per_line_witness :
  Forall threeVertices [sampleFacet]
  /\ List.length [sampleFacet] = (0 * 6 + 1)%nat
  /\ (1 <= 1 <= 6)%nat
  /\ combineStrings (scadPoints [sampleFacet]) 3 ", "
     = ["[0,0,5], [4,0,5.5], [0,6,9]"%string].
Proof.
  assert (T : Forall threeVertices [sampleFacet]) by (repeat constructor).
  assert (R : (1 <= 1 <= 6)%nat) by lia.
  split; [exact T|]. split; [reflexivity|]. split; [exact R|].
  exact (proj1 (points_one_facet_per_line [sampleFacet] 0 1 T eq_refl R)).
Defined.

(** ** Number texts: [ftos] *)

Lemma HasSuffix_cons (c d : ascii) (r : string) :
  HasSuffix (String c r) (String d "")
  = match r with
    | EmptyString => Ascii.eqb c d
    | String _ _ => HasSuffix r (String d "")
    end.
Proof.
  unfold HasSuffix. cbn [String.length].
  destruct r as [|c' r'].
  - cbn. destruct (Ascii.eqb c d); reflexivity.
  - cbn [String.length]. replace (S (S (String.length r')) - 1)%nat
      with (S (String.length r')) by lia.
    replace (S (String.length r') - 1)%nat with (String.length r') by lia.
    reflexivity.
Qed.

Lemma dropLast_cons (c : ascii) (r : string) :
  dropLast (String c r)
  = match r with
    | EmptyString => EmptyString
    | String _ _ => String c (dropLast r)
    end.
Proof.
  unfold dropLast. cbn [String.length].
  destruct r as [|c' r']; [reflexivity|].
  cbn [String.length].
  replace (S (S (String.length r')) - 1)%nat with (S (String.length r')) by lia.
  replace (S (String.length r') - 1)%nat with (String.length r') by lia.
  reflexivity.
Qed.

Lemma trimZeros_fixed (s : string) :
  HasSuffix s "0" = false -> trimZeros s = s.
Proof.
  induction s as [|c r IH]; [reflexivity|].
  rewrite HasSuffix_cons. cbn [trimZeros].
  destruct r as [|c' r'].
  - intros H. cbn [trimZeros]. rewrite H. reflexivity.
  - intros H. rewrite (IH H). rewrite andb_false_r. reflexivity.
Qed.

Lemma trimZeros_dropLast (s : string) :
  HasSuffix s "0" = true -> trimZeros (dropLast s) = trimZeros s.
Proof.
  induction s as [|c r IH]; [discriminate|].
  rewrite HasSuffix_cons, dropLast_cons.
  destruct r as [|c' r'].
  - intros H. cbn [trimZeros]. rewrite H. reflexivity.
  - intros H. cbn [trimZeros] in IH |- *. rewrite (IH H). reflexivity.
Qed.

Lemma stripZeros_trimZeros (fuel : nat) :
  forall s, (String.length s <= fuel)%nat -> stripZeros fuel s = trimZeros s.
Proof.
  induction fuel as [|fuel IH]; intros s H.
  - destruct s; [reflexivity | cbn in H; lia].
  - cbn [stripZeros]. destruct (HasSuffix s "0") eqn:E.
    + rewrite IH, trimZeros_dropLast by
        (try exact E; rewrite length_dropLast;
         apply HasSuffix_nonempty in E; lia).
      reflexivity.
    + symmetry. apply trimZeros_fixed. exact E.
Qed.

Lemma trimZeros_app (a : string) (c : ascii) (b : string) :
  Ascii.eqb c "0" = false ->
  trimZeros (a ++ String c b) = (a ++ String c (trimZeros b))%string.
Proof.
  intros H. induction a as [|x a IH].
  - cbn [append trimZeros]. rewrite H. reflexivity.
  - cbn [append trimZeros]. rewrite IH.
    destruct a; cbn [append String.eqb]; rewrite andb_false_r; reflexivity.
Qed.

Lemma HasSuffix_app (a : string) (c : ascii) (b : string) (d : ascii) :
  HasSuffix (a ++ String c b) (String d "") = HasSuffix (String c b) (String d "").
Proof.
  induction a as [|x a IH]; [reflexivity|].
  cbn [append]. rewrite HasSuffix_cons.
  destruct a; cbn [append] in *; exact IH.
Qed.

Lemma dropLast_app (a : string) (c : ascii) :
  dropLast (a ++ String c "") = a.
Proof.
  induction a as [|x a IH]; [reflexivity|].
  cbn [append]. rewrite dropLast_cons.
  destruct a; cbn [append] in *; rewrite IH; reflexivity.
Qed.

Lemma HasSuffix_digits (s : string) :
  allDigits s = true -> HasSuffix s "." = false.
Proof.
  induction s as [|c r IH]; [reflexivity|].
  cbn [allDigits]. intros H. apply andb_true_iff in H. destruct H as [Hc Hr].
  rewrite HasSuffix_cons. destruct r as [|c' r']; [|exact (IH Hr)].
  destruct (Ascii.eqb_spec c "."); [|reflexivity].
  subst c. discriminate Hc.
Qed.

Lemma allDigits_trimZeros (s : string) :
  allDigits s = true -> allDigits (trimZeros s) = true.
Proof.
  induction s as [|c r IH]; [reflexivity|].
  cbn [allDigits trimZeros]. intros H. apply andb_true_iff in H.
  destruct H as [Hc Hr].
  destruct (Ascii.eqb c "0" && String.eqb (trimZeros r) ""); [reflexivity|].
  cbn [allDigits]. rewrite Hc, (IH Hr). reflexivity.
Qed.

Lemma allDigits_uint (d : Decimal.uint) :
  allDigits (NilEmpty.string_of_uint d) = true.
Proof. induction d; cbn; auto. Qed.

Lemma allDigits_formatInt (n : Z) : 0 <= n -> allDigits (formatInt n) = true.
Proof.
  intros H. unfold formatInt. destruct n as [|p|p]; [reflexivity| |lia].
  cbn [Z.to_int NilZero.string_of_int NilZero.string_of_uint].
  destruct (Pos.to_uint p) eqn:E; try apply allDigits_uint.
  reflexivity.
Qed.

Lemma allDigits_padLeft (w : nat) (s : string) :
  allDigits s = true -> allDigits (padLeft w s) = true.
Proof.
  induction w as [|w IH]; intros H; [exact H|].
  cbn [padLeft]. destruct (String.length s <=? w)%nat; [|exact H].
  cbn [append allDigits]. rewrite (IH H). reflexivity.
Qed.

Lemma Sprintf_10f_number (v : F32.t) :
  isNumber v = true ->
  Sprintf_10f v
  = ((if F32.signbit v then "-" else "")
     ++ formatInt (scaled v / 10000000000) ++ "."
     ++ padLeft 10 (formatInt (scaled v mod 10000000000)))%string.
Proof.
  destruct v as [s|s| |s m e]; try discriminate; intros _; reflexivity.
Qed.

Lemma ftos_of_text (pre frac : string) (v : F32.t) :
  Sprintf_10f v = (pre ++ String "." frac)%string ->
  allDigits frac = true ->
  ftos v = (pre ++ (if String.eqb (trimZeros frac) "" then ""
                    else String "." (trimZeros frac)))%string.
Proof.
  intros E D. unfold ftos. rewrite E.
  rewrite stripZeros_trimZeros by apply Nat.le_refl.
  rewrite trimZeros_app by reflexivity.
  rewrite HasSuffix_app.
  pose proof (allDigits_trimZeros frac D) as D'.
  destruct (trimZeros frac) as [|c f'] eqn:F.
  - cbn [String.eqb]. change (HasSuffix "." ".") with true. cbv iota.
    rewrite dropLast_app, append_empty_r. reflexivity.
  - cbn [String.eqb]. rewrite HasSuffix_cons.
    rewrite (HasSuffix_digits _ D'). reflexivity.
Qed.

(** X4: for a zero or a finite number, [ftos] writes the sign, the integer
    digits as [%.10f] prints them, and the ten decimals without their
    trailing zeros; the point is written only when a decimal is left.  The
    zeros of the integer part are never stripped. *)
Theorem ftos_digits (v : F32.t) :
  isNumber v = true ->
  let f := trimZeros (padLeft 10 (formatInt (scaled v mod 10000000000))) in
  ftos v
  = ((if F32.signbit v then "-" else "")
     ++ formatInt (scaled v / 10000000000)
     ++ (if String.eqb f "" then "" else String "." f))%string.
Proof.
  intros H f.
  rewrite <- append_assoc.
  apply ftos_of_text.
  - rewrite (Sprintf_10f_number v H), append_assoc. reflexivity.
  - apply allDigits_padLeft, allDigits_formatInt.
    apply Z.mod_pos_bound. lia.
Qed.

Lemma ftos_digits_witness :
  isNumber f32_1_5 = true /\ ftos f32_1_5 = "1.5"%string.
Proof.
  split; [reflexivity|]. exact (ftos_digits f32_1_5 eq_refl).
Defined.

Lemma roundHalfEven_small (num den : Z) :
  0 <= num -> 2 * num <= den -> roundHalfEven num den = 0.
Proof.
  intros Hn Hd. unfold roundHalfEven.
  destruct (Z.eq_dec num 0) as [E|E].
  - subst. rewrite Zdiv_0_l, Zmod_0_l.
    destruct (2 * 0 ?= den) eqn:C; try reflexivity.
    change (2 * 0 > den) in C. lia.
  - rewrite Z.div_small, Z.mod_small by lia.
    destruct (2 * num ?= den) eqn:C; try reflexivity.
    change (2 * num > den) in C. lia.
Qed.

(** X5: a coordinate of magnitude at most 5e-11 is written as zero, with
    its sign: ["0"] or ["-0"]. *)
Theorem ftos_small (s : bool) (m : positive) (e : Z) :
  e < 0 -> 2 * (Zpos m * 10000000000) <= 2 ^ (- e) ->
  ftos (S754_finite s m e) = (if s then "-0" else "0")%string.
Proof.
  intros He Hs.
  assert (E : Sprintf_10f (S754_finite s m e) = Sprintf_10f (S754_zero s)).
  { unfold Sprintf_10f.
    replace (0 <=? e) with false by (symmetry; apply Z.leb_gt; exact He).
    rewrite roundHalfEven_small by lia. reflexivity. }
  unfold ftos. rewrite E. destruct s; vm_compute; reflexivity.
Qed.

Lemma ftos_small_witness :
  -149 < 0 /\ 2 * (Zpos 1 * 10000000000) <= 2 ^ (- -149)
  /\ ftos (S754_finite true 1 (-149)) = "-0"%string.
Proof.
  assert (E : -149 < 0) by lia.
  assert (B : 2 * (Zpos 1 * 10000000000) <= 2 ^ (- -149))
    by (vm_compute; discriminate).
  split; [exact E|]. split; [exact B|].
  exact (ftos_small true 1 (-149) E B).
Defined.

(** The rounding of [num / den] is within one half of it. *)
Lemma roundHalfEven_near (num den : Z) :
  0 < den -> 2 * Z.abs (roundHalfEven num den * den - num) <= den.
Proof.
  intros Hd. unfold roundHalfEven.
  pose proof (Z.div_mod num den ltac:(lia)) as D.
  pose proof (Z.mod_pos_bound num den Hd) as B.
  remember (num / den) as q eqn:Eq. remember (num mod den) as r eqn:Er.
  clear Eq Er.
  assert (Q : (q + 1) * den = den * q + den) by ring.
  destruct (2 * r ?= den) eqn:C.
  - apply Z.compare_eq in C.
    destruct (Z.even q); [rewrite (Z.mul_comm q den) | rewrite Q]; lia.
  - change (2 * r < den) in C. rewrite (Z.mul_comm q den). lia.
  - change (2 * r > den) in C. rewrite Q. lia.
Qed.

(** X6: for a finite number [%.10f] prints the sign and an integer [q] of
    units of 1e-10, as its digits before and after the point; [q] is the
    magnitude times 10^10 when that is an integer, and the nearest integer
    to it otherwise: the text differs from the value by at most 5e-11. *)
Theorem scaled_accuracy (s : bool) (m : positive) (e : Z) :
  let q := scaled (S754_finite s m e) in
  Sprintf_10f (S754_finite s m e)
  = ((if s then "-" else "") ++ formatInt (q / 10000000000) ++ "."
     ++ padLeft 10 (formatInt (q mod 10000000000)))%string
  /\ (0 <= e -> q = Zpos m * 2 ^ e * 10000000000)
  /\ (e < 0 -> 2 * Z.abs (q * 2 ^ (- e) - Zpos m * 10000000000) <= 2 ^ (- e)).
Proof.
  intros q. split; [reflexivity|]. subst q.
  split; intros He; unfold scaled.
  - replace (0 <=? e) with true by (symmetry; apply Z.leb_le; exact He).
    reflexivity.
  - replace (0 <=? e) with false by (symmetry; apply Z.leb_gt; exact He).
    apply roundHalfEven_near. apply Z.pow_pos_nonneg; lia.
Qed.

Lemma scaled_accuracy_witness :
  -149 < 0
  /\ 2 * Z.abs (scaled (S754_finite false 1 (-149)) * 2 ^ (- -149)
                - Zpos 1 * 10000000000)
     <= 2 ^ (- -149).
Proof.
  assert (E : -149 < 0) by lia.
  split; [exact E|].
  exact (proj2 (proj2 (scaled_accuracy false 1 (-149))) E).
Defined.

(** ** The binary decoder on any stream *)

Lemma readTriangles_app (a b : nat) :
  forall r acc,
    readTriangles (a + b) r acc
    = readTriangles b (snd (readTriangles a r acc)) (fst (readTriangles a r acc)).
Proof.
  induction a as [|a IH]; intros r acc; [reflexivity|].
  cbn [Nat.add readTriangles].
  destruct (readPointBinary (Discard r (3 * 4))) as [v1 r1].
  destruct (readPointBinary r1) as [v2 r2].
  destruct (readPointBinary r2) as [v3 r3].
  apply IH.
Qed.

Lemma readTriangles_eof (n : nat) (err : ioError) :
  forall acc,
    readTriangles n (mkReader [] err) acc
    = (acc ++ repeat originFacet n, mkReader [] err).
Proof.
  induction n as [|n IH]; intros acc.
  - cbn. rewrite app_nil_r. reflexivity.
  - assert (E : readPointBinary (mkReader [] err) = (origin, mkReader [] err))
      by reflexivity.
    cbn [readTriangles].
    change (Discard (mkReader [] err) (3 * 4)) with (mkReader [] err).
    rewrite E. cbn iota beta. rewrite E. cbn iota beta. rewrite E. cbn iota beta.
    change (Discard (mkReader [] err) 2) with (mkReader [] err).
    rewrite IH, <- app_assoc. reflexivity.
Qed.

(** X8: a binary stream that ends after some whole records, while the
    count field announces [missing] more, still decodes without error: the
    records at hand give their facets, and every missing record gives a
    facet of three points at the origin. *)
Theorem readBinary_truncated (header : list Byte.byte) (c0 c1 c2 c3 : Byte.byte)
        (recs : list (list Byte.byte)) (missing : nat) (err : ioError) :
  List.length header = 80%nat ->
  Forall isRecord recs ->
  le32 c0 c1 c2 c3 = Z.of_nat (List.length recs + missing) ->
  readBinary (mkReader (header ++ [c0; c1; c2; c3] ++ List.concat recs) err)
  = (map recordFacet recs ++ repeat originFacet missing, mkReader [] err).
Proof.
  intros Hh Hr Hc. unfold readBinary, Discard. cbn [avail failure].
  rewrite skipn_app, Hh, Nat.sub_diag, skipn_all2 by lia.
  cbn [app skipn readUint32 avail failure].
  rewrite Hc, Nat2Z.id, readTriangles_app.
  pose proof (readTriangles_records recs [] err [] Hr) as R.
  rewrite app_nil_r in R. rewrite R. cbn [fst snd app].
  apply readTriangles_eof.
Qed.

Lemma readBinary_truncated_witness :
  List.length sampleHeader = 80%nat
  /\ Forall isRecord [sampleRecord]
  /\ le32 Byte.x03 Byte.x00 Byte.x00 Byte.x00
     = Z.of_nat (List.length [sampleRecord] + 2)
  /\ fst (readBinary (mkReader (sampleHeader
                                  ++ [Byte.x03; Byte.x00; Byte.x00; Byte.x00]
                                  ++ List.concat [sampleRecord]) EOF))
     = [recordFacet sampleRecord; originFacet; originFacet].
Proof.
  assert (R : Forall isRecord [sampleRecord]) by (repeat constructor).
  split; [reflexivity|]. split; [exact R|]. split; [reflexivity|].
  exact (f_equal fst
           (readBinary_truncated sampleHeader Byte.x03 Byte.x00 Byte.x00 Byte.x00
              [sampleRecord] 2 EOF eq_refl R eq_refl)).
Defined.

Lemma readUint32_short (r : reader) :
  (List.length (avail r) < 4)%nat ->
  readUint32 r = (None, mkReader [] (failure r)).
Proof.
  unfold readUint32. destruct (avail r) as [|b0 [|b1 [|b2 [|b3 l]]]];
    cbn [List.length]; intros H; try reflexivity; lia.
Qed.

(** X7: the binary decoder trusts the count field: on a stream of at
    least 84 bytes it returns as many facets as the word at bytes 80..83
    says, whatever follows and however little; on a shorter stream it
    returns no facet. *)
Theorem readBinary_count (r : reader) :
  ((List.length (avail r) < 84)%nat -> fst (readBinary r) = [])
  /\ (forall header c0 c1 c2 c3 rest,
         avail r = header ++ [c0; c1; c2; c3] ++ rest ->
         List.length header = 80%nat ->
         List.length (fst (readBinary r)) = Z.to_nat (le32 c0 c1 c2 c3)).
Proof.
  split.
  - intros H. unfold readBinary.
    rewrite readUint32_short.
    + reflexivity.
    + unfold Discard. cbn [avail]. rewrite length_skipn. lia.
  - intros header c0 c1 c2 c3 rest E Hh. unfold readBinary, Discard.
    rewrite E, skipn_app, Hh, Nat.sub_diag, skipn_all2 by lia.
    cbn [app skipn readUint32 avail failure].
    destruct (readTriangles_shape (Z.to_nat (le32 c0 c1 c2 c3))
                (mkReader rest (failure r)) [] (Forall_nil _)) as [_ L].
    exact L.
Qed.

Lemma readBinary_count_witness :
  List.length
    (fst (readBinary (mkReader (sampleHeader
                                  ++ [Byte.x05; Byte.x00; Byte.x00; Byte.x00]
                                  ++ [Byte.xff]) EOF)))
  = 5%nat.
Proof.
  exact (proj2 (readBinary_count
                  (mkReader (sampleHeader
                               ++ [Byte.x05; Byte.x00; Byte.x00; Byte.x00]
                               ++ [Byte.xff]) EOF))
               sampleHeader Byte.x05 Byte.x00 Byte.x00 Byte.x00 [Byte.xff]
               eq_refl eq_refl).
Defined.

Lemma land_mask_bounds (w k : Z) :
  0 <= k -> 0 <= Z.land w (2 ^ k - 1) < 2 ^ k.
Proof.
  intros Hk. replace (2 ^ k - 1) with (Z.ones k)
    by (rewrite Z.ones_equiv; lia).
  rewrite Z.land_ones by exact Hk.
  apply Z.mod_pos_bound. apply Z.pow_pos_nonneg; lia.
Qed.

Lemma frombits_binary32 (w : Z) : binary32 (F32.frombits w) = true.
Proof.
  unfold F32.frombits.
  pose proof (land_mask_bounds (Z.shiftr w 23) 8 ltac:(lia)) as He.
  pose proof (land_mask_bounds w 23 ltac:(lia)) as Hf.
  change (2 ^ 8 - 1) with 255 in He. change (2 ^ 8) with 256 in He.
  change (2 ^ 23 - 1) with 8388607 in Hf. change (2 ^ 23) with 8388608 in Hf.
  set (e := Z.land (Z.shiftr w 23) 255) in *.
  set (f := Z.land w 8388607) in *.
  cbv zeta.
  destruct (e =? 0) eqn:E0.
  - destruct f as [|m|m] eqn:Ef; [reflexivity | | reflexivity].
    cbn [binary32]. unfold F32.canonical.
    apply andb_true_iff; split; [|reflexivity].
    repeat (apply andb_true_iff; split); [apply Z.ltb_lt; lia | reflexivity | reflexivity].
  - destruct (e =? 255) eqn:E255.
    + destruct (f =? 0); reflexivity.
    + apply Z.eqb_neq in E0, E255.
      destruct (f + 8388608) as [|m|m] eqn:Ef; [reflexivity | | reflexivity].
      cbn [binary32]. unfold F32.canonical.
      repeat (apply andb_true_iff; split).
      * apply Z.ltb_lt. lia.
      * apply Z.leb_le. lia.
      * apply Z.leb_le. lia.
      * apply orb_true_iff. right. apply Z.leb_le. lia.
Qed.

Lemma readFloat32_binary32 (r : reader) (old : F32.t) :
  binary32 old = true -> binary32 (fst (readFloat32 r old)) = true.
Proof.
  intros H. unfold readFloat32.
  destruct (readUint32 r) as [[w|] r']; cbn [fst];
    [apply frombits_binary32 | exact H].
Qed.

Lemma readPointBinary_binary32 (r : reader) :
  binary32Point (fst (readPointBinary r)).
Proof.
  unfold readPointBinary. cbn [x y z].
  pose proof (readFloat32_binary32 r F32.pos_zero eq_refl) as Hx.
  destruct (readFloat32 r F32.pos_zero) as [px r1]. cbn [fst] in Hx.
  pose proof (readFloat32_binary32 r1 F32.pos_zero eq_refl) as Hy.
  destruct (readFloat32 r1 F32.pos_zero) as [py r2]. cbn [fst] in Hy.
  pose proof (readFloat32_binary32 r2 F32.pos_zero eq_refl) as Hz.
  destruct (readFloat32 r2 F32.pos_zero) as [pz r3]. cbn [fst] in Hz.
  repeat split; assumption.
Qed.

Lemma readTriangles_binary32 (n : nat) :
  forall r acc,
    Forall (fun p => Forall binary32Point (vertices p)) acc ->
    Forall (fun p => Forall binary32Point (vertices p))
           (fst (readTriangles n r acc)).
Proof.
  induction n as [|n IH]; intros r acc Hacc; [exact Hacc|].
  cbn [readTriangles].
  pose proof (readPointBinary_binary32 (Discard r (3 * 4))) as H1.
  destruct (readPointBinary (Discard r (3 * 4))) as [v1 r1].
  pose proof (readPointBinary_binary32 r1) as H2.
  destruct (readPointBinary r1) as [v2 r2].
  pose proof (readPointBinary_binary32 r2) as H3.
  destruct (readPointBinary r2) as [v3 r3].
  apply IH. apply Forall_app. split; [exact Hacc|].
  apply Forall_cons; [|apply Forall_nil]. cbn [vertices].
  apply Forall_cons; [exact H1|].
  apply Forall_cons; [exact H2|].
  apply Forall_cons; [exact H3 | apply Forall_nil].
Qed.

Lemma binary32_S754_finite (s : bool) (m : positive) (e : Z) :
  binary32 (S754_finite s m e) = F32.canonical m e.
Proof. reflexivity. Qed.

(** X9: whatever the bytes, every coordinate the binary decoder returns
    is a binary32 datum in canonical form; such a datum is finite exactly
    when it is neither NaN nor an infinity. *)
Theorem readBinary_binary32 (r : reader) :
  Forall (fun p => Forall binary32Point (vertices p)) (fst (readBinary r))
  /\ (forall v, binary32 v = true ->
        F32.finite v = negb (F32.is_nan v || F32.is_inf v true || F32.is_inf v false)).
Proof.
  split.
  - unfold readBinary.
    destruct (readUint32 (Discard r 80)) as [[n|] r1];
      apply readTriangles_binary32; apply Forall_nil.
  - intros v. destruct v as [s|[|]| |s m e]; intros H;
      [reflexivity | reflexivity | reflexivity | reflexivity |].
    rewrite finite_S754_finite. rewrite binary32_S754_finite in H.
    rewrite H. reflexivity.
Qed.

(** X10: an input of fewer than 84 bytes that does not begin with
    ["solid "] (the empty input among them) is no error: the run ends
    normally with no facet and writes the polyhedron with one blank line
    in each list, under the name of the flag or ["shape"]. *)
Theorem short_input_empty_polyhedron
        (ParseFloat32 : string -> option F32.t)
        (flag : string) (center : bool) (input : reader) :
  asciiPrefix input = false ->
  (List.length (avail input) < 84)%nat ->
  let name := if String.eqb flag "" then "shape"%string else flag in
  main ParseFloat32 flag center input
  = Ok (mkRun [] name (emptyPolyhedron name)).
Proof.
  intros Hp Hlen name.
  rewrite (main_binary ParseFloat32 flag center input Hp). cbv zeta.
  assert (E : fst (readBinary input) = []).
  { unfold readBinary. rewrite readUint32_short.
    - reflexivity.
    - unfold Discard. cbn [avail]. rewrite length_skipn. lia. }
  rewrite E. unfold init. fold name.
  replace (postProcess center []) with (@nil polygon)
    by (destruct center; reflexivity).
  reflexivity.
Qed.

Lemma short_input_empty_polyhedron_witness :
  asciiPrefix (mkReader [] EOF) = false
  /\ (List.length (avail (mkReader [] EOF)) < 84)%nat
  /\ main parseDecimal32 "" true (mkReader [] EOF)
     = Ok (mkRun [] "shape" (emptyPolyhedron "shape")).
Proof.
  assert (L : (List.length (avail (mkReader [] EOF)) < 84)%nat) by (cbn; lia).
  split; [reflexivity|]. split; [exact L|].
  exact (short_input_empty_polyhedron parseDecimal32 "" true (mkReader [] EOF)
           eq_refl L).
Defined.

(** ** The ASCII decoder and the two formats *)

(** X11: the name of a solid is one word.  When the word after the name
    is neither [facet] nor [endsolid] (a name of several words, or no name
    before the first [facet]), the run ends in the fatal error that
    expected [endsolid] and got that word. *)
Theorem solid_name_one_word
        (ParseFloat32 : string -> option F32.t)
        (name t : string) (rest : list string) (name0 : string) :
  t <> "facet"%string -> t <> "endsolid"%string ->
  readAscii ParseFloat32 ("solid"%string :: name :: t :: rest) name0
  = Fatal (ExpectedButGot "endsolid" t)
  /\ forall flag center input,
       asciiPrefix input = true ->
       scanWords (avail input) = "solid"%string :: name :: t :: rest ->
       main ParseFloat32 flag center input
       = Fatal (ExpectedButGot "endsolid" t).
Proof.
  intros Hf He.
  assert (R : forall n0,
             readAscii ParseFloat32 ("solid"%string :: name :: t :: rest) n0
             = Fatal (ExpectedButGot "endsolid" t)).
  { intros n0. unfold readAscii, expect, NewScanner.
    cbn [Scan pending text String.eqb Ascii.eqb Bool.eqb negb].
    rewrite readFacets_stop by exact Hf.
    cbn [text]. apply String.eqb_neq in He. rewrite He. reflexivity. }
  split; [apply R|].
  intros flag center input Hp Ht.
  rewrite main_ascii by exact Hp. rewrite Ht, R. reflexivity.
Qed.

Lemma solid_name_one_word_witness :
  "bracket"%string <> "facet"%string /\ "bracket"%string <> "endsolid"%string
  /\ main parseDecimal32 "" true
          (mkReader (list_byte_of_string "solid left bracket endsolid") EOF)
     = Fatal (ExpectedButGot "endsolid" "bracket").
Proof.
  assert (F : "bracket"%string <> "facet"%string) by discriminate.
  assert (E : "bracket"%string <> "endsolid"%string) by discriminate.
  split; [exact F|]. split; [exact E|].
  exact (proj2 (solid_name_one_word parseDecimal32 "left" "bracket"
                  ["endsolid"%string] "" F E)
               ""%string true
               (mkReader (list_byte_of_string "solid left bracket endsolid") EOF)
               eq_refl eq_refl).
Defined.

Section Truncation.

Variable ParseFloat32 : string -> option F32.t.
Hypothesis ParseFloat32_empty : ParseFloat32 "" = None.

Lemma cut_Scan (sp s : scanner) :
  cut sp s -> pending sp <> [] -> cut (Scan sp) (Scan s).
Proof.
  intros [Ht [tail Hp]] Hne. unfold Scan, cut. rewrite Hp.
  destruct (pending sp) as [|t r]; [congruence|].
  cbn [app text pending]. split; [reflexivity|]. exists tail. reflexivity.
Qed.

Lemma Scan_end (sp : scanner) :
  pending sp = [] -> Scan sp = mkScanner [] "".
Proof. intros H. unfold Scan. rewrite H. reflexivity. Qed.

Lemma follows_ret {A} (a : A) : follows (ret a).
Proof.
  intros s sp b s' C H. apply ret_inv in H. inversion H; subst.
  right. exists sp. split; [reflexivity | exact C].
Qed.

Lemma follows_bind {A B} (m : parser A) (k : A -> parser B) :
  follows m -> (forall a, follows (k a)) -> follows (bind m k).
Proof.
  intros Hm Hk s sp b s' C H.
  apply bind_inv in H. destruct H as (a & s1 & H1 & H2).
  destruct (Hm s sp a s1 C H1) as [(f & Ef & Af)|(sp1 & E1 & C1)].
  - left. exists f. unfold bind. rewrite Ef. split; [reflexivity | exact Af].
  - destruct (Hk a s1 sp1 b s' C1 H2) as [(f & Ef & Af)|(sp' & E' & C')].
    + left. exists f. unfold bind. rewrite E1. split; assumption.
    + right. exists sp'. unfold bind. rewrite E1. split; assumption.
Qed.

Lemma follows_expect (e : string) : e <> ""%string -> follows (expect e).
Proof.
  intros He s sp u s' C H. unfold expect in *.
  destruct (String.eqb (text (Scan s)) e) eqn:E; cbn [negb] in H;
    [|discriminate H].
  inversion H; subst u s'. clear H.
  destruct (pending sp) as [|t r] eqn:P.
  - left. rewrite (Scan_end sp P). cbn [text].
    assert (N : String.eqb "" e = false).
    { apply String.eqb_neq. congruence. }
    rewrite N. cbn [negb]. eexists. split; reflexivity.
  - right. assert (C' : cut (Scan sp) (Scan s)).
    { apply cut_Scan; [exact C | congruence]. }
    destruct C' as [Ht Hp]. rewrite Ht, E. cbn [negb].
    eexists. split; [reflexivity|]. split; assumption.
Qed.

Lemma follows_readFloat : follows (readFloat ParseFloat32).
Proof.
  intros s sp v s' C H. unfold readFloat in *.
  destruct (ParseFloat32 (text (Scan s))) as [w|] eqn:E; [|discriminate H].
  inversion H; subst w s'. clear H.
  destruct (pending sp) as [|t r] eqn:P.
  - left. rewrite (Scan_end sp P). cbn [text]. rewrite ParseFloat32_empty.
    eexists. split; reflexivity.
  - right. assert (C' : cut (Scan sp) (Scan s)).
    { apply cut_Scan; [exact C | congruence]. }
    destruct C' as [Ht Hp]. rewrite Ht, E.
    eexists. split; [reflexivity|]. split; assumption.
Qed.

Lemma follows_readPoint : follows (readPoint ParseFloat32).
Proof.
  unfold readPoint.
  repeat (apply follows_bind; [apply follows_readFloat | intros ?]).
  apply follows_ret.
Qed.

Lemma follows_readFacet : follows (readFacet ParseFloat32).
Proof.
  unfold readFacet.
  repeat first
    [ apply follows_ret
    | apply follows_bind;
      [ first [ apply follows_expect; discriminate | apply follows_readPoint ]
      | intros ? ] ].
Qed.

Lemma readFacet_shrinks s p s' :
  readFacet ParseFloat32 s = Ok (p, s') ->
  (List.length (pending s') <= List.length (pending s))%nat.
Proof.
  intros H. apply (readFacet_inv ParseFloat32) in H.
  destruct H as (f & E & _). rewrite E, length_app. lia.
Qed.

Lemma readFacets_cut (fuel : nat) :
  forall fuel' acc s sp ps s',
    cut sp s -> (List.length (pending sp) < fuel')%nat ->
    readFacets ParseFloat32 fuel acc s = Ok (ps, s') ->
    starved (readFacets ParseFloat32 fuel' acc sp)
    \/ exists qs sp',
         readFacets ParseFloat32 fuel' acc sp = Ok (qs, sp')
         /\ ((qs = ps /\ cut sp' s') \/ text sp' = ""%string).
Proof.
  assert (Stop : forall fuel' acc s sp ps s',
             cut sp s -> text s <> "facet"%string ->
             Ok (acc, s) = Ok (ps, s') ->
             exists qs sp',
               readFacets ParseFloat32 fuel' acc sp = Ok (qs, sp')
               /\ ((qs = ps /\ cut sp' s') \/ text sp' = ""%string)).
  { intros fuel' acc s sp ps s' C N H. inversion H; subst ps s'.
    exists acc, sp. rewrite readFacets_stop by (rewrite (proj1 C); exact N).
    split; [reflexivity|]. left. split; [reflexivity | exact C]. }
  induction fuel as [|fuel IH]; intros fuel' acc s sp ps s' C L H;
    cbn [readFacets] in H;
    destruct (String.eqb (text s) "facet") eqn:E; try discriminate H.
  - right. apply String.eqb_neq in E. eapply Stop; eassumption.
  - apply bind_inv in H. destruct H as (p & s1 & Hp & H).
    destruct fuel' as [|fuel']; [lia|].
    cbn [readFacets]. rewrite (proj1 C), E. unfold bind.
    destruct (follows_readFacet s sp p s1 C Hp) as [(f & Ef & Af)|(sp1 & E1 & C1)].
    + left. exists f. rewrite Ef. split; [reflexivity | exact Af].
    + rewrite E1. pose proof (readFacet_shrinks sp p sp1 E1) as Sh.
      destruct (pending sp1) as [|t r] eqn:P.
      * right. rewrite (Scan_end sp1 P).
        exists (acc ++ [p]), (mkScanner [] "").
        rewrite readFacets_stop by discriminate.
        split; [reflexivity|]. right. reflexivity.
      * apply (IH fuel' (acc ++ [p]) (Scan s1) (Scan sp1) ps s').
        -- apply cut_Scan; [exact C1 | congruence].
        -- unfold Scan. rewrite P. cbn [pending]. cbn [List.length] in Sh. lia.
        -- exact H.
  - right. apply String.eqb_neq in E. eapply Stop; eassumption.
Qed.

Lemma cut_firstn (k : nat) (tokens : list string) :
  cut (NewScanner (firstn k tokens)) (NewScanner tokens).
Proof.
  split; [reflexivity|]. exists (skipn k tokens). cbn [NewScanner pending].
  symmetry. apply firstn_skipn.
Qed.

Lemma solidTokens_length (name : string) (fs : list facetText)
      (rest : list string) :
  List.length (solidTokens name fs rest)
  = (3 + 21 * List.length fs + List.length rest)%nat.
Proof.
  unfold solidTokens. rewrite !length_app, flat_map_facetTokens_length.
  cbn [List.length]. lia.
Qed.

Lemma Forall2_length_eq {A B} (R : A -> B -> Prop) (l : list A) (l' : list B) :
  Forall2 R l l' -> List.length l = List.length l'.
Proof. induction 1; cbn; congruence. Qed.

(** X17: an ASCII file that ends after any number of its whole tokens,
    the [endsolid] token not among them, never decodes: the run ends in a
    fatal error whose message shows the empty text as the token it got (the
    parser of numbers rejecting the empty text, as [strconv.ParseFloat]
    does), and nothing is written. *)
Theorem truncated_ascii_fatal
        (name : string) (fs : list facetText) (ps : polygons)
        (k : nat) (name0 : string) :
  Forall2 (denotes ParseFloat32) fs ps ->
  (k < List.length (solidTokens name fs []))%nat ->
  exists f,
    readAscii ParseFloat32 (firstn k (solidTokens name fs [])) name0 = Fatal f
    /\ actual f = ""%string
    /\ forall flag center input,
         asciiPrefix input = true ->
         scanWords (avail input) = firstn k (solidTokens name fs []) ->
         init flag = name0 ->
         main ParseFloat32 flag center input = Fatal f.
Proof.
  intros Hden Hk.
  set (T := solidTokens name fs []) in *. set (P := firstn k T).
  assert (St : starved (readAscii ParseFloat32 P name0)).
  { pose proof (readAscii_ok ParseFloat32 name fs [] ps name0 Hden) as HT.
    fold T in HT.
    assert (NoOk : forall qs n1 sc,
               readAscii ParseFloat32 P name0 = Ok (qs, n1, sc) -> qs <> ps).
    { intros qs n1 sc HP Eq. subst qs.
      apply (readAscii_inv ParseFloat32) in HP.
      destruct HP as (nm & fs' & rest' & EP & D' & _).
      apply (f_equal (@List.length string)) in EP.
      rewrite solidTokens_length in EP.
      unfold P in EP. rewrite length_firstn in EP.
      unfold T in Hk, EP. rewrite solidTokens_length in Hk, EP.
      apply Forall2_length_eq in Hden, D'. cbn [List.length] in *. lia. }
    unfold readAscii in HT, NoOk |- *.
    pose proof (cut_firstn k T) as C0. fold P in C0.
    destruct (expect "solid" (NewScanner T)) as [[u s1]| |] eqn:E1;
      try discriminate HT.
    destruct (follows_expect "solid" ltac:(discriminate) _ _ u s1 C0 E1)
      as [(f & Ef & Af)|(sp1 & Ep1 & C1)].
    { exists f. rewrite Ef. split; [reflexivity | exact Af]. }
    rewrite Ep1 in NoOk |- *.
    assert (End : forall n acc,
               starved
                 match readFacets ParseFloat32 n acc (mkScanner [] "") with
                 | Ok (qs, s4) =>
                   if negb (String.eqb (text s4) "endsolid")
                   then Fatal (ExpectedButGot "endsolid" (text s4))
                   else Ok (qs,
                            (if String.eqb name0 "" then text (mkScanner [] "")
                             else name0), Scan s4)
                 | Fatal f => Fatal f
                 | OutOfFuel => OutOfFuel
                 end).
    { intros n acc. rewrite readFacets_stop by discriminate.
      cbn [text String.eqb negb]. eexists. split; reflexivity. }
    destruct (pending sp1) as [|t1 r1] eqn:P1.
    { rewrite (Scan_end sp1 P1). rewrite (Scan_end (mkScanner [] "") eq_refl).
      apply End. }
    assert (C2 : cut (Scan sp1) (Scan s1)).
    { apply cut_Scan; [exact C1 | congruence]. }
    destruct (pending (Scan sp1)) as [|t2 r2] eqn:P2.
    { rewrite (Scan_end (Scan sp1) P2).
      rewrite readFacets_stop by discriminate.
      cbn [text String.eqb negb]. eexists. split; reflexivity. }
    assert (C3 : cut (Scan (Scan sp1)) (Scan (Scan s1))).
    { apply cut_Scan; [exact C2 | congruence]. }
    destruct (readFacets ParseFloat32 (S (List.length T)) [] (Scan (Scan s1)))
      as [[ps4 s4]| |] eqn:E4; try discriminate HT.
    destruct (negb (String.eqb (text s4) "endsolid")) eqn:N4;
      [discriminate HT|].
    injection HT as Eps _ _. subst ps4.
    assert (L3 : (List.length (pending (Scan (Scan sp1))) < S (List.length P))%nat).
    { pose proof (Scan_pending_length (Scan sp1)) as Q.
      pose proof (Scan_pending_length sp1) as Q'.
      assert (Q'' : (List.length (pending sp1) <= List.length P)%nat).
      { unfold expect in Ep1.
        destruct (negb (String.eqb (text (Scan (NewScanner P))) "solid"));
          [discriminate Ep1|].
        inversion Ep1. apply (Scan_pending_length (NewScanner P)). }
      lia. }
    destruct (readFacets_cut _ (S (List.length P)) [] _ _ ps s4 C3 L3 E4)
      as [(f & Ef & Af)|(qs & sp4 & E4' & [[Eq C4]|Et])].
    - exists f. rewrite Ef. split; [reflexivity | exact Af].
    - exfalso. rewrite E4' in NoOk. rewrite (proj1 C4), N4 in NoOk.
      eapply NoOk; [reflexivity | exact Eq].
    - rewrite E4', Et. cbn [String.eqb negb]. eexists. split; reflexivity. }
  destruct St as (f & Ef & Af). exists f. split; [exact Ef|]. split; [exact Af|].
  intros flag center input Hp Ht Hn.
  rewrite main_ascii by exact Hp. rewrite Ht, Hn. fold T. fold P. rewrite Ef.
  reflexivity.
Qed.

End Truncation.

Lemma truncated_ascii_fatal_witness :
  parseDecimal32 "" = None
  /\ Forall2 (denotes parseDecimal32) [sampleFacetText] [sampleFacet]
  /\ (10 < List.length (solidTokens "cube" [sampleFacetText] []))%nat
  /\ exists f,
       readAscii parseDecimal32
         (firstn 10 (solidTokens "cube" [sampleFacetText] [])) "" = Fatal f
       /\ actual f = ""%string.
Proof.
  assert (E : parseDecimal32 "" = None) by reflexivity.
  assert (D : Forall2 (denotes parseDecimal32) [sampleFacetText] [sampleFacet])
    by (repeat constructor).
  assert (K : (10 < List.length (solidTokens "cube" [sampleFacetText] []))%nat)
    by (cbn; lia).
  split; [exact E|]. split; [exact D|]. split; [exact K|].
  destruct (truncated_ascii_fatal parseDecimal32 E "cube" [sampleFacetText]
              [sampleFacet] 10 "" D K) as (f & Ef & Af & _).
  exists f. split; assumption.
Defined.

(** X18: a solid without facets is no error: the run ends normally with no
    facet and writes the polyhedron with one blank line in each list,
    under the name of the flag or else of the solid. *)
Theorem empty_solid_empty_polyhedron
        (ParseFloat32 : string -> option F32.t)
        (name : string) (rest : list string)
        (flag : string) (center : bool) (input : reader) :
  asciiPrefix input = true ->
  scanWords (avail input) = solidTokens name [] rest ->
  let chosen := if String.eqb flag "" then name else flag in
  let final := if String.eqb chosen "" then "shape"%string else chosen in
  main ParseFloat32 flag center input
  = Ok (mkRun [] final (emptyPolyhedron final)).
Proof.
  intros Hp Ht chosen final.
  rewrite (main_ascii ParseFloat32 flag center input Hp), Ht.
  rewrite (readAscii_ok ParseFloat32 name [] rest [] (init flag)
             (Forall2_nil _)).
  unfold init. fold chosen. cbv zeta. fold final.
  replace (postProcess center []) with (@nil polygon)
    by (destruct center; reflexivity).
  reflexivity.
Qed.

Lemma empty_solid_empty_polyhedron_witness :
  asciiPrefix (mkReader (list_byte_of_string "solid none endsolid none") EOF)
  = true
  /\ main parseDecimal32 "" false
          (mkReader (list_byte_of_string "solid none endsolid none") EOF)
     = Ok (mkRun [] "none" (emptyPolyhedron "none")).
Proof.
  split; [reflexivity|].
  exact (empty_solid_empty_polyhedron parseDecimal32 "none" ["none"%string]
           "" false
           (mkReader (list_byte_of_string "solid none endsolid none") EOF)
           eq_refl eq_refl).
Defined.

(** X12: an ASCII file and a binary file of the same facets decode to the
    same facet list; the two runs write the same text when they use the
    same module name, and are the same run when the name is set by the
    flag. *)
Theorem cross_format_equivalence
        (ParseFloat32 : string -> option F32.t)
        (name : string) (fs : list facetText) (trailing : list string)
        (header : list Byte.byte) (c0 c1 c2 c3 : Byte.byte)
        (recs : list (list Byte.byte)) (rest : list Byte.byte)
        (flag : string) (center : bool) (text data : reader) :
  asciiPrefix text = true ->
  scanWords (avail text) = solidTokens name fs trailing ->
  Forall2 (denotes ParseFloat32) fs (map recordFacet recs) ->
  asciiPrefix data = false ->
  avail data = header ++ [c0; c1; c2; c3] ++ List.concat recs ++ rest ->
  List.length header = 80%nat ->
  Forall isRecord recs ->
  le32 c0 c1 c2 c3 = Z.of_nat (List.length recs) ->
  exists rt rd,
    main ParseFloat32 flag center text = Ok rt
    /\ main ParseFloat32 flag center data = Ok rd
    /\ decoded rt = decoded rd
    /\ (moduleName rt = moduleName rd -> output rt = output rd)
    /\ (flag <> ""%string -> rt = rd).
Proof.
  intros Pt Tt Hden Pd Ad Hh Hr Hc.
  rewrite (main_ascii ParseFloat32 flag center text Pt), Tt.
  rewrite (readAscii_ok ParseFloat32 name fs trailing _ (init flag) Hden).
  rewrite (main_binary ParseFloat32 flag center data Pd).
  assert (B : fst (readBinary data) = map recordFacet recs).
  { destruct data as [bytes err]. cbn [avail] in Ad. subst bytes.
    rewrite (readBinary_records header c0 c1 c2 c3 recs rest err Hh Hr Hc).
    reflexivity. }
  rewrite B. cbv zeta.
  eexists. eexists. split; [reflexivity|]. split; [reflexivity|].
  cbn [decoded moduleName output]. split; [reflexivity|]. split.
  - intros E. rewrite E. reflexivity.
  - intros Hf. unfold init. apply String.eqb_neq in Hf.
    rewrite Hf. cbv iota. rewrite Hf. reflexivity.
Qed.

Lemma cross_format_equivalence_witness :
  exists rt rd,
    main parseDecimal32 "part" true (mkReader sampleFlatAscii EOF) = Ok rt
    /\ main parseDecimal32 "part" true (mkReader sampleBinary EOF) = Ok rd
    /\ decoded rt = decoded rd
    /\ (moduleName rt = moduleName rd -> output rt = output rd)
    /\ ("part"%string <> ""%string -> rt = rd).
Proof.
  apply (cross_format_equivalence parseDecimal32 "s" [sampleFlatText] ["s"%string]
           sampleHeader Byte.x01 Byte.x00 Byte.x00 Byte.x00 [sampleRecord] []
           "part" true (mkReader sampleFlatAscii EOF) (mkReader sampleBinary EOF)).
  - reflexivity.
  - reflexivity.
  - repeat constructor.
  - reflexivity.
  - reflexivity.
  - reflexivity.
  - repeat constructor.
  - reflexivity.
Defined.

(** ** Centering and the bounding box *)

Lemma scadLists_shape (ps : polygons) :
  forall (qs : polygons) points points' faces ofs,
    shape ps = shape qs ->
    snd (fst (fold_left scadStep ps (points, faces, ofs)))
    = snd (fst (fold_left scadStep qs (points', faces, ofs))).
Proof.
  induction ps as [|p ps IH]; intros [|q qs] points points' faces ofs H;
    try discriminate H; [reflexivity|].
  cbn [shape map] in H. injection H as Hl Hs.
  cbn [fold_left scadStep]. rewrite Hl. apply IH. exact Hs.
Qed.

Lemma postProcess_shape (centerFlag : bool) (ps : polygons) :
  shape (postProcess centerFlag ps) = shape ps.
Proof.
  destruct centerFlag; [|reflexivity].
  rewrite postProcess_translate. unfold shape. rewrite map_map.
  apply map_ext. intros p. unfold translate. cbn [vertices].
  apply length_map.
Qed.

(** X13: centering moves points only: the number of facets, the number
    of vertices of each facet and the faces list of the output are the same
    with and without it. *)
Theorem centering_keeps_faces (centerFlag : bool) (ps : polygons) :
  shape (postProcess centerFlag ps) = shape ps
  /\ List.length (postProcess centerFlag ps) = List.length ps
  /\ scadFaces (postProcess centerFlag ps) = scadFaces ps.
Proof.
  pose proof (postProcess_shape centerFlag ps) as S.
  split; [exact S|]. split.
  - apply (f_equal (@List.length nat)) in S. unfold shape in S.
    rewrite !length_map in S. exact S.
  - unfold scadFaces, scadLists. apply scadLists_shape. exact S.
Qed.

Lemma toFloat64_not_inf (a : F32.t) :
  F32.finite a = true -> F32.is_inf (F32.toFloat64 a) false = false.
Proof.
  intros Ha.
  destruct a as [sa|sa| |sa ma ea];
    [ | discriminate Ha | discriminate Ha | rewrite finite_S754_finite in Ha].
  - reflexivity.
  - rewrite (toFloat64_finite sa ma ea Ha). reflexivity.
Qed.

Lemma Max_max32 (a b : F32.t) :
  F32.finite a = true -> F32.finite b = true -> F32.Max a b = max32 a b.
Proof.
  intros Ha Hb. unfold F32.Max, F32.mathMax, max32.
  destruct (toFloat64_class a Ha) as (_ & Na & Sa).
  destruct (toFloat64_class b Hb) as (_ & Nb & _).
  rewrite (toFloat64_not_inf a Ha), (toFloat64_not_inf b Hb), Na, Nb, Sa.
  cbn [orb].
  destruct (finite_not_special a Ha) as (_ & Ia & Na').
  destruct (finite_not_special b Hb) as (_ & Ib & Nb').
  rewrite Ia, Ib, Na', Nb'. cbn [orb].
  unfold F32.eqb, F32.ltb, SFeqb, SFltb.
  change F32.pos_zero with (F32.toFloat64 F32.pos_zero) at 1.
  rewrite (SFcompare_widen a F32.pos_zero Ha eq_refl),
    (SFcompare_widen a b Ha Hb), (SFcompare_widen b a Hb Ha).
  repeat match goal with
         | |- context [if ?c then _ else _] => destruct c
         end;
    apply ofFloat64_toFloat64; assumption.
Qed.

Lemma Max_finite (a b : F32.t) :
  F32.finite a = true -> F32.finite b = true ->
  (F32.Max a b = a \/ F32.Max a b = b)
  /\ key (F32.Max a b) = Z.max (key a) (key b).
Proof.
  intros Ha Hb. rewrite (Max_max32 a b Ha Hb). unfold max32.
  destruct (finite_not_special a Ha) as (_ & Ia & Na).
  destruct (finite_not_special b Hb) as (_ & Ib & Nb).
  rewrite Ia, Ib, Na, Nb. cbn [orb].
  rewrite (eqb_key a F32.pos_zero Ha eq_refl), (eqb_key a b Ha Hb),
    (ltb_key b a Hb Ha).
  change (key F32.pos_zero) with 0.
  destruct (Z.eqb_spec (key a) 0) as [E0|E0];
    destruct (Z.eqb_spec (key a) (key b)) as [E1|E1]; cbn [andb].
  - destruct (F32.signbit a); split; auto; lia.
  - destruct (Z.ltb_spec (key b) (key a)); split; auto; lia.
  - destruct (Z.ltb_spec (key b) (key a)); split; auto; lia.
  - destruct (Z.ltb_spec (key b) (key a)); split; auto; lia.
Qed.

Lemma fold_Max_spec (zs : list F32.t) :
  forall init,
    F32.finite init = true -> allFinite zs ->
    let m := fold_left F32.Max zs init in
    F32.finite m = true
    /\ (m = init \/ In m zs)
    /\ key init <= key m
    /\ (forall v, In v zs -> key v <= key m).
Proof.
  induction zs as [|v zs IH]; intros init Hi Hall; cbn [fold_left].
  - cbv zeta. repeat split; auto; try lia. intros ? [].
  - inversion Hall as [|? ? Hv Hzs]; subst.
    pose proof (Max_finite init v Hi Hv) as [Hsel Hkey].
    assert (Hf : F32.finite (F32.Max init v) = true).
    { destruct Hsel as [E|E]; rewrite E; assumption. }
    specialize (IH (F32.Max init v) Hf Hzs).
    cbv zeta in IH |- *. destruct IH as (F & Sel & K0 & K).
    split; [exact F|]. split; [|split].
    + destruct Sel as [Sel|Sel]; [|right; right; exact Sel].
      rewrite Sel. destruct Hsel as [E|E]; rewrite E; [left | right; left];
        reflexivity.
    + lia.
    + intros w [E|Hw]; [subst w; lia | apply K; exact Hw].
Qed.

(** Each coordinate of the bounding box is a fold of its own. *)
Lemma bbStep_folds (vs : list point) :
  forall mn mx,
    let bb := fold_left bbStep vs (mn, mx) in
    (x (fst bb) = fold_left F32.Min (map x vs) (x mn)
     /\ y (fst bb) = fold_left F32.Min (map y vs) (y mn)
     /\ z (fst bb) = fold_left F32.Min (map z vs) (z mn))
    /\ (x (snd bb) = fold_left F32.Max (map x vs) (x mx)
        /\ y (snd bb) = fold_left F32.Max (map y vs) (y mx)
        /\ z (snd bb) = fold_left F32.Max (map z vs) (z mx)).
Proof.
  induction vs as [|v vs IH]; intros mn mx; cbn [fold_left map bbStep].
  - repeat split.
  - apply IH.
Qed.

Lemma boundingBox_axes (ps : polygons) :
  let bb := boundingBox ps in
  let vs := allVertices ps in
  (x (fst bb) = fold_left F32.Min (map x vs) F32.MaxFloat32
   /\ y (fst bb) = fold_left F32.Min (map y vs) F32.MaxFloat32
   /\ z (fst bb) = fold_left F32.Min (map z vs) F32.MaxFloat32)
  /\ (x (snd bb) = fold_left F32.Max (map x vs) (F32.neg F32.MaxFloat32)
      /\ y (snd bb) = fold_left F32.Max (map y vs) (F32.neg F32.MaxFloat32)
      /\ z (snd bb) = fold_left F32.Max (map z vs) (F32.neg F32.MaxFloat32)).
Proof.
  unfold boundingBox, allVertices. cbv zeta.
  rewrite fold_left_flat_map. apply bbStep_folds.
Qed.

Lemma key_ge_min (v : F32.t) :
  F32.finite v = true -> key (F32.neg F32.MaxFloat32) <= key v.
Proof.
  assert (KM : key (F32.neg F32.MaxFloat32) = -4278190079) by reflexivity.
  rewrite KM.
  destruct v as [s|s| |s m e]; cbn [F32.finite key];
    [intros _; lia | discriminate | discriminate |].
  intros H. apply canonical_bounds in H.
  destruct s; cbn [cond_Zopp]; lia.
Qed.

Lemma fold_bounds (cs : list F32.t) :
  cs <> [] -> allFinite cs ->
  bounds (fold_left F32.Min cs F32.MaxFloat32)
         (fold_left F32.Max cs (F32.neg F32.MaxFloat32)) cs.
Proof.
  intros Hne Hall.
  destruct (fold_Min_spec cs F32.MaxFloat32 eq_refl Hall) as (Fm & Sm & _ & Km & _).
  destruct (fold_Max_spec cs (F32.neg F32.MaxFloat32) eq_refl Hall)
    as (FM & SM & _ & KM).
  cbv zeta in *.
  set (lo := fold_left F32.Min cs F32.MaxFloat32) in *.
  set (hi := fold_left F32.Max cs (F32.neg F32.MaxFloat32)) in *.
  destruct cs as [|c0 cs0] eqn:Ecs; [congruence|]. rewrite <- Ecs in *.
  assert (H0 : In c0 cs) by (rewrite Ecs; left; reflexivity).
  assert (F0 : F32.finite c0 = true).
  { unfold allFinite in Hall. rewrite Forall_forall in Hall. apply Hall, H0. }
  split; [|split].
  - destruct Sm as [E|I]; [|exact I].
    assert (K : key c0 = key F32.MaxFloat32).
    { pose proof (Km c0 H0). pose proof (key_le_max c0 F0). rewrite E in *. lia. }
    rewrite E. rewrite <- (key_inj c0 F32.MaxFloat32 F0 eq_refl K); [exact H0|].
    rewrite K. discriminate.
  - destruct SM as [E|I]; [|exact I].
    assert (K : key c0 = key (F32.neg F32.MaxFloat32)).
    { pose proof (KM c0 H0). pose proof (key_ge_min c0 F0). rewrite E in *. lia. }
    rewrite E. rewrite <- (key_inj c0 (F32.neg F32.MaxFloat32) F0 eq_refl K);
      [exact H0|].
    rewrite K. discriminate.
  - intros c Hc.
    assert (Fc : F32.finite c = true).
    { unfold allFinite in Hall. rewrite Forall_forall in Hall. apply Hall, Hc. }
    rewrite (ltb_key c lo Fc Fm), (ltb_key hi c FM Fc).
    pose proof (Km c Hc). pose proof (KM c Hc).
    split; apply Z.ltb_ge; lia.
Qed.

(** X14: for a mesh with at least one vertex and finite coordinates, each
    coordinate of the bounding box is a coordinate of some vertex, no
    vertex lies below the minimum and none above the maximum. *)
Theorem boundingBox_bounds (ps : polygons) :
  allVertices ps <> [] -> allCoordinatesFinite ps ->
  let bb := boundingBox ps in
  let vs := allVertices ps in
  bounds (x (fst bb)) (x (snd bb)) (map x vs)
  /\ bounds (y (fst bb)) (y (snd bb)) (map y vs)
  /\ bounds (z (fst bb)) (z (snd bb)) (map z vs).
Proof.
  intros Hne Hfin. cbv zeta.
  destruct (boundingBox_axes ps) as ((Ex & Ey & Ez) & (Fx & Fy & Fz)).
  cbv zeta in *. rewrite Ex, Ey, Ez, Fx, Fy, Fz.
  unfold allCoordinatesFinite in Hfin. rewrite Forall_forall in Hfin.
  assert (N : forall c : point -> F32.t, map c (allVertices ps) <> []).
  { intros c E. apply map_eq_nil in E. contradiction. }
  assert (A : forall c : point -> F32.t,
             (forall v, In v (allVertices ps) -> F32.finite (c v) = true) ->
             allFinite (map c (allVertices ps))).
  { intros c H. unfold allFinite. apply Forall_map, Forall_forall. exact H. }
  split; [|split]; apply fold_bounds; try apply N; apply A; intros v Hv;
    destruct (Hfin v Hv) as (Hx & Hy & Hz); assumption.
Qed.

Lemma boundingBox_bounds_witness :
  allVertices [sampleFacet] <> [] /\ allCoordinatesFinite [sampleFacet]
  /\ bounds (z (fst (boundingBox [sampleFacet])))
            (z (snd (boundingBox [sampleFacet])))
            (map z (allVertices [sampleFacet])).
Proof.
  assert (N : allVertices [sampleFacet] <> []) by discriminate.
  assert (F : allCoordinatesFinite [sampleFacet])
    by (repeat constructor).
  split; [exact N|]. split; [exact F|].
  exact (proj2 (proj2 (boundingBox_bounds [sampleFacet] N F))).
Defined.

(** *** Coordinates that are no numbers *)

Lemma mathMin_nan (a b : spec_float) :
  a = S754_nan \/ a = F32.neg_inf \/ b = S754_nan ->
  nanOrNegInf (F32.mathMin a b).
Proof.
  unfold F32.mathMin, nanOrNegInf.
  intros [E|[E|E]]; subst.
  - cbn [F32.is_inf F32.is_nan orb]. destruct (F32.is_inf b true); auto.
  - cbn [F32.is_inf Bool.eqb orb]. auto.
  - cbn [F32.is_inf F32.is_nan orb]. rewrite !orb_false_r, orb_true_r.
    destruct (F32.is_inf a true); auto.
Qed.

Lemma mathMax_nan (a b : spec_float) :
  a = S754_nan \/ a = F32.pos_inf \/ b = S754_nan ->
  nanOrPosInf (F32.mathMax a b).
Proof.
  unfold F32.mathMax, nanOrPosInf.
  intros [E|[E|E]]; subst.
  - cbn [F32.is_inf F32.is_nan orb]. destruct (F32.is_inf b false); auto.
  - cbn [F32.is_inf Bool.eqb orb]. auto.
  - cbn [F32.is_inf F32.is_nan orb]. rewrite !orb_false_r, orb_true_r.
    destruct (F32.is_inf a false); auto.
Qed.

Lemma Min_nan (acc v : F32.t) :
  nanOrNegInf acc \/ v = S754_nan -> nanOrNegInf (F32.Min acc v).
Proof.
  intros H. unfold F32.Min.
  assert (M : nanOrNegInf (F32.mathMin (F32.toFloat64 acc) (F32.toFloat64 v))).
  { apply mathMin_nan. destruct H as [[E|E]|E]; subst; auto. }
  destruct M as [E|E]; rewrite E; [left | right]; reflexivity.
Qed.

Lemma Max_nan (acc v : F32.t) :
  nanOrPosInf acc \/ v = S754_nan -> nanOrPosInf (F32.Max acc v).
Proof.
  intros H. unfold F32.Max.
  assert (M : nanOrPosInf (F32.mathMax (F32.toFloat64 acc) (F32.toFloat64 v))).
  { apply mathMax_nan. destruct H as [[E|E]|E]; subst; auto. }
  destruct M as [E|E]; rewrite E; [left | right]; reflexivity.
Qed.

Lemma fold_Min_nan (cs : list F32.t) :
  forall acc,
    nanOrNegInf acc \/ In S754_nan cs ->
    nanOrNegInf (fold_left F32.Min cs acc).
Proof.
  induction cs as [|c cs IH]; intros acc H; cbn [fold_left].
  - destruct H as [H|[]]. exact H.
  - apply IH. destruct H as [H|[E|H]].
    + left. apply Min_nan. left. exact H.
    + left. apply Min_nan. right. exact E.
    + right. exact H.
Qed.

Lemma fold_Max_nan (cs : list F32.t) :
  forall acc,
    nanOrPosInf acc \/ In S754_nan cs ->
    nanOrPosInf (fold_left F32.Max cs acc).
Proof.
  induction cs as [|c cs IH]; intros acc H; cbn [fold_left].
  - destruct H as [H|[]]. exact H.
  - apply IH. destruct H as [H|[E|H]].
    + left. apply Max_nan. left. exact H.
    + left. apply Max_nan. right. exact E.
    + right. exact H.
Qed.

Lemma center_nan (lo hi : F32.t) :
  nanOrNegInf lo -> nanOrPosInf hi ->
  F32.sub (F32.neg lo) (F32.div (F32.sub hi lo) (F32.of_Z 2)) = S754_nan.
Proof.
  intros [E|E] [F|F]; subst; reflexivity.
Qed.

Lemma add_nan (v : F32.t) : F32.add v S754_nan = S754_nan.
Proof. destruct v as [s|s| |s m e]; reflexivity. Qed.

(** X15: one NaN among the x coordinates makes every x coordinate NaN
    once the mesh is centered, and likewise for y; [ftos] writes such a
    coordinate as ["NaN"]. *)
Theorem centering_spreads_nan (ps : polygons) :
  (In S754_nan (map x (allVertices ps)) ->
   Forall (fun v => x v = S754_nan) (allVertices (postProcess true ps)))
  /\ (In S754_nan (map y (allVertices ps)) ->
      Forall (fun v => y v = S754_nan) (allVertices (postProcess true ps)))
  /\ ftos S754_nan = "NaN"%string.
Proof.
  destruct (boundingBox_axes ps) as ((Ex & Ey & _) & (Fx & Fy & _)).
  cbv zeta in *.
  rewrite postProcess_translate, allVertices_translate.
  split; [|split; [|reflexivity]]; intros H; apply Forall_map, Forall_forall;
    intros v _; unfold point_add, centerDelta; cbn [x y z].
  - rewrite Ex, Fx, center_nan.
    + apply add_nan.
    + apply fold_Min_nan. right. exact H.
    + apply fold_Max_nan. right. exact H.
  - rewrite Ey, Fy, center_nan.
    + apply add_nan.
    + apply fold_Min_nan. right. exact H.
    + apply fold_Max_nan. right. exact H.
Qed.

Lemma centering_spreads_nan_witness :
  In S754_nan (map x (allVertices nanMesh))
  /\ Forall (fun v => x v = S754_nan) (allVertices (postProcess true nanMesh)).
Proof.
  assert (H : In S754_nan (map x (allVertices nanMesh)))
    by (left; reflexivity).
  split; [exact H|].
  exact (proj1 (centering_spreads_nan nanMesh) H).
Defined.

(** X16: after centering a mesh with finite z coordinates no vertex lies
    below the plane z = 0 and one lies on it: every z is +0 or positive
    (+Inf when the shift overflows), never negative, never -0, never NaN. *)
Theorem centered_z_nonneg (ps : polygons) :
  ps <> [] -> Forall threeVertices ps -> zFinite ps ->
  Forall (fun v => nonneg (z v) = true) (allVertices (postProcess true ps))
  /\ exists v, In v (allVertices (postProcess true ps)) /\ z v = F32.pos_zero.
Proof.
  intros Hne H3 Hfin.
  pose proof (shifted_least_zero (map z (allVertices ps))
                (allVertices_nonempty ps Hne H3) (zFinite_allFinite ps Hfin))
    as S.
  cbv zeta in S. rewrite <- boundingBox_min_z, <- z_after_postProcess in S.
  destruct S as (Hnn & Hin & _).
  split.
  - apply Forall_map in Hnn. exact Hnn.
  - apply in_map_iff in Hin. destruct Hin as (v & Ez & Hv).
    exists v. split; assumption.
Qed.

Lemma centered_z_nonneg_witness :
  [sampleFacet] <> [] /\ Forall threeVertices [sampleFacet]
  /\ zFinite [sampleFacet]
  /\ Forall (fun v => nonneg (z v) = true)
            (allVertices (postProcess true [sampleFacet])).
Proof.
  assert (N : [sampleFacet] <> []) by discriminate.
  assert (T : Forall threeVertices [sampleFacet]) by (repeat constructor).
  assert (F : zFinite [sampleFacet]) by (repeat constructor).
  split; [exact N|]. split; [exact T|]. split; [exact F|].
  exact (proj1 (centered_z_nonneg [sampleFacet] N T F)).
Defined.

(** * Centering: the claims *)

(** ** Exact binary32 operations *)

Lemma binary_round_aux_shifted (s : bool) (m k : positive) (e : Z) :
  F32.canonical m e = true ->
  binary_round_aux F32.prec F32.emax s (Zpos (Pos.iter xO m k)) (e - Zpos k)
                   loc_Exact
  = S754_finite s m e.
Proof.
  intros H. pose proof (fexp32_canonical m e H) as Hf.
  apply canonical_digits in H. destruct H as (D & E & _).
  assert (Hd : Zpos (digits2_pos (Pos.iter xO m k)) + (e - Zpos k)
               = Zpos (digits2_pos m) + e)
    by (rewrite digits2_pos_shift, Pos2Z.inj_add; lia).
  unfold binary_round_aux, shr_fexp.
  cbn [Zdigits2 shr_record_of_loc]. rewrite Hd, Hf.
  replace (e - (e - Zpos k)) with (Zpos k) by lia.
  cbn [shr]. rewrite shr_shifted.
  cbn [shr_m loc_of_shr_record round_nearest_even Zdigits2 shr_record_of_loc].
  replace (e - Zpos k + Zpos k) with e by lia.
  rewrite Hf, Z.sub_diag. cbn [shr shr_m].
  assert (He : (e <=? F32.emax - F32.prec) = true)
    by (apply Z.leb_le; unfold F32.emax, F32.prec; lia).
  rewrite He. reflexivity.
Qed.

(** A value that a canonical mantissa and exponent hold is rounded to
    them. *)
Lemma binary_round_exact (s : bool) (n : positive) (en : Z)
      (m : positive) (e : Z) :
  F32.canonical m e = true ->
  Zpos n * 2 ^ (en - Z.min en e) = Zpos m * 2 ^ (e - Z.min en e) ->
  binary_round F32.prec F32.emax s n en = S754_finite s m e.
Proof.
  intros H V. pose proof (fexp32_canonical m e H) as Hf.
  pose proof (canonical_digits m e H) as (D & E & _).
  unfold binary_round.
  destruct (Z_lt_le_dec en e) as [L|L].
  - (* the given mantissa is the canonical one shifted left *)
    rewrite Z.min_l in V by lia. rewrite Z.sub_diag, Z.mul_1_r in V.
    set (k := Z.to_pos (e - en)).
    assert (Hk : Zpos k = e - en) by (apply Z2Pos.id; lia).
    assert (En : n = Pos.iter xO m k).
    { apply Pos2Z.inj. rewrite Zpos_iter_xO, Hk. exact V. }
    subst n. rewrite digits2_pos_shift, Pos2Z.inj_add.
    replace (Zpos (digits2_pos m) + Zpos k + en)
      with (Zpos (digits2_pos m) + e) by lia.
    rewrite Hf. unfold shl_align.
    replace (e - en) with (Zpos k) by lia.
    replace en with (e - Zpos k) by lia.
    apply binary_round_aux_shifted. exact H.
  - (* the canonical mantissa is the given one shifted left *)
    rewrite Z.min_r in V by lia. rewrite Z.sub_diag, Z.mul_1_r in V.
    assert (Hdig : Zpos (digits2_pos n) + en = Zpos (digits2_pos m) + e).
    { destruct (Z.eq_dec en e) as [Eq|Ne].
      - subst en. rewrite Z.sub_diag, Z.mul_1_r in V. congruence.
      - set (k := Z.to_pos (en - e)).
        assert (Hk : Zpos k = en - e) by (apply Z2Pos.id; lia).
        assert (Em : m = Pos.iter xO n k).
        { apply Pos2Z.inj. rewrite Zpos_iter_xO, Hk. symmetry. exact V. }
        rewrite Em, digits2_pos_shift, Pos2Z.inj_add. lia. }
    rewrite Hdig, Hf. unfold shl_align.
    destruct (Z.eq_dec en e) as [Eq|Ne].
    + subst en. rewrite Z.sub_diag, Z.mul_1_r in V.
      assert (n = m) by congruence. subst n. rewrite Z.sub_diag.
      apply binary_round_aux_exact; [exact Hf|].
      unfold F32.emax, F32.prec. lia.
    + set (k := Z.to_pos (en - e)).
      assert (Hk : Zpos k = en - e) by (apply Z2Pos.id; lia).
      replace (e - en) with (Zneg k) by lia.
      assert (Em : Pos.iter xO n k = m).
      { apply Pos2Z.inj. rewrite Zpos_iter_xO, Hk. exact V. }
      rewrite Em.
      apply binary_round_aux_exact; [exact Hf|].
      unfold F32.emax, F32.prec. lia.
Qed.

Lemma canonical_intro (m : positive) (e : Z) :
  Zpos m < 16777216 -> -149 <= e <= 104 ->
  (e = -149 \/ 8388608 <= Zpos m) ->
  F32.canonical m e = true.
Proof.
  intros U E N. unfold F32.canonical.
  repeat (apply andb_true_iff; split).
  - apply Z.ltb_lt. exact U.
  - apply Z.leb_le. lia.
  - apply Z.leb_le. lia.
  - apply orb_true_iff. destruct N as [N|N];
      [left; apply Z.eqb_eq | right; apply Z.leb_le]; assumption.
Qed.

(** Every integer below 2^24 in magnitude, counted in units of [2 ^ k], is
    a binary32 number. *)
Lemma canonical_exists (p : positive) (k : Z) :
  Zpos p < 16777216 -> -149 <= k <= 104 ->
  exists m e,
    F32.canonical m e = true /\ e <= k /\ Zpos m = Zpos p * 2 ^ (k - e).
Proof.
  intros U K.
  pose proof (digits2_pos_bounds p) as [Lo Hi].
  assert (D : Zpos (digits2_pos p) <= 24)
    by (apply digits2_pos_le; [lia | exact U]).
  set (d := Zpos (digits2_pos p)) in *.
  assert (D1 : 1 <= d) by (unfold d; lia).
  set (e := Z.max (d + k - 24) (-149)).
  destruct (Z.eq_dec (k - e) 0) as [Z0|NZ].
  - exists p, e. rewrite Z0, Z.mul_1_r.
    split; [|split; [lia | reflexivity]].
    apply canonical_intro; [exact U | lia |].
    destruct (Z.eq_dec e (-149)) as [E|E]; [left; exact E | right].
    assert (d = 24) by lia.
    replace 8388608 with (2 ^ (d - 1)) by (rewrite H; reflexivity).
    exact Lo.
  - set (j := Z.to_pos (k - e)).
    assert (Hj : Zpos j = k - e) by (apply Z2Pos.id; lia).
    exists (Pos.iter xO p j), e.
    assert (V : Zpos (Pos.iter xO p j) = Zpos p * 2 ^ (k - e))
      by (rewrite Zpos_iter_xO, Hj; reflexivity).
    split; [|split; [lia | exact V]].
    pose proof (digits2_pos_bounds (Pos.iter xO p j)) as [Lo' Hi'].
    rewrite digits2_pos_shift, Pos2Z.inj_add, Hj in Lo', Hi'. fold d in Lo', Hi'.
    apply canonical_intro; [| lia |].
    + assert (2 ^ (d + (k - e)) <= 2 ^ 24) by (apply Z.pow_le_mono_r; lia).
      change (2 ^ 24) with 16777216 in H. lia.
    + destruct (Z.eq_dec e (-149)) as [E|E]; [left; exact E | right].
      assert (d + (k - e) = 24) by lia.
      replace 8388608 with (2 ^ (d + (k - e) - 1)) by (rewrite H; reflexivity).
      exact Lo'.
Qed.

Lemma represents_finite (k n : Z) (v : F32.t) :
  represents k n v -> F32.finite v = true.
Proof.
  destruct v as [s|s| |s m e]; cbn [represents]; try contradiction.
  - reflexivity.
  - intros (H & _). rewrite finite_S754_finite. exact H.
Qed.

(** The integer a representation counts is below 2^24. *)
Lemma represents_small (k n : Z) (v : F32.t) :
  represents k n v -> Z.abs n < 16777216.
Proof.
  destruct v as [s|s| |s m e]; cbn [represents]; try contradiction.
  - intros ->. reflexivity.
  - intros (H & L & V). apply canonical_bounds in H.
    destruct H as (U & _).
    assert (P : 1 <= 2 ^ (k - e)).
    { assert (0 < 2 ^ (k - e)) by (apply Z.pow_pos_nonneg; lia). lia. }
    destruct s; cbn [cond_Zopp] in V; nia.
Qed.

(** The result of a rounding of [z * 2 ^ ez] that counts [n] units of
    [2 ^ k]. *)
Lemma normalize_represents (z ez k n : Z) :
  -149 <= k <= 104 -> ez <= k ->
  z = n * 2 ^ (k - ez) -> Z.abs n < 16777216 ->
  represents k n (binary_normalize F32.prec F32.emax z ez false).
Proof.
  intros K L V U.
  assert (P : 0 < 2 ^ (k - ez)) by (apply Z.pow_pos_nonneg; lia).
  destruct z as [|pz|pz].
  - cbn [binary_normalize represents]. nia.
  - cbn [binary_normalize].
    assert (Hn : 0 < n) by nia.
    destruct n as [|pn|pn]; try lia.
    destruct (canonical_exists pn k U K) as (m & e & C & Le & Vm).
    rewrite (binary_round_exact false pz ez m e C).
    + cbn [represents cond_Zopp]. repeat split; assumption.
    + rewrite V, Vm.
      destruct (Z.min_spec ez e) as [[? ->]|[? ->]];
        rewrite Z.sub_diag, Z.mul_1_r, <- ?Z.mul_assoc, <- Z.pow_add_r by lia;
        f_equal; f_equal; lia.
  - cbn [binary_normalize].
    assert (Hn : n < 0) by nia.
    destruct n as [|pn|pn]; try lia.
    destruct (canonical_exists pn k U K) as (m & e & C & Le & Vm).
    rewrite (binary_round_exact true pz ez m e C).
    + cbn [represents cond_Zopp]. split; [exact C|]. split; [exact Le|].
      rewrite Vm. lia.
    + assert (Vz : Zpos pz = Zpos pn * 2 ^ (k - ez)) by lia.
      rewrite Vz, Vm.
      destruct (Z.min_spec ez e) as [[? ->]|[? ->]];
        rewrite Z.sub_diag, Z.mul_1_r, <- ?Z.mul_assoc, <- Z.pow_add_r by lia;
        f_equal; f_equal; lia.
Qed.

Lemma cond_Zopp_mul (s : bool) (a b : Z) :
  cond_Zopp s (a * b) = cond_Zopp s a * b.
Proof. destruct s; cbn [cond_Zopp]; lia. Qed.

Lemma aligned_value (s : bool) (m : positive) (e ez k n : Z) :
  ez <= e -> e <= k ->
  cond_Zopp s (Zpos m) = n * 2 ^ (k - e) ->
  cond_Zopp s (Zpos (fst (shl_align m e ez))) = n * 2 ^ (k - ez).
Proof.
  intros L1 L2 V. rewrite shl_align_fst by exact L1.
  rewrite cond_Zopp_mul, V, <- Z.mul_assoc, <- Z.pow_add_r by lia.
  f_equal. f_equal. lia.
Qed.

Lemma represents_add (k a b : Z) (x y : F32.t) :
  -149 <= k <= 104 ->
  represents k a x -> represents k b y -> Z.abs (a + b) < 16777216 ->
  represents k (a + b) (F32.add x y).
Proof.
  intros K Hx Hy U.
  destruct x as [sx|sx| |sx mx ex]; cbn [represents] in Hx; try contradiction;
    destruct y as [sy|sy| |sy my ey]; cbn [represents] in Hy; try contradiction.
  - subst a b. destruct sx, sy; reflexivity.
  - subst a. exact Hy.
  - subst b. rewrite Z.add_0_r. exact Hx.
  - destruct Hx as (Cx & Lx & Vx), Hy as (Cy & Ly & Vy).
    unfold F32.add, SFadd.
    apply normalize_represents; [exact K | lia | | exact U].
    rewrite (aligned_value sx mx ex (Z.min ex ey) k a) by (lia || assumption).
    rewrite (aligned_value sy my ey (Z.min ex ey) k b) by (lia || assumption).
    lia.
Qed.

Lemma represents_neg (k a : Z) (x : F32.t) :
  represents k a x -> represents k (- a) (F32.neg x).
Proof.
  destruct x as [sx|sx| |sx mx ex]; cbn [represents F32.neg SFopp];
    try contradiction.
  - lia.
  - intros (C & L & V). split; [exact C|]. split; [exact L|].
    destruct sx; cbn [negb cond_Zopp] in *; lia.
Qed.

Lemma represents_sub (k a b : Z) (x y : F32.t) :
  -149 <= k <= 104 ->
  represents k a x -> represents k b y -> Z.abs (a - b) < 16777216 ->
  represents k (a - b) (F32.sub x y).
Proof.
  intros K Hx Hy U.
  destruct x as [sx|sx| |sx mx ex]; cbn [represents] in Hx; try contradiction;
    destruct y as [sy|sy| |sy my ey]; cbn [represents] in Hy; try contradiction.
  - subst a b. destruct sx, sy; reflexivity.
  - subst a. apply (represents_neg k b (S754_finite sy my ey)). exact Hy.
  - subst b. rewrite Z.sub_0_r. exact Hx.
  - destruct Hx as (Cx & Lx & Vx), Hy as (Cy & Ly & Vy).
    unfold F32.sub, SFsub.
    apply normalize_represents; [exact K | lia | | exact U].
    rewrite (aligned_value sx mx ex (Z.min ex ey) k a) by (lia || assumption).
    rewrite (aligned_value sy my ey (Z.min ex ey) k b) by (lia || assumption).
    lia.
Qed.

(** The same value counted in units half as large. *)
Lemma represents_finer (k a : Z) (x : F32.t) :
  -148 <= k -> Z.abs a < 8388608 ->
  represents k a x -> represents (k - 1) (2 * a) x.
Proof.
  intros K U.
  destruct x as [sx|sx| |sx mx ex]; cbn [represents]; try contradiction.
  - lia.
  - intros (C & L & V). split; [exact C|].
    assert (L' : ex <= k - 1).
    { destruct (Z.eq_dec ex k) as [E|E]; [|lia]. exfalso.
      subst ex. rewrite Z.sub_diag, Z.mul_1_r in V.
      apply canonical_bounds in C. destruct C as (_ & _ & [C|C]); [lia|].
      destruct sx; cbn [cond_Zopp] in V; lia. }
    split; [exact L'|].
    rewrite V. replace (k - ex) with (Z.succ (k - 1 - ex)) by lia.
    rewrite Z.pow_succ_r by lia. lia.
Qed.

Lemma nonneg_represents (k n : Z) (v : F32.t) :
  represents k n v -> nonneg v = true -> 0 <= n.
Proof.
  destruct v as [s|s| |s m e]; cbn [represents]; try contradiction.
  - lia.
  - intros (C & L & V) N. destruct s; [discriminate N|].
    cbn [cond_Zopp] in V.
    assert (0 < 2 ^ (k - e)) by (apply Z.pow_pos_nonneg; lia). nia.
Qed.

(** The order of the keys is the order of the values. *)
Lemma represents_le (k a b : Z) (x y : F32.t) :
  -149 <= k <= 104 ->
  represents k a x -> represents k b y -> Z.abs (b - a) < 16777216 ->
  key x <= key y -> a <= b.
Proof.
  intros K Hx Hy U Hk.
  destruct (F32.eqb x F32.pos_zero) eqn:Zx.
  - (* x is a zero *)
    rewrite (eqb_key x F32.pos_zero (represents_finite k a x Hx) eq_refl) in Zx.
    apply Z.eqb_eq in Zx. change (key F32.pos_zero) with 0 in Zx.
    destruct (key_zero x (represents_finite k a x Hx) Zx) as [s Es]. subst x.
    cbn [represents] in Hx. subst a.
    destruct y as [sy|sy| |sy my ey]; cbn [represents] in Hy; try contradiction.
    + lia.
    + destruct Hy as (C & L & V). apply canonical_bounds in C.
      cbn [key] in Hk.
      assert (0 < 2 ^ (k - ey)) by (apply Z.pow_pos_nonneg; lia).
      destruct sy; cbn [cond_Zopp] in *; nia.
  - assert (Nz : x <> F32.pos_zero) by (intros E; subst x; discriminate Zx).
    pose proof (add_neg_nonneg y x (represents_finite k b y Hy)
                  (represents_finite k a x Hx) Hk
                  (fun E => False_ind _ (Nz E))) as [N _].
    pose proof (represents_add k b (- a) y (F32.neg x) K Hy
                  (represents_neg k a x Hx)
                  ltac:(replace (b + - a) with (b - a) by lia; exact U)) as R.
    pose proof (nonneg_represents k (b + - a) _ R N). lia.
Qed.

Lemma div_eucl_pair (a b : Z) : Z.div_eucl a b = (a / b, a mod b).
Proof. unfold Z.div, Z.modulo. destruct (Z.div_eucl a b). reflexivity. Qed.

Lemma of_Z_2 : F32.of_Z 2 = S754_finite false 8388608 (-22).
Proof. reflexivity. Qed.

(** Halving a value above the least exponent lowers the exponent. *)
Lemma half_normal (s : bool) (m : positive) (e : Z) :
  F32.canonical m e = true -> -148 <= e ->
  F32.div (S754_finite s m e) (F32.of_Z 2) = S754_finite s m (e - 1).
Proof.
  intros C E. rewrite of_Z_2.
  pose proof (canonical_digits m e C) as (D & Ee & [[X _]|D24]); [lia|].
  pose proof (canonical_bounds m e C) as (U & _ & N).
  assert (C' : F32.canonical m (e - 1) = true).
  { apply canonical_intro; [exact U | lia | right; lia]. }
  unfold F32.div, SFdiv, SFdiv_core_binary.
  cbn [Zdigits2]. rewrite D24.
  change (Zpos (digits2_pos 8388608)) with 24.
  replace (24 + e - (24 + -22)) with (e + 22) by lia.
  replace (e - -22) with (e + 22) by lia.
  destruct (Z.eq_dec e (-148)) as [E8|E8].
  - subst e. cbn -[Z.div_eucl Z.shiftl binary_round_aux].
    rewrite div_eucl_pair, Z.shiftl_mul_pow2 by lia.
    change (2 ^ 23) with 8388608.
    rewrite Z.div_mul, Z.mod_mul by lia.
    cbn [xorb]. rewrite xorb_false_r.
    change (new_location 8388608 0) with loc_Exact.
    apply binary_round_aux_exact.
    + rewrite D24. reflexivity.
    + unfold F32.emax, F32.prec. lia.
  - assert (Hf : fexp F32.prec F32.emax (e + 22) = e - 2).
    { unfold fexp, emin, F32.prec, F32.emax. lia. }
    rewrite Hf. rewrite Z.min_l by lia.
    replace (e + 22 - (e - 2)) with 24 by lia.
    rewrite div_eucl_pair, Z.shiftl_mul_pow2 by lia.
    replace (Zpos m * 2 ^ 24) with (Zpos m~0 * 8388608) by lia.
    rewrite Z.div_mul, Z.mod_mul by lia.
    rewrite xorb_false_r.
    change (new_location 8388608 0) with loc_Exact.
    change (Zpos m~0) with (Zpos (Pos.iter xO m 1)).
    replace (e - 2) with (e - 1 - Zpos 1) by lia.
    apply binary_round_aux_shifted. exact C'.
Qed.

(** Halving an even multiple of the least unit halves the mantissa. *)
Lemma half_subnormal (s : bool) (m : positive) :
  F32.canonical m~0 (-149) = true ->
  F32.div (S754_finite s m~0 (-149)) (F32.of_Z 2) = S754_finite s m (-149).
Proof.
  intros C. rewrite of_Z_2.
  pose proof (canonical_digits _ _ C) as (D & _ & _).
  cbn [digits2_pos] in D. rewrite Pos2Z.inj_succ in D.
  unfold F32.div, SFdiv, SFdiv_core_binary.
  change (Zdigits2 8388608) with 24.
  cbn [Zdigits2].
  change (digits2_pos m~0) with (Pos.succ (digits2_pos m)).
  rewrite Pos2Z.inj_succ.
  assert (Hf : fexp F32.prec F32.emax
                 (Z.succ (Zpos (digits2_pos m)) + -149 - (24 + -22)) = -149).
  { unfold fexp, emin, F32.prec, F32.emax. lia. }
  rewrite Hf. cbn -[Z.div_eucl Z.shiftl binary_round_aux].
  rewrite div_eucl_pair, Z.shiftl_mul_pow2 by lia.
  replace (Zpos m~0 * 2 ^ 22) with (Zpos m * 8388608) by lia.
  rewrite Z.div_mul, Z.mod_mul by lia.
  rewrite xorb_false_r.
  change (new_location 8388608 0) with loc_Exact.
  apply binary_round_aux_exact.
  - unfold fexp, emin, F32.prec, F32.emax. lia.
  - unfold F32.emax, F32.prec. lia.
Qed.

Lemma represents_half (k a : Z) (x : F32.t) :
  -148 <= k ->
  represents k a x -> represents (k - 1) a (F32.div x (F32.of_Z 2)).
Proof.
  intros K.
  destruct x as [sx|sx| |sx mx ex]; cbn [represents]; try contradiction.
  - intros ->. reflexivity.
  - intros (C & L & V).
    destruct (Z_le_gt_dec (-148) ex) as [E|E].
    + rewrite (half_normal sx mx ex C E). cbn [represents].
      pose proof (canonical_bounds mx ex C) as (U & Ee & N).
      split; [apply canonical_intro; [exact U | lia | right; lia]|].
      split; [lia|].
      rewrite V. f_equal. f_equal. lia.
    + pose proof (canonical_bounds mx ex C) as (U & Ee & N).
      assert (ex = -149) by lia. subst ex.
      assert (Ev : exists h, mx = (h~0)%positive).
      { replace (k - -149) with (Z.succ (k + 148)) in V by lia.
        rewrite Z.pow_succ_r in V by lia.
        destruct mx as [h|h|]; [exfalso | exists h; reflexivity | exfalso];
          destruct sx; cbn [cond_Zopp] in V; lia. }
      destruct Ev as [h ->].
      rewrite (half_subnormal sx h C). cbn [represents].
      split; [apply canonical_intro; [lia | lia | left; reflexivity]|].
      split; [lia|].
      replace (k - -149) with (Z.succ (k - 1 - -149)) in V by lia.
      rewrite Z.pow_succ_r in V by lia.
      destruct sx; cbn [cond_Zopp] in *; lia.
Qed.

(** ** An axis on a grid *)

Section Grid.

Variables k N : Z.
Variable cs : list F32.t.
Hypothesis Hk : -148 <= k <= 104.
Hypothesis HN : 0 <= N < 8388608.
Hypothesis Hne : cs <> [].
Hypothesis Hgrid : Forall (gridded k N) cs.

Lemma grid_value (c : F32.t) :
  In c cs -> exists n, Z.abs n <= N /\ represents k n c.
Proof.
  intros H. rewrite Forall_forall in Hgrid. exact (Hgrid c H).
Qed.

Lemma grid_allFinite : allFinite cs.
Proof.
  unfold allFinite. apply Forall_forall. intros c H.
  destruct (grid_value c H) as (n & _ & R).
  exact (represents_finite k n c R).
Qed.

(** The bounds of the coordinates are coordinates, and their values bound
    the values of all. *)
Lemma grid_extremes :
  exists lo hi,
    Z.abs lo <= N /\ Z.abs hi <= N
    /\ In (least cs) cs /\ In (greatest cs) cs
    /\ represents k lo (least cs) /\ represents k hi (greatest cs)
    /\ forall c n, In c cs -> Z.abs n <= N -> represents k n c ->
                   lo <= n <= hi.
Proof.
  destruct (fold_bounds cs Hne grid_allFinite) as (Il & Ih & B).
  fold (least cs) in Il, B. fold (greatest cs) in Ih, B.
  destruct (grid_value _ Il) as (lo & Ul & Rl).
  destruct (grid_value _ Ih) as (hi & Uh & Rh).
  exists lo, hi. repeat (split; [assumption|]).
  intros c n Hc Un Rc. destruct (B c Hc) as [B1 B2].
  rewrite (ltb_key c (least cs) (represents_finite _ _ _ Rc)
             (represents_finite _ _ _ Rl)) in B1.
  rewrite (ltb_key (greatest cs) c (represents_finite _ _ _ Rh)
             (represents_finite _ _ _ Rc)) in B2.
  apply Z.ltb_ge in B1, B2.
  split.
  - apply (represents_le k lo n (least cs) c); try assumption; lia.
  - apply (represents_le k n hi c (greatest cs)); try assumption; lia.
Qed.

(** [delta] on a grid is minus the sum of the bounds, in half steps, and
    every centered coordinate is twice its value less that sum. *)
Lemma grid_centered :
  exists lo hi,
    lo <= hi /\ Z.abs lo <= N /\ Z.abs hi <= N
    /\ In (least cs) cs /\ In (greatest cs) cs
    /\ represents k lo (least cs) /\ represents k hi (greatest cs)
    /\ represents (k - 1) (- (lo + hi))
                  (axisDelta (least cs) (greatest cs))
    /\ forall c n, In c cs -> Z.abs n <= N -> represents k n c ->
                   lo <= n <= hi
                   /\ represents (k - 1) (2 * n - (lo + hi))
                        (F32.add c (axisDelta (least cs) (greatest cs))).
Proof.
  destruct grid_extremes as (lo & hi & Ul & Uh & Il & Ih & Rl & Rh & B).
  assert (Llh : lo <= hi) by (destruct (B _ lo Il Ul Rl); lia).
  assert (K1 : -149 <= k <= 104) by lia.
  assert (K2 : -149 <= k - 1 <= 104) by lia.
  assert (Rd : represents (k - 1) (- (lo + hi))
                 (axisDelta (least cs) (greatest cs))).
  { unfold axisDelta.
    pose proof (represents_sub k hi lo _ _ K1 Rh Rl ltac:(lia)) as Rw.
    pose proof (represents_half k (hi - lo) _ ltac:(lia) Rw) as Rhalf.
    pose proof (represents_finer k (- lo) _ ltac:(lia) ltac:(lia)
                  (represents_neg k lo _ Rl)) as Rn.
    pose proof (represents_sub (k - 1) (2 * - lo) (hi - lo) _ _ K2 Rn Rhalf
                  ltac:(lia)) as R.
    replace (2 * - lo - (hi - lo)) with (- (lo + hi)) in R by lia.
    exact R. }
  exists lo, hi. repeat (split; [assumption|]).
  intros c n Hc Un Rc. pose proof (B c n Hc Un Rc) as Bn.
  split; [exact Bn|].
  pose proof (represents_finer k n c ltac:(lia) ltac:(lia) Rc) as Rc'.
  pose proof (represents_add (k - 1) (2 * n) (- (lo + hi)) _ _ K2 Rc' Rd
                ltac:(lia)) as R.
  replace (2 * n + - (lo + hi)) with (2 * n - (lo + hi)) in R by lia.
  exact R.
Qed.

End Grid.

Lemma represents_inj (k n n' : Z) (v : F32.t) :
  represents k n v -> represents k n' v -> n = n'.
Proof.
  destruct v as [s|s| |s m e]; cbn [represents]; try contradiction.
  - congruence.
  - intros (_ & L & V) (_ & _ & V').
    assert (0 < 2 ^ (k - e)) by (apply Z.pow_pos_nonneg; lia).
    rewrite V in V'. nia.
Qed.

Lemma represents_zero (k : Z) (v : F32.t) :
  represents k 0 v -> exists s, v = S754_zero s.
Proof.
  destruct v as [s|s| |s m e]; cbn [represents]; try contradiction.
  - intros _. exists s. reflexivity.
  - intros (_ & _ & V). destruct s; cbn [cond_Zopp] in V; lia.
Qed.

(** A sum is the negative zero only of two negative zeros. *)
Lemma add_neg_zero_inv (k a b : Z) (x y : F32.t) :
  -149 <= k <= 104 ->
  represents k a x -> represents k b y -> Z.abs (a + b) < 16777216 ->
  F32.add x y = F32.neg_zero -> x = F32.neg_zero /\ y = F32.neg_zero.
Proof.
  intros K Hx Hy U.
  destruct x as [sx|sx| |sx mx ex]; cbn [represents] in Hx; try contradiction;
    destruct y as [sy|sy| |sy my ey]; cbn [represents] in Hy; try contradiction.
  - destruct sx, sy; cbn; intros E; try discriminate E; split; reflexivity.
  - cbn. intros E. discriminate E.
  - cbn. intros E. discriminate E.
  - intros E. exfalso.
    pose proof (represents_add k a b (S754_finite sx mx ex)
                  (S754_finite sy my ey) K Hx Hy U) as R.
    rewrite E in R. cbn [represents F32.neg_zero] in R.
    destruct Hx as (Cx & Lx & Vx), Hy as (Cy & Ly & Vy).
    unfold F32.add, SFadd in E.
    rewrite (aligned_value sx mx ex (Z.min ex ey) k a) in E
      by (lia || assumption).
    rewrite (aligned_value sy my ey (Z.min ex ey) k b) in E
      by (lia || assumption).
    replace (a * 2 ^ (k - Z.min ex ey) + b * 2 ^ (k - Z.min ex ey)) with 0 in E
      by nia.
    discriminate E.
Qed.

(** A difference is the negative zero only of a negative and a positive
    zero. *)
Lemma sub_neg_zero_inv (k a b : Z) (x y : F32.t) :
  -149 <= k <= 104 ->
  represents k a x -> represents k b y -> Z.abs (a - b) < 16777216 ->
  F32.sub x y = F32.neg_zero -> x = F32.neg_zero /\ y = F32.pos_zero.
Proof.
  intros K Hx Hy U.
  destruct x as [sx|sx| |sx mx ex]; cbn [represents] in Hx; try contradiction;
    destruct y as [sy|sy| |sy my ey]; cbn [represents] in Hy; try contradiction.
  - destruct sx, sy; cbn; intros E; try discriminate E; split; reflexivity.
  - cbn. intros E. discriminate E.
  - cbn. intros E. discriminate E.
  - intros E. exfalso.
    pose proof (represents_sub k a b (S754_finite sx mx ex)
                  (S754_finite sy my ey) K Hx Hy U) as R.
    rewrite E in R. cbn [represents F32.neg_zero] in R.
    destruct Hx as (Cx & Lx & Vx), Hy as (Cy & Ly & Vy).
    unfold F32.sub, SFsub in E.
    rewrite (aligned_value sx mx ex (Z.min ex ey) k a) in E
      by (lia || assumption).
    rewrite (aligned_value sy my ey (Z.min ex ey) k b) in E
      by (lia || assumption).
    replace (a * 2 ^ (k - Z.min ex ey) - b * 2 ^ (k - Z.min ex ey)) with 0 in E
      by nia.
    discriminate E.
Qed.

(** Adding a zero changes nothing but the sign of a negative zero. *)
Lemma add_zero_r (c : F32.t) (s : bool) :
  F32.finite c = true -> c <> F32.neg_zero ->
  F32.add c (S754_zero s) = c.
Proof.
  destruct c as [sc|sc| |sc m e]; cbn [F32.finite]; try discriminate;
    intros _ N.
  - destruct sc, s; try reflexivity. exfalso. apply N. reflexivity.
  - reflexivity.
Qed.

Section Centered.

Variables k N : Z.
Variable cs : list F32.t.
Hypothesis Hk : -147 <= k <= 104.
Hypothesis HN : 0 <= N < 4194304.
Hypothesis Hne : cs <> [].
Hypothesis Hgrid : Forall (gridded k N) cs.

(** The centered coordinates lie between [- w] and [w], both reached, in
    half steps; none is the negative zero. *)
Lemma centerAxis_symmetric :
  exists w,
    0 <= w <= 2 * N
    /\ Forall (gridded (k - 1) (2 * N)) (centerAxis cs)
    /\ represents (k - 1) (- w) (least (centerAxis cs))
    /\ represents (k - 1) w (greatest (centerAxis cs))
    /\ Forall (fun c => c <> F32.neg_zero) (centerAxis cs).
Proof.
  destruct (grid_centered k N cs ltac:(lia) ltac:(lia) Hne Hgrid)
    as (lo & hi & Llh & Ul & Uh & Il & Ih & Rl & Rh & Rd & B).
  set (d := axisDelta (least cs) (greatest cs)) in *.
  assert (G : Forall (gridded (k - 1) (2 * N)) (centerAxis cs)).
  { unfold centerAxis. fold d. apply Forall_map, Forall_forall. intros c Hc.
    destruct (grid_value k N cs Hgrid c Hc) as (n & Un & Rc).
    destruct (B c n Hc Un Rc) as [Bn R].
    exists (2 * n - (lo + hi)). split; [lia | exact R]. }
  assert (Ne' : centerAxis cs <> []).
  { unfold centerAxis. intros E. apply map_eq_nil in E. contradiction. }
  destruct (grid_extremes (k - 1) (2 * N) (centerAxis cs)
              ltac:(lia) ltac:(lia) Ne' G)
    as (lo' & hi' & Ul' & Uh' & Il' & Ih' & Rl' & Rh' & B').
  (* the images of the two bounds *)
  assert (Elo : In (F32.add (least cs) d) (centerAxis cs))
    by (unfold centerAxis; fold d;
        apply (in_map (fun c => F32.add c d)); exact Il).
  assert (Ehi : In (F32.add (greatest cs) d) (centerAxis cs))
    by (unfold centerAxis; fold d;
        apply (in_map (fun c => F32.add c d)); exact Ih).
  pose proof (proj2 (B _ lo Il Ul Rl)) as Rlo.
  pose proof (proj2 (B _ hi Ih Uh Rh)) as Rhi.
  replace (2 * lo - (lo + hi)) with (- (hi - lo)) in Rlo by lia.
  replace (2 * hi - (lo + hi)) with (hi - lo) in Rhi by lia.
  assert (Wlo : Z.abs (- (hi - lo)) <= 2 * N) by lia.
  assert (Whi : Z.abs (hi - lo) <= 2 * N) by lia.
  pose proof (B' _ _ Elo Wlo Rlo) as [Blo _].
  pose proof (B' _ _ Ehi Whi Rhi) as [_ Bhi].
  (* every centered value lies between them *)
  assert (Range : forall c', In c' (centerAxis cs) ->
                    forall b, represents (k - 1) b c' ->
                              - (hi - lo) <= b <= hi - lo).
  { intros c' Hc' b Rb. unfold centerAxis in Hc'. fold d in Hc'.
    apply in_map_iff in Hc'. destruct Hc' as (c & Ec & Hc). subst c'.
    destruct (grid_value k N cs Hgrid c Hc) as (n & Un & Rc).
    destruct (B c n Hc Un Rc) as [Bn R].
    rewrite (represents_inj _ _ _ _ Rb R). lia. }
  pose proof (Range _ Il' lo' Rl') as Rg1.
  pose proof (Range _ Ih' hi' Rh') as Rg2.
  assert (lo' = - (hi - lo)) by lia. assert (hi' = hi - lo) by lia.
  subst lo' hi'.
  exists (hi - lo). split; [lia|]. split; [exact G|].
  split; [exact Rl'|]. split; [exact Rh'|].
  (* no negative zero *)
  unfold centerAxis. fold d. apply Forall_map, Forall_forall.
  intros c Hc E.
  destruct (grid_value k N cs Hgrid c Hc) as (n & Un & Rc).
  destruct (B c n Hc Un Rc) as [Bn R].
  pose proof (represents_finer k n c ltac:(lia) ltac:(lia) Rc) as Rc'.
  destruct (add_neg_zero_inv (k - 1) (2 * n) (- (lo + hi)) c d
              ltac:(lia) Rc' Rd ltac:(lia) E) as [Ec Ed].
  (* delta is the negative zero only when the least coordinate is +0 *)
  unfold d, axisDelta in Ed.
  pose proof (represents_sub k hi lo _ _ ltac:(lia) Rh Rl ltac:(lia)) as Rw.
  pose proof (represents_half k (hi - lo) _ ltac:(lia) Rw) as Rhalf.
  pose proof (represents_finer k (- lo) _ ltac:(lia) ltac:(lia)
                (represents_neg k lo _ Rl)) as Rn.
  destruct (sub_neg_zero_inv (k - 1) (2 * - lo) (hi - lo) _ _ ltac:(lia)
              Rn Rhalf ltac:(lia) Ed) as [En _].
  assert (Least : least cs = F32.pos_zero).
  { destruct (least cs) as [[|]| | |]; cbn in En; try discriminate En.
    reflexivity. }
  destruct (fold_Min_spec cs F32.MaxFloat32 eq_refl
              (grid_allFinite k N cs Hgrid)) as (_ & _ & _ & _ & Bz).
  cbv zeta in Bz. fold (least cs) in Bz. rewrite Least in Bz.
  destruct Bz as [Bz|Bz].
  - right. rewrite <- Ec. exact Hc.
  - discriminate Bz.
  - cbn in Bz. lia.
Qed.


(** Centering the centered coordinates once more changes none. *)
Lemma centerAxis_idempotent :
  (exists s, axisDelta (least (centerAxis cs)) (greatest (centerAxis cs))
             = S754_zero s)
  /\ centerAxis (centerAxis cs) = centerAxis cs.
Proof.
  destruct centerAxis_symmetric as (w & Hw & G & Rl & Rh & Nz).
  assert (Ne' : centerAxis cs <> []).
  { unfold centerAxis. intros E. apply map_eq_nil in E. contradiction. }
  destruct (grid_centered (k - 1) (2 * N) (centerAxis cs)
              ltac:(lia) ltac:(lia) Ne' G)
    as (lo' & hi' & _ & _ & _ & _ & _ & Rl' & Rh' & Rd & _).
  rewrite <- (represents_inj _ _ _ _ Rl Rl') in Rd.
  rewrite <- (represents_inj _ _ _ _ Rh Rh') in Rd.
  replace (- (- w + w)) with 0 in Rd by lia.
  destruct (represents_zero _ _ Rd) as [s Es].
  split; [exists s; exact Es|].
  unfold centerAxis at 1. rewrite Es.
  rewrite <- (map_id (centerAxis cs)) at 2.
  apply map_ext_in. intros c Hc.
  rewrite Forall_forall in Nz, G.
  destruct (G c Hc) as (n & _ & Rc).
  apply add_zero_r; [exact (represents_finite _ _ _ Rc) | exact (Nz c Hc)].
Qed.

End Centered.

(** ** The mesh, axis by axis *)

Lemma centerDelta_axes (ps : polygons) :
  let bb := boundingBox ps in
  let vs := allVertices ps in
  centerDelta (fst bb) (snd bb)
  = mkPoint (axisDelta (least (map x vs)) (greatest (map x vs)))
            (axisDelta (least (map y vs)) (greatest (map y vs)))
            (F32.neg (least (map z vs))).
Proof.
  cbv zeta.
  destruct (boundingBox_axes ps) as [(Ex & Ey & Ez) (EX & EY & EZ)].
  unfold centerDelta, axisDelta, least, greatest.
  rewrite Ex, Ey, Ez, EX, EY. reflexivity.
Qed.

Lemma x_after_postProcess (ps : polygons) :
  map x (allVertices (postProcess true ps))
  = centerAxis (map x (allVertices ps)).
Proof.
  rewrite postProcess_translate, allVertices_translate, centerDelta_axes.
  unfold centerAxis. rewrite !map_map. reflexivity.
Qed.

Lemma y_after_postProcess (ps : polygons) :
  map y (allVertices (postProcess true ps))
  = centerAxis (map y (allVertices ps)).
Proof.
  rewrite postProcess_translate, allVertices_translate, centerDelta_axes.
  unfold centerAxis. rewrite !map_map. reflexivity.
Qed.


Lemma vertices_nonempty (ps : polygons) (f : point -> F32.t) :
  ps <> [] -> Forall threeVertices ps -> map f (allVertices ps) <> [].
Proof.
  destruct ps as [|p ps]; [congruence|]. intros _ H.
  inversion H as [|? ? Hp _]; subst. unfold threeVertices in Hp.
  unfold allVertices. cbn [flat_map].
  destruct (vertices p) as [|v vs]; [discriminate Hp|]. discriminate.
Qed.

(** Translating by a vector that changes no vertex changes no facet. *)
Lemma translate_fixed (delta : point) (ps : polygons) :
  Forall (fun v => point_add v delta = v) (allVertices ps) ->
  map (translate delta) ps = ps.
Proof.
  unfold allVertices. induction ps as [|p ps IH]; cbn [map flat_map]; intros H.
  - reflexivity.
  - apply Forall_app in H. destruct H as [Hp Hps].
    rewrite (IH Hps). f_equal.
    destruct p as [vs]. unfold translate. cbn [vertices] in *. f_equal.
    rewrite <- (map_id vs) at 2. apply map_ext_in. intros v Hv.
    rewrite Forall_forall in Hp. exact (Hp v Hv).
Qed.

Lemma Forall_map_fixed (f : point -> F32.t) (d : F32.t) (vs : list point) :
  map (fun c => F32.add c d) (map f vs) = map f vs ->
  Forall (fun v => F32.add (f v) d = f v) vs.
Proof.
  induction vs as [|v vs IH]; cbn [map]; intros H.
  - constructor.
  - injection H as H1 H2. constructor; [exact H1 | exact (IH H2)].
Qed.

Lemma onGrid_gridded (k : Z) (cs : list F32.t) :
  cs <> [] -> Forall (onGrid k) cs ->
  -147 <= k <= 104 /\ Forall (gridded k 4194303) cs.
Proof.
  intros Hne H. split.
  - destruct cs as [|c cs']; [congruence|].
    inversion H as [|? ? [K _] _]. exact K.
  - apply Forall_forall. intros c Hc. rewrite Forall_forall in H.
    exact (proj2 (H c Hc)).
Qed.


(** On a grid the second translation of an axis is a zero, and adds
    nothing. *)
Lemma axis_fixed (f : point -> F32.t) (k : Z) (ps : polygons) :
  ps <> [] -> Forall threeVertices ps ->
  Forall (onGrid k) (map f (allVertices ps)) ->
  let cs' := centerAxis (map f (allVertices ps)) in
  (exists s, axisDelta (least cs') (greatest cs') = S754_zero s)
  /\ centerAxis cs' = cs'.
Proof.
  intros Hne H3 Hg.
  pose proof (vertices_nonempty ps f Hne H3) as Hv.
  destruct (onGrid_gridded k _ Hv Hg) as [K G].
  apply (centerAxis_idempotent k 4194303); [exact K | lia | exact Hv | exact G].
Qed.

Lemma postProcess_nonempty (ps : polygons) :
  ps <> [] -> Forall threeVertices ps ->
  postProcess true ps <> [] /\ Forall threeVertices (postProcess true ps).
Proof.
  intros Hne H3. rewrite postProcess_translate. split.
  - intros E. apply map_eq_nil in E. contradiction.
  - apply Forall_map. apply Forall_forall. intros p Hp.
    rewrite Forall_forall in H3. specialize (H3 p Hp).
    unfold threeVertices, translate in *. cbn [vertices].
    rewrite length_map. exact H3.
Qed.

(** A second centering of a mesh on a grid changes no vertex. *)
Lemma postProcess_fixed (kx ky : Z) (ps : polygons) :
  ps <> [] -> Forall threeVertices ps -> zFinite ps ->
  Forall (onGrid kx) (map x (allVertices ps)) ->
  Forall (onGrid ky) (map y (allVertices ps)) ->
  let bb' := boundingBox (postProcess true ps) in
  (exists sx sy, centerDelta (fst bb') (snd bb')
                 = mkPoint (S754_zero sx) (S754_zero sy) F32.neg_zero)
  /\ postProcess true (postProcess true ps) = postProcess true ps.
Proof.
  intros Hne H3 Hfin Gx Gy. cbv zeta.
  destruct (axis_fixed x kx ps Hne H3 Gx) as [[sx Dx] Fx].
  destruct (axis_fixed y ky ps Hne H3 Gy) as [[sy Dy] Fy].
  pose proof (min_z_after_postProcess ps Hne H3 Hfin) as Hz.
  rewrite boundingBox_min_z in Hz.
  fold (least (map z (allVertices (postProcess true ps)))) in Hz.
  assert (D : centerDelta (fst (boundingBox (postProcess true ps)))
                          (snd (boundingBox (postProcess true ps)))
              = mkPoint (S754_zero sx) (S754_zero sy) F32.neg_zero).
  { rewrite centerDelta_axes, x_after_postProcess, y_after_postProcess.
    cbv zeta in Dx, Dy. rewrite Dx, Dy, Hz. reflexivity. }
  split; [exists sx, sy; exact D|].
  rewrite (postProcess_translate (postProcess true ps)), D.
  apply translate_fixed.
  cbv zeta in Fx, Fy, Dx, Dy. unfold centerAxis at 1 in Fx. unfold centerAxis at 1 in Fy.
  rewrite Dx in Fx. rewrite Dy in Fy.
  rewrite <- x_after_postProcess in Fx. rewrite <- y_after_postProcess in Fy.
  apply Forall_map_fixed in Fx. apply Forall_map_fixed in Fy.
  rewrite Forall_forall in Fx, Fy. apply Forall_forall. intros v Hv.
  unfold point_add. cbn [x y z].
  rewrite (Fx v Hv), (Fy v Hv), add_neg_zero. destruct v; reflexivity.
Qed.



Lemma sampleFacet_onGrid :
  Forall (onGrid 0) (map x (allVertices [sampleFacet]))
  /\ Forall (onGrid 0) (map y (allVertices [sampleFacet])).
Proof.
  assert (Z0 : onGrid 0 F32.pos_zero).
  { split; [lia|]. exists 0. split; [lia | reflexivity]. }
  assert (Z4 : onGrid 0 (F32.of_Z 4)).
  { split; [lia|]. exists 4. split; [lia|]. vm_compute. repeat split.
    discriminate. }
  assert (Z6 : onGrid 0 (F32.of_Z 6)).
  { split; [lia|]. exists 6. split; [lia|]. vm_compute. repeat split.
    discriminate. }
  split; cbn [sampleFacet allVertices flat_map vertices app map x y];
    repeat (apply Forall_cons; [assumption|]); apply Forall_nil.
Defined.


(** C8, as stated, fails.  For x coordinates 0.1 and 0.7 the first
    centering leaves -0.29999998 and 0.30000001, whose bounding box gives a
    second translation of -2^-25 in x, and the second centering moves every
    vertex by an ulp.  For x coordinates 2^24 and 2^24+2 the first centering
    leaves 0 and 2, the second translation is -1 in x, and the second
    centering moves every vertex by half the width of the mesh. *)
Lemma centering_twice_counterexample :
  (roundingMesh <> []
   /\ Forall threeVertices roundingMesh
   /\ allCoordinatesFinite roundingMesh
   /\ postProcess true (postProcess true roundingMesh)
      <> postProcess true roundingMesh
   /\ (let bb := boundingBox (postProcess true roundingMesh) in
       x (centerDelta (fst bb) (snd bb)) = S754_finite true 8388608 (-48))
   /\ map (fun v => ftos (x v)) (allVertices (postProcess true roundingMesh))
      = ["-0.2999999821"; "0.3000000119"; "-0.2999999821"]%string
   /\ map (fun v => ftos (x v))
          (allVertices (postProcess true (postProcess true roundingMesh)))
      = ["-0.3000000119"; "0.2999999821"; "-0.3000000119"]%string)
  /\ (wideMesh <> []
      /\ Forall threeVertices wideMesh
      /\ allCoordinatesFinite wideMesh
      /\ postProcess true (postProcess true wideMesh)
         <> postProcess true wideMesh
      /\ (let bb := boundingBox (postProcess true wideMesh) in
          x (centerDelta (fst bb) (snd bb)) = F32.neg (F32.of_Z 1))
      /\ map (fun v => ftos (x v)) (allVertices (postProcess true wideMesh))
         = ["0"; "2"; "0"]%string
      /\ map (fun v => ftos (x v))
             (allVertices (postProcess true (postProcess true wideMesh)))
         = ["-1"; "1"; "-1"]%string).
Proof.
  split.
  - split; [discriminate|]. split; [repeat constructor|].
    split; [repeat constructor|].
    split; [vm_compute; discriminate|].
    split; [vm_compute; reflexivity|].
    split; vm_compute; reflexivity.
  - split; [discriminate|]. split; [repeat constructor|].
    split; [repeat constructor|].
    split; [vm_compute; discriminate|].
    split; [vm_compute; reflexivity|].
    split; vm_compute; reflexivity.
Qed.

(** C8 (amended): for a mesh of three-vertex facets with at least one facet
    and finite z coordinates, a second centering leaves every z coordinate
    as the first left it: the least z is then +0 and the z of the second
    translation is a zero.  When moreover the x coordinates lie on a grid
    and the y coordinates lie on a grid (all are multiples [n * 2^k] of one
    power of two, [|n| < 2^22]), the whole second translation is zero and
    centering twice gives the very mesh that centering once gives. *)
Theorem centering_twice (ps : polygons) :
  ps <> [] -> Forall threeVertices ps -> zFinite ps ->
  let ps' := postProcess true ps in
  let vs := allVertices ps in
  let bb' := boundingBox ps' in
  let delta' := centerDelta (fst bb') (snd bb') in
  z delta' = F32.neg_zero
  /\ map z (allVertices (postProcess true ps')) = map z (allVertices ps')
  /\ (forall kx ky,
        Forall (onGrid kx) (map x vs) -> Forall (onGrid ky) (map y vs) ->
        (exists sx sy,
            delta' = mkPoint (S754_zero sx) (S754_zero sy) F32.neg_zero)
        /\ postProcess true ps' = ps').
Proof.
  intros Hne H3 Hfin. cbv zeta.
  pose proof (min_z_after_postProcess ps Hne H3 Hfin) as Hz.
  split; [|split].
  - unfold centerDelta. cbn [z]. rewrite Hz. reflexivity.
  - rewrite (z_after_postProcess (postProcess true ps)), Hz.
    change (F32.neg F32.pos_zero) with F32.neg_zero.
    rewrite (map_ext _ (fun c => c) add_neg_zero). apply map_id.
  - intros kx ky Gx Gy.
    exact (postProcess_fixed kx ky ps Hne H3 Hfin Gx Gy).
Qed.

Lemma centering_twice_witness :
  [sampleFacet] <> []
  /\ Forall threeVertices [sampleFacet]
  /\ zFinite [sampleFacet]
  /\ Forall (onGrid 0) (map x (allVertices [sampleFacet]))
  /\ Forall (onGrid 0) (map y (allVertices [sampleFacet]))
  /\ postProcess true (postProcess true [sampleFacet])
     = postProcess true [sampleFacet].
Proof.
  assert (H1 : [sampleFacet] <> []) by discriminate.
  assert (H2 : Forall threeVertices [sampleFacet]) by (repeat constructor).
  assert (H3 : zFinite [sampleFacet]) by (repeat constructor).
  destruct sampleFacet_onGrid as [Gx Gy].
  split; [exact H1|]. split; [exact H2|]. split; [exact H3|].
  split; [exact Gx|]. split; [exact Gy|].
  exact (proj2 (proj2 (proj2 (centering_twice [sampleFacet] H1 H2 H3))
                  0 0 Gx Gy)).
Defined.
